(** * Polymer entity/component runtime: entity manager and transform system

    A shallow embedding of the entity manager, the two example component
    systems and the hierarchical transform system, followed by the
    properties established about them.

    Conventions.
    - [entity] is the 64-bit unsigned identifier of the source, kept as an
      [N] with the wrap-around of [++entity_counter] written out.
    - [std::unordered_map] is a [gmap]; [operator[]] is [index] (it inserts
      a default-constructed value when the key is missing) followed by
      [at_key]; [find] is the plain lookup [!!].
    - [std::vector<entity>] is a [list entity].
    - The two recursive member functions take a [fuel] argument: the
      source recursion has no visited set, so it does not return on a
      cyclic hierarchy, and [None] / [Out_of_fuel] stands for that. *)

From stdpp Require Import gmap strings list fin_maps.

Open Scope N_scope.

(** ** Entities *)

Definition entity : Type := N.
Definition kInvalidEntity : entity := 0.

(** [uint64_t] arithmetic: the value after [++x]. *)
Definition uint64_modulus : N := 2 ^ 64.
Definition uint64_incr (x : N) : N := (x + 1) mod uint64_modulus.

(** ** Types declared in headers that are not part of the sources

    [math-core.hpp] declares [Pose], its product and [float3];
    [polymer-typeid.hpp] declares [poly_typeid] and [get_typeid<T>()].
    They are taken as parameters. *)

Class MathCore := {
  Pose : Type;
  (** [a * b] on poses *)
  pose_mul : Pose → Pose → Pose;
  (** the default-constructed [Pose()] *)
  pose_default : Pose;
  float3 : Type;
  (** the default-constructed [float3()] *)
  float3_default : float3;
  (** C++ [float] *)
  float : Type;
  float_default : float
}.

Class TypeIds := {
  poly_typeid : Type;
  #[global] poly_typeid_eq_dec :: EqDecision poly_typeid;
  #[global] poly_typeid_countable :: Countable poly_typeid;
  (** [get_typeid<physics_component>()] and [get_typeid<render_component>()] *)
  typeid_physics_component : poly_typeid;
  typeid_render_component : poly_typeid
}.

(** ** [std::unordered_map] accessors *)

Section unordered_map.
Context {K : Type} `{Countable K} {V : Type}.

(** The table after [m[k]] has been evaluated. *)
Definition index (dflt : V) (k : K) (m : gmap K V) : gmap K V :=
  match m !! k with
  | Some _ => m
  | None => <[k := dflt]> m
  end.

(** The element [m[k]] refers to. *)
Definition at_key (dflt : V) (k : K) (m : gmap K V) : V :=
  default dflt (m !! k).
End unordered_map.

(** ** The entity manager *)

(** A [base_system *]: an address, [nullptr] being 0. *)
Definition system_ptr : Type := N.
Definition nullptr : system_ptr := 0.

Module EntityManager.
Section defs.
Context `{TypeIds}.

Record entity_manager := {
  system_type_map : gmap poly_typeid poly_typeid;
  entity_counter : entity;
  systems : gmap poly_typeid system_ptr
}.

(** A freshly constructed manager: [entity_counter { 0 }], empty maps. *)
Definition new : entity_manager :=
  {| system_type_map := ∅; entity_counter := 0; systems := ∅ |}.

Definition register_system_for_type
    (system_type def_type : poly_typeid) (m : entity_manager) : entity_manager :=
  {| system_type_map := <[def_type := system_type]> (system_type_map m);
     entity_counter := entity_counter m;
     systems := systems m |}.

(** [const entity e = ++entity_counter; return e;] *)
Definition create (m : entity_manager) : entity * entity_manager :=
  let e := uint64_incr (entity_counter m) in
  (e, {| system_type_map := system_type_map m;
         entity_counter := e;
         systems := systems m |}).

Definition add_system
    (system_type : poly_typeid) (system : system_ptr) (m : entity_manager)
    : entity_manager :=
  if decide (system = nullptr) then m
  else match systems m !! system_type with
       | None =>
           {| system_type_map := system_type_map m;
              entity_counter := entity_counter m;
              systems := <[system_type := system]> (systems m) |}
       | Some _ => m
       end.

(** [k] successive calls of [create]; the identifiers in call order. *)
Fixpoint create_many (k : nat) (m : entity_manager) : list entity * entity_manager :=
  match k with
  | O => ([], m)
  | S k' =>
      let '(e, m1) := create m in
      let '(es, m2) := create_many k' m1 in
      (e :: es, m2)
  end.
End defs.
End EntityManager.

(** ** The example data-component systems *)

Section components.
Context `{MathCore}.

Record physics_component := {
  physics_entity : entity;
  physics_value1 : float;
  physics_value2 : float;
  physics_value3 : float
}.

(** [physics_component(e)]: the three values are not initialised by the
    constructor; any value stands for them. *)
Definition new_physics_component (e : entity) : physics_component :=
  {| physics_entity := e; physics_value1 := float_default;
     physics_value2 := float_default; physics_value3 := float_default |}.

Record render_component := {
  render_entity : entity;
  render_value1 : float;
  render_value2 : float;
  render_value3 : float
}.

Definition new_render_component (e : entity) : render_component :=
  {| render_entity := e; render_value1 := float_default;
     render_value2 := float_default; render_value3 := float_default |}.
End components.

Module ExSystemOne.
Section defs.
Context `{MathCore} `{TypeIds}.

Record ex_system_one := { components : gmap entity physics_component }.

Definition c1 : poly_typeid := typeid_physics_component.

(** [data] is the object the [void *] points to. The component built
    from [e] is overwritten as a whole, entity included, by the copy
    assignment. *)
Definition create (e : entity) (hash : poly_typeid) (data : physics_component)
    (s : ex_system_one) : bool * ex_system_one :=
  if decide (hash ≠ c1) then (false, s)
  else
    let new_component := new_physics_component e in
    let new_component := data in
    (true, {| components := <[e := new_component]> (components s) |}).

Definition destroy (e : entity) (s : ex_system_one) : ex_system_one := s.
End defs.
End ExSystemOne.

Module ExSystemTwo.
Section defs.
Context `{MathCore} `{TypeIds}.

Record ex_system_two := { components : gmap entity render_component }.

Definition c2 : poly_typeid := typeid_render_component.

Definition create (e : entity) (hash : poly_typeid) (data : render_component)
    (s : ex_system_two) : bool * ex_system_two :=
  if decide (hash ≠ c2) then (false, s)
  else
    let new_component := new_render_component e in
    let new_component := data in
    (true, {| components := <[e := new_component]> (components s) |}).

Definition destroy (e : entity) (s : ex_system_two) : ex_system_two := s.
End defs.
End ExSystemTwo.

(** ** The transform system *)

Module TransformSystem.
Section defs.
Context `{MathCore} `{TypeIds}.

Record scene_graph_component := {
  sg_entity : entity;
  local_pose : Pose;
  local_scale : float3;
  parent : entity;
  children : list entity
}.

Record world_transform_component := {
  wt_entity : entity;
  world_pose : Pose
}.

(** [scene_graph_component(e)]; the default constructor passes
    [kInvalidEntity]. *)
Definition new_scene_graph_component (e : entity) : scene_graph_component :=
  {| sg_entity := e; local_pose := pose_default; local_scale := float3_default;
     parent := kInvalidEntity; children := [] |}.

Definition new_world_transform_component (e : entity) : world_transform_component :=
  {| wt_entity := e; world_pose := pose_default |}.

Definition default_node : scene_graph_component :=
  new_scene_graph_component kInvalidEntity.
Definition default_world : world_transform_component :=
  new_world_transform_component kInvalidEntity.

(** Field assignments through a reference into the table. *)
Definition set_local_pose (p : Pose) (n : scene_graph_component) :=
  {| sg_entity := sg_entity n; local_pose := p; local_scale := local_scale n;
     parent := parent n; children := children n |}.
Definition set_local_scale (sc : float3) (n : scene_graph_component) :=
  {| sg_entity := sg_entity n; local_pose := local_pose n; local_scale := sc;
     parent := parent n; children := children n |}.
Definition set_parent (p : entity) (n : scene_graph_component) :=
  {| sg_entity := sg_entity n; local_pose := local_pose n;
     local_scale := local_scale n; parent := p; children := children n |}.
Definition set_children (cs : list entity) (n : scene_graph_component) :=
  {| sg_entity := sg_entity n; local_pose := local_pose n;
     local_scale := local_scale n; parent := parent n; children := cs |}.
Definition set_world_pose (p : Pose) (w : world_transform_component) :=
  {| wt_entity := wt_entity w; world_pose := p |}.

Record transform_system := {
  scene_graph_transforms : gmap entity scene_graph_component;
  world_transforms : gmap entity world_transform_component
}.

Definition initial : transform_system :=
  {| scene_graph_transforms := ∅; world_transforms := ∅ |}.

(** What a public member function does: return a value, throw
    [std::invalid_argument] (the state at the throw is kept so that it
    can be compared with the state at the call), or not return. *)
Inductive outcome (A : Type) : Type :=
| Returns (a : A) (s : transform_system)
| Throws_invalid_argument (what : string) (s : transform_system)
| Out_of_fuel.
Global Arguments Returns {A} a s.
Global Arguments Throws_invalid_argument {A} what s.
Global Arguments Out_of_fuel {A}.

(** [for (auto & c : l) f(c);] *)
Fixpoint for_each {S : Type} (f : entity → S → option S)
    (l : list entity) (s : S) : option S :=
  match l with
  | [] => Some s
  | c :: l' =>
      match f c s with
      | Some s' => for_each f l' s'
      | None => None
      end
  end.

(** The same loop for a body that also reports the keys it erased. *)
Fixpoint for_each_traced {S : Type} (f : entity → S → option (list entity * S))
    (l : list entity) (s : S) : option (list entity * S) :=
  match l with
  | [] => Some ([], s)
  | c :: l' =>
      match f c s with
      | Some (t1, s1) =>
          match for_each_traced f l' s1 with
          | Some (t2, s2) => Some (t1 ++ t2, s2)
          | None => None
          end
      | None => None
      end
  end.

Fixpoint recalculate_world_transform (fuel : nat) (child : entity)
    (s : transform_system) : option transform_system :=
  match fuel with
  | O => None
  | S fuel' =>
      (* auto & node = scene_graph_transforms[child]; *)
      let sg1 := index default_node child (scene_graph_transforms s) in
      let node := at_key default_node child sg1 in
      (* auto & world_xform = world_transforms[child]; *)
      let wt1 := index default_world child (world_transforms s) in
      let '(sg2, pose) :=
        if decide (parent node ≠ kInvalidEntity) then
          (* auto & parent_node = scene_graph_transforms[node.parent]; *)
          let sg2 := index default_node (parent node) sg1 in
          let parent_node := at_key default_node (parent node) sg2 in
          (sg2, pose_mul (local_pose node) (local_pose parent_node))
        else (sg1, local_pose node) in
      let wt2 := alter (set_world_pose pose) child wt1 in
      for_each (recalculate_world_transform fuel') (children node)
        {| scene_graph_transforms := sg2; world_transforms := wt2 |}
  end.

(** Besides the new state, the keys passed to [erase], in the order of
    the calls. The loop reads the children list once, where the source
    iterates over the vector of the record: the same, unless the record
    is erased during its own loop, which takes a cycle, and then the
    recursion does not return ([destroy_recursive_keeps_cycles]). *)
Fixpoint destroy_recursive (fuel : nat) (child : entity)
    (s : transform_system) : option (list entity * transform_system) :=
  match fuel with
  | O => None
  | S fuel' =>
      let sg1 := index default_node child (scene_graph_transforms s) in
      let node := at_key default_node child sg1 in
      match for_each_traced (destroy_recursive fuel') (children node)
              {| scene_graph_transforms := sg1;
                 world_transforms := world_transforms s |} with
      | Some (erased, s1) =>
          Some (erased ++ [child],
                {| scene_graph_transforms := delete child (scene_graph_transforms s1);
                   world_transforms := delete child (world_transforms s1) |})
      | None => None
      end
  end.

(** [bool create(entity e, poly_typeid hash, void * data)] *)
Definition create_from_typeid {D : Type} (e : entity) (hash : poly_typeid)
    (data : D) (s : transform_system) : bool * transform_system :=
  (true, s).

(** [bool create(entity e, const Pose local_pose, const float3 local_scale)] *)
Definition create (fuel : nat) (e : entity) (lp : Pose) (ls : float3)
    (s : transform_system) : outcome bool :=
  let sg1 := <[e := new_scene_graph_component e]> (scene_graph_transforms s) in
  let sg2 := alter (set_local_pose lp) e (index default_node e sg1) in
  let sg3 := alter (set_local_scale ls) e (index default_node e sg2) in
  let wt1 := <[e := new_world_transform_component e]> (world_transforms s) in
  match recalculate_world_transform fuel e
          {| scene_graph_transforms := sg3; world_transforms := wt1 |} with
  | Some s' => Returns true s'
  | None => Out_of_fuel
  end.

Definition has_transform (e : entity) (s : transform_system) : bool :=
  match scene_graph_transforms s !! e with
  | Some _ => true
  | None => false
  end.

(** The table after the two assignments of [add_child]. *)
Definition link (p c : entity)
    (sg : gmap entity scene_graph_component) : gmap entity scene_graph_component :=
  let sg1 := index default_node p sg in
  let sg2 := alter (λ n, set_children (children n ++ [c]) n) p sg1 in
  let sg3 := index default_node c sg2 in
  alter (set_parent p) c sg3.

Definition add_child (fuel : nat) (p c : entity) (s : transform_system)
    : outcome bool :=
  if decide (p = kInvalidEntity) then Throws_invalid_argument "parent was invalid" s
  else if decide (c = kInvalidEntity) then Throws_invalid_argument "child was invalid" s
  else if negb (has_transform p s) then
    Throws_invalid_argument "parent has no transform component" s
  else if negb (has_transform c s) then
    Throws_invalid_argument "child has no transform component" s
  else
    match recalculate_world_transform fuel p
            {| scene_graph_transforms := link p c (scene_graph_transforms s);
               world_transforms := world_transforms s |} with
    | Some s' => Returns true s'
    | None => Out_of_fuel
    end.

(** The lookups return a pointer into the table, [None] being [nullptr]. *)
Definition get_local_transform (e : entity) (s : transform_system)
    : option scene_graph_component :=
  if decide (e = kInvalidEntity) then None
  else scene_graph_transforms s !! e.

Definition get_world_transform (e : entity) (s : transform_system)
    : option world_transform_component :=
  if decide (e = kInvalidEntity) then None
  else world_transforms s !! e.

Definition get_parent (c : entity) (s : transform_system) : entity :=
  if decide (c = kInvalidEntity) then kInvalidEntity
  else match scene_graph_transforms s !! c with
       | Some n =>
           if decide (parent n ≠ kInvalidEntity) then parent n else kInvalidEntity
       | None => kInvalidEntity
       end.

(** The table after the erase-remove and the assignment of
    [remove_parent], for a child whose parent is [p]. *)
Definition unlink (p c : entity)
    (sg : gmap entity scene_graph_component) : gmap entity scene_graph_component :=
  let sg1 := index default_node p sg in
  let sg2 :=
    alter (λ n, set_children (filter (λ x, x ≠ c) (children n)) n) p sg1 in
  alter (set_parent kInvalidEntity) c sg2.

Definition remove_parent (fuel : nat) (c : entity) (s : transform_system)
    : outcome unit :=
  let sg1 := index default_node c (scene_graph_transforms s) in
  let child_node := at_key default_node c sg1 in
  if decide (parent child_node ≠ kInvalidEntity) then
    match recalculate_world_transform fuel c
            {| scene_graph_transforms := unlink (parent child_node) c sg1;
               world_transforms := world_transforms s |} with
    | Some s' => Returns () s'
    | None => Out_of_fuel
    end
  else
    Returns () {| scene_graph_transforms := sg1;
                  world_transforms := world_transforms s |}.

Definition destroy (fuel : nat) (e : entity) (s : transform_system)
    : outcome unit :=
  if decide (e = kInvalidEntity) then Throws_invalid_argument "parent was invalid" s
  else if negb (has_transform e s) then
    Throws_invalid_argument "no component exists for this entity" s
  else
    match destroy_recursive fuel e s with
    | Some (_, s') => Returns () s'
    | None => Out_of_fuel
    end.
End defs.
End TransformSystem.

(** ** Vocabulary of the statements *)

Section vocabulary.
Context `{MathCore} `{TypeIds}.
Import TransformSystem.

Local Abbreviation sg_table := (gmap entity scene_graph_component).

(** What [sg[x]] denotes, whether or not the key is present. *)
Definition node_of (sg : sg_table) (x : entity) : scene_graph_component :=
  at_key default_node x sg.
Definition children_of (sg : sg_table) (x : entity) : list entity :=
  children (node_of sg x).
Definition parent_of (sg : sg_table) (x : entity) : entity :=
  parent (node_of sg x).

(** [x] is [e] or is found from [e] by following children lists. *)
Inductive reach (sg : sg_table) (e : entity) : entity → Prop :=
| reach_self : reach sg e e
| reach_child y c : reach sg e y → c ∈ children_of sg y → reach sg e c.

(** Every chain of children lists starting at [e] has fewer than [n]
    nodes: the hierarchy below [e] is finite and has no cycle. *)
Fixpoint bounded (n : nat) (sg : sg_table) (e : entity) : bool :=
  match n with
  | O => false
  | S k => forallb (bounded k sg) (children_of sg e)
  end.

(** The pose [recalculate_world_transform] assigns to [x]. *)
Definition expected_pose (sg : sg_table) (x : entity) : Pose :=
  let node := node_of sg x in
  if decide (parent node ≠ kInvalidEntity) then
    pose_mul (local_pose node) (local_pose (node_of sg (parent node)))
  else local_pose node.

Definition world_ok (s : transform_system) (x : entity) : Prop :=
  ∃ w, world_transforms s !! x = Some w
       ∧ world_pose w = expected_pose (scene_graph_transforms s) x.

(** The state in which [recalculate_world_transform] enters its loop over
    the children of [e]. *)
Definition visit (e : entity) (s : transform_system) : transform_system :=
  let sg := scene_graph_transforms s in
  let sg1 := index default_node e sg in
  {| scene_graph_transforms :=
       if decide (parent_of sg e ≠ kInvalidEntity)
       then index default_node (parent_of sg e) sg1 else sg1;
     world_transforms :=
       alter (set_world_pose (expected_pose sg e)) e
         (index default_world e (world_transforms s)) |}.

(** Two states whose scene-graph tables read the same through
    [operator[]]. *)
Definition same_nodes (s s' : transform_system) : Prop :=
  ∀ x, node_of (scene_graph_transforms s') x = node_of (scene_graph_transforms s) x.
(** The two steps of [destroy_recursive] around its loop. *)
Definition touch (e : entity) (s : transform_system) : transform_system :=
  {| scene_graph_transforms := index default_node e (scene_graph_transforms s);
     world_transforms := world_transforms s |}.
Definition erase (e : entity) (s : transform_system) : transform_system :=
  {| scene_graph_transforms := delete e (scene_graph_transforms s);
     world_transforms := delete e (world_transforms s) |}.

(** [s'] is [s] without the keys of [erased], in both tables. *)
Definition removed (erased : list entity) (s s' : transform_system) : Prop :=
  ∀ x,
    scene_graph_transforms s' !! x =
      (if decide (x ∈ erased) then None else scene_graph_transforms s !! x)
    ∧ world_transforms s' !! x =
      (if decide (x ∈ erased) then None else world_transforms s !! x).

(** In the sequence of erased keys, the children a node had in [s] come
    before the node. *)
Definition children_first (erased : list entity) (s : transform_system) : Prop :=
  ∀ x, x ∈ erased →
    ∃ l1 l2, erased = l1 ++ x :: l2
             ∧ ∀ c, c ∈ children_of (scene_graph_transforms s) x → c ∈ l1.

(** Every erased key is found from one of the [roots]. *)
Definition below (roots : list entity) (erased : list entity)
    (s : transform_system) : Prop :=
  ∀ x, x ∈ erased →
    ∃ c, c ∈ roots ∧ reach (scene_graph_transforms s) c x.

(** Every entity of [C] has a child in [C]: through each of them goes a
    chain of children lists that does not end. *)
Definition endless (C : entity → Prop) (s : transform_system) : Prop :=
  ∀ y, C y → ∃ y', C y' ∧ y' ∈ children_of (scene_graph_transforms s) y.

(** No children list of [s'] has an element that the list of the same
    key in [s] lacks. *)
Definition shrinks (s s' : transform_system) : Prop :=
  ∀ y c, c ∈ children_of (scene_graph_transforms s') y →
         c ∈ children_of (scene_graph_transforms s) y.
(** *** Sequences of calls *)

Inductive call : Type :=
| Create (e : entity) (lp : Pose) (ls : float3)
| Add_child (p c : entity)
| Remove_parent (c : entity)
| Destroy (e : entity).

(** The state a call returns in; a call that throws or does not return
    has none. *)
Definition returned {A : Type} (o : outcome A) : option transform_system :=
  match o with
  | Returns _ s' => Some s'
  | Throws_invalid_argument _ _ => None
  | Out_of_fuel => None
  end.

Definition run_call (fuel : nat) (k : call) (s : transform_system)
    : option transform_system :=
  match k with
  | Create e lp ls => returned (create fuel e lp ls s)
  | Add_child p c => returned (add_child fuel p c s)
  | Remove_parent c => returned (remove_parent fuel c s)
  | Destroy e => returned (destroy fuel e s)
  end.

(** The states of a transform system on which calls that returned were
    made, starting from a new one. *)
Inductive reachable : transform_system → Prop :=
| reachable_initial : reachable initial
| reachable_call s fuel k s' :
    reachable s → run_call fuel k s = Some s' → reachable s'.

(** A discipline of use: [create] on entities that have no record yet,
    [add_child] on children that have no parent, [destroy] on roots. *)
Definition permitted (k : call) (s : transform_system) : bool :=
  match k with
  | Create e _ _ => negb (has_transform e s)
  | Add_child _ c => bool_decide (get_parent c s = kInvalidEntity)
  | Remove_parent _ => true
  | Destroy e => bool_decide (get_parent e s = kInvalidEntity)
  end.

Inductive reachable_disciplined : transform_system → Prop :=
| disciplined_initial : reachable_disciplined initial
| disciplined_call s fuel k s' :
    reachable_disciplined s → permitted k s = true →
    run_call fuel k s = Some s' → reachable_disciplined s'.

(** The calls of a list, in order, each with the same fuel. *)
Fixpoint run_calls (fuel : nat) (ks : list call) (s : transform_system)
    : option transform_system :=
  match ks with
  | [] => Some s
  | k :: ks' =>
      match run_call fuel k s with
      | Some s' => run_calls fuel ks' s'
      | None => None
      end
  end.

Fixpoint run_permitted_calls (fuel : nat) (ks : list call) (s : transform_system)
    : option transform_system :=
  match ks with
  | [] => Some s
  | k :: ks' =>
      if permitted k s then
        match run_call fuel k s with
        | Some s' => run_permitted_calls fuel ks' s'
        | None => None
        end
      else None
  end.

(** How often [c] is in a children list. *)
Definition occurrences (c : entity) (l : list entity) : nat :=
  length (filter (λ x, x = c) l).

(** *** Consistency of the links *)

(** For the records of [c] and [p]: [c] is in the children list of [p]
    exactly when the parent reference of [c] is [p]. *)
Definition linked_iff (s : transform_system) (c p : entity) : Prop :=
  ∀ cn pn,
    scene_graph_transforms s !! c = Some cn →
    scene_graph_transforms s !! p = Some pn →
    (c ∈ children pn ↔ parent cn = p).

(** The invariant behind it, on what [operator[]] reads. *)
Definition links_consistent (sg : sg_table) : Prop :=
  (∀ p c, p ≠ kInvalidEntity → c ∈ children_of sg p →
          is_Some (sg !! c) ∧ parent_of sg c = p)
  ∧ (∀ c, parent_of sg c ≠ kInvalidEntity →
          is_Some (sg !! parent_of sg c) ∧ c ∈ children_of sg (parent_of sg c))
  ∧ children_of sg kInvalidEntity = [].

(** No key is read through [operator[]] without being present. *)
Definition closed (sg : sg_table) : Prop :=
  (∀ p c, c ∈ children_of sg p → is_Some (sg !! c))
  ∧ (∀ c, parent_of sg c ≠ kInvalidEntity → is_Some (sg !! parent_of sg c)).

(** The hierarchy has no cycle: some number bounds every chain of
    children lists. *)
Definition depth_bounded (s : transform_system) : Prop :=
  ∃ n, ∀ e, bounded n (scene_graph_transforms s) e = true.

(** Every key of the world-transform table is a key of the scene-graph
    table. *)
Definition world_within_scene_graph (s : transform_system) : Prop :=
  ∀ x, is_Some (world_transforms s !! x) → is_Some (scene_graph_transforms s !! x).

(** A root that has a world transform has its local pose as world pose. *)
Definition roots_in_world_space (s : transform_system) : Prop :=
  ∀ e w, world_transforms s !! e = Some w →
         parent_of (scene_graph_transforms s) e = kInvalidEntity →
         world_pose w = local_pose (node_of (scene_graph_transforms s) e).
End vocabulary.

(** ** A concrete instance

    Poses are words over [N] and the product is concatenation, so that a
    composed pose shows which poses went into it and in which order;
    type identities are numbers. *)

Definition example_math : MathCore :=
  {| Pose := list N; pose_mul := app; pose_default := [];
     float3 := N; float3_default := 0;
     float := N; float_default := 0 |}.

Definition example_typeids : TypeIds :=
  {| poly_typeid := N;
     typeid_physics_component := 1;
     typeid_render_component := 2 |}.

Section examples.
#[local] Existing Instance example_math.
#[local] Existing Instance example_typeids.
Import TransformSystem.

Definition example_node (e : entity) (lp : list N) (par : entity)
    (cs : list entity) : scene_graph_component :=
  {| sg_entity := e; local_pose := lp; local_scale := 1;
     parent := par; children := cs |}.

Definition example_world (e : entity) (wp : list N) : world_transform_component :=
  {| wt_entity := e; world_pose := wp |}.

(** Three entities, each created once. *)
Definition three_roots_calls : list call :=
  [Create 1 [10] 1; Create 2 [20] 1; Create 3 [30] 1].

Definition three_roots : transform_system :=
  {| scene_graph_transforms :=
       <[1 := example_node 1 [10] 0 []]>
         (<[2 := example_node 2 [20] 0 []]>
            (<[3 := example_node 3 [30] 0 []]> ∅));
     world_transforms :=
       <[1 := example_world 1 [10]]>
         (<[2 := example_world 2 [20]]>
            (<[3 := example_world 3 [30]]> ∅)) |}.

(** The scene of the sample program: a root with two children. *)
Definition scene_calls : list call :=
  three_roots_calls ++ [Add_child 1 2; Add_child 1 3].

Definition scene : transform_system :=
  {| scene_graph_transforms :=
       <[1 := example_node 1 [10] 0 [2; 3]]>
         (<[2 := example_node 2 [20] 1 []]>
            (<[3 := example_node 3 [30] 1 []]> ∅));
     world_transforms :=
       <[1 := example_world 1 [10]]>
         (<[2 := example_world 2 [20; 10]]>
            (<[3 := example_world 3 [30; 10]]> ∅)) |}.

(** Three levels: 3 under 2 under 1. *)
Definition three_levels_calls : list call :=
  three_roots_calls ++ [Add_child 2 3; Add_child 1 2].

Definition three_levels : transform_system :=
  {| scene_graph_transforms :=
       <[1 := example_node 1 [10] 0 [2]]>
         (<[2 := example_node 2 [20] 1 [3]]>
            (<[3 := example_node 3 [30] 2 []]> ∅));
     world_transforms :=
       <[1 := example_world 1 [10]]>
         (<[2 := example_world 2 [20; 10]]>
            (<[3 := example_world 3 [30; 20]]> ∅)) |}.

(** Entity 3 is given to a second parent. *)
Definition two_parents_calls : list call :=
  three_roots_calls ++ [Add_child 1 3; Add_child 2 3].

Definition two_parents : transform_system :=
  {| scene_graph_transforms :=
       <[1 := example_node 1 [10] 0 [3]]>
         (<[2 := example_node 2 [20] 0 [3]]>
            (<[3 := example_node 3 [30] 2 []]> ∅));
     world_transforms :=
       <[1 := example_world 1 [10]]>
         (<[2 := example_world 2 [20]]>
            (<[3 := example_world 3 [30; 20]]> ∅)) |}.

(** Entity 2 is created a second time while it is a child of 1. *)
Definition created_twice_calls : list call :=
  [Create 1 [10] 1; Create 2 [20] 1; Add_child 1 2; Create 2 [21] 1].

Definition created_twice : transform_system :=
  {| scene_graph_transforms :=
       <[1 := example_node 1 [10] 0 [2]]>
         (<[2 := example_node 2 [21] 0 []]> ∅);
     world_transforms :=
       <[1 := example_world 1 [10]]>
         (<[2 := example_world 2 [21]]> ∅) |}.

(** Entity 2 is destroyed while it is a child of 1, then 1 gets another
    child. *)
Definition destroyed_child_calls : list call :=
  three_roots_calls ++ [Add_child 1 2; Destroy 2; Add_child 1 3].

Definition destroyed_child : transform_system :=
  {| scene_graph_transforms :=
       <[1 := example_node 1 [10] 0 [2; 3]]>
         (<[2 := default_node]>
            (<[3 := example_node 3 [30] 1 []]> ∅));
     world_transforms :=
       <[1 := example_world 1 [10]]>
         (<[2 := default_world]>
            (<[3 := example_world 3 [30; 10]]> ∅)) |}.

(** The reserved identifier is given a record. *)
Definition invalid_created_calls : list call := [Create 0 [10] 1].

Definition invalid_created : transform_system :=
  {| scene_graph_transforms := <[0 := example_node 0 [10] 0 []]> ∅;
     world_transforms := <[0 := example_world 0 [10]]> ∅ |}.

(** A system type, and an entity manager in which a system at address 100
    is registered for it. *)
Definition example_system_type : poly_typeid := 5.

Definition example_manager : EntityManager.entity_manager :=
  EntityManager.add_system example_system_type 100 EntityManager.new.
End examples.

(** * Code around the transform system and the entity manager *)

(** ** More vocabulary for the transform system *)

Section more_vocabulary.
Context `{MathCore} `{TypeIds}.
Import TransformSystem.

(** Every world pose in the table is the one the recomputation rule
    gives for the present scene graph. *)
Definition world_consistent (s : transform_system) : Prop :=
  ∀ x w, world_transforms s !! x = Some w →
         world_pose w = expected_pose (scene_graph_transforms s) x.

(** The reserved identifier is in no children list. *)
Definition no_invalid_child (s : transform_system) : Prop :=
  ∀ x, kInvalidEntity ∉ children_of (scene_graph_transforms s) x.
End more_vocabulary.

(** ** Creation of systems

    [polymer-typeid.hpp] also gives the type identities of the systems
    and of the two components of the transform system. *)

Class SystemTypeIds `{TypeIds} := {
  typeid_ex_system_one : poly_typeid;
  typeid_ex_system_two : poly_typeid;
  typeid_transform_system : poly_typeid;
  typeid_scene_graph_component : poly_typeid;
  typeid_world_transform_component : poly_typeid
}.

Module Systems.
Section defs.
Context `{SystemTypeIds}.
Import EntityManager.

(** What the constructors do to the entity manager they are given:
    [register_system_for_type(this, type)] goes through [base_system] to
    [factory->register_system_for_type(get_typeid<S>(), type)]. *)
Definition construct_ex_system_one (m : entity_manager) : entity_manager :=
  register_system_for_type typeid_ex_system_one ExSystemOne.c1 m.

Definition construct_ex_system_two (m : entity_manager) : entity_manager :=
  register_system_for_type typeid_ex_system_two ExSystemTwo.c2 m.

Definition construct_transform_system (m : entity_manager) : entity_manager :=
  register_system_for_type typeid_transform_system typeid_world_transform_component
    (register_system_for_type typeid_transform_system typeid_scene_graph_component m).

(** [create_system<T>(args...)], called as in the sources with the
    manager itself as the argument of the constructor. [ptr] is the
    address [new] returns, [construct] the constructor of [T] and
    [system_type] is [get_typeid<T>()]. *)
Definition create_system (system_type : poly_typeid)
    (construct : entity_manager → entity_manager) (ptr : system_ptr)
    (m : entity_manager) : system_ptr * entity_manager :=
  let m1 := construct m in
  (ptr, add_system system_type ptr m1).
End defs.
End Systems.

(** ** The loop of the sample program

    [for i: rootEntity = factory.create(); xform_system->create(rootEntity, ...);
     for c: childEntity = factory.create(); xform_system->create(childEntity, ...);
            xform_system->add_child(rootEntity, childEntity);]
    for any number of roots and of children, the poses and scales being
    given (the program draws them at random). [None]: a call has thrown
    or has not returned. *)

Module SampleProgram.
Section defs.
Context `{MathCore} `{TypeIds}.
Import TransformSystem.

Definition world : Type := (EntityManager.entity_manager * transform_system)%type.

Definition spawn_child (fuel : nat) (root : entity) (ps : Pose * float3)
    (w : world) : option world :=
  let '(childEntity, m1) := EntityManager.create w.1 in
  match create fuel childEntity ps.1 ps.2 w.2 with
  | Returns _ t1 =>
      match add_child fuel root childEntity t1 with
      | Returns _ t2 => Some (m1, t2)
      | _ => None
      end
  | _ => None
  end.

Fixpoint spawn_children (fuel : nat) (root : entity) (children : list (Pose * float3))
    (w : world) : option world :=
  match children with
  | [] => Some w
  | ps :: rest =>
      match spawn_child fuel root ps w with
      | Some w1 => spawn_children fuel root rest w1
      | None => None
      end
  end.

Definition spawn_family (fuel : nat) (family : (Pose * float3) * list (Pose * float3))
    (w : world) : option world :=
  let '(rootEntity, m1) := EntityManager.create w.1 in
  match create fuel rootEntity family.1.1 family.1.2 w.2 with
  | Returns _ t1 => spawn_children fuel rootEntity family.2 (m1, t1)
  | _ => None
  end.

Fixpoint spawn_families (fuel : nat)
    (families : list ((Pose * float3) * list (Pose * float3)))
    (w : world) : option world :=
  match families with
  | [] => Some w
  | family :: rest =>
      match spawn_family fuel family w with
      | Some w1 => spawn_families fuel rest w1
      | None => None
      end
  end.

(** The number of identifiers a list of families takes. *)
Definition family_size (family : (Pose * float3) * list (Pose * float3)) : nat :=
  S (length family.2).

Definition families_size (families : list ((Pose * float3) * list (Pose * float3)))
    : nat :=
  sum_list (family_size <$> families).

(** The identifiers [first+1 .. first+k]. *)
Definition ids_after (first : entity) (k : nat) : list entity :=
  (λ i, first + N.of_nat i + 1) <$> seq 0 k.

(** No key of the transform system is above the counter of the entity
    manager, which is below the largest identifier. *)
Definition keys_allocated (w : world) : Prop :=
  ∀ x, is_Some (scene_graph_transforms w.2 !! x)
       ∨ is_Some (world_transforms w.2 !! x) →
       x ≤ EntityManager.entity_counter w.1.
End defs.
End SampleProgram.

(** ** The metallic-roughness material

    The shader of the compiled variant is an object of the renderer; a
    variant is kept as what [enabled] answers and the calls made on its
    shader so far. The types of the uniforms are those of [material.hpp],
    which is not among the sources; they are taken as given. The header
    also declares the integer type of [bindpoint]: it is kept as an
    integer, and the properties are stated where it stays between 0 and
    2^31. *)

Class MaterialTypes `{MathCore} := {
  float2 : Type;
  texcoord_scale : Type;
  (** [float2(texcoordScale)] *)
  float2_of_scale : texcoord_scale → float2
}.

Module Material.
Inductive texture_target : Type :=
| GL_TEXTURE_2D
| GL_TEXTURE_CUBE_MAP
| GL_TEXTURE_2D_ARRAY.

Section defs.
Context `{MaterialTypes}.

Inductive uniform_value : Type :=
| Float_value (x : float)
| Float2_value (v : float2)
| Float3_value (v : float3).

Inductive shader_call : Type :=
| Bind
| Unbind
| Uniform (name : string) (value : uniform_value)
| Texture (name : string) (unit : Z) (handle : N) (target : texture_target).

Record variant := {
  enabled : string → bool;
  shader_calls : list shader_call
}.

Definition call (c : shader_call) (v : variant) : variant :=
  {| enabled := enabled v; shader_calls := shader_calls v ++ [c] |}.

Record MetallicRoughnessMaterial := {
  bindpoint : Z;
  (** [nullptr] until [use] has compiled a variant *)
  compiled_variant : option variant;
  roughnessFactor : float;
  metallicFactor : float;
  opacity : float;
  baseAlbedo : float3;
  baseEmissive : float3;
  specularLevel : float;
  occlusionStrength : float;
  ambientStrength : float;
  emissiveStrength : float;
  shadowOpacity : float;
  texcoordScale : texcoord_scale;
  (** what [get()] gives for each texture handle *)
  albedo : N;
  normal : N;
  roughness : N;
  metallic : N;
  emissive : N;
  height : N;
  occlusion : N
}.

Definition with_variant (bp : Z) (v : variant) (m : MetallicRoughnessMaterial)
    : MetallicRoughnessMaterial :=
  {| bindpoint := bp; compiled_variant := Some v;
     roughnessFactor := roughnessFactor m; metallicFactor := metallicFactor m;
     opacity := opacity m; baseAlbedo := baseAlbedo m;
     baseEmissive := baseEmissive m; specularLevel := specularLevel m;
     occlusionStrength := occlusionStrength m;
     ambientStrength := ambientStrength m;
     emissiveStrength := emissiveStrength m; shadowOpacity := shadowOpacity m;
     texcoordScale := texcoordScale m;
     albedo := albedo m; normal := normal m; roughness := roughness m;
     metallic := metallic m; emissive := emissive m; height := height m;
     occlusion := occlusion m |}.

(** What a member function does: return, throw [std::runtime_error] (with
    the state at the throw), or dereference the null [compiled_variant]. *)
Inductive result : Type :=
| Done (m : MetallicRoughnessMaterial)
| Throws_runtime_error (what : string) (m : MetallicRoughnessMaterial)
| Null_dereference.

(** [if (compiled_variant->enabled(define))
       shader.texture(name, bindpoint++, handle, GL_TEXTURE_2D);] *)
Definition texture_if_enabled (define name : string) (handle : N)
    (st : Z * variant) : Z * variant :=
  if enabled st.2 define
  then (st.1 + 1, call (Texture name st.1 handle GL_TEXTURE_2D) st.2)%Z
  else st.

Definition update_uniforms (m : MetallicRoughnessMaterial) : result :=
  (* bindpoint = 0; *)
  let bp := 0%Z in
  match compiled_variant m with
  | None => Null_dereference
  | Some v =>
      let v := call Bind v in
      let v := call (Uniform "u_roughness" (Float_value (roughnessFactor m))) v in
      let v := call (Uniform "u_metallic" (Float_value (metallicFactor m))) v in
      let v := call (Uniform "u_opacity" (Float_value (opacity m))) v in
      let v := call (Uniform "u_albedo" (Float3_value (baseAlbedo m))) v in
      let v := call (Uniform "u_emissive" (Float3_value (baseEmissive m))) v in
      let v := call (Uniform "u_specularLevel" (Float_value (specularLevel m))) v in
      let v := call (Uniform "u_occlusionStrength"
                       (Float_value (occlusionStrength m))) v in
      let v := call (Uniform "u_ambientStrength"
                       (Float_value (ambientStrength m))) v in
      let v := call (Uniform "u_emissiveStrength"
                       (Float_value (emissiveStrength m))) v in
      let v := call (Uniform "u_shadowOpacity" (Float_value (shadowOpacity m))) v in
      let v := call (Uniform "u_texCoordScale"
                       (Float2_value (float2_of_scale (texcoordScale m)))) v in
      let st := (bp, v) in
      let st := texture_if_enabled "HAS_ALBEDO_MAP" "s_albedo" (albedo m) st in
      let st := texture_if_enabled "HAS_NORMAL_MAP" "s_normal" (normal m) st in
      let st := texture_if_enabled "HAS_ROUGHNESS_MAP" "s_roughness" (roughness m) st in
      let st := texture_if_enabled "HAS_METALNESS_MAP" "s_metallic" (metallic m) st in
      let st := texture_if_enabled "HAS_EMISSIVE_MAP" "s_emissive" (emissive m) st in
      let st := texture_if_enabled "HAS_HEIGHT_MAP" "s_height" (height m) st in
      let st := texture_if_enabled "HAS_OCCLUSION_MAP" "s_occlusion" (occlusion m) st in
      Done (with_variant st.1 (call Unbind st.2) m)
  end.

Definition update_uniforms_ibl (irradiance radiance : N)
    (m : MetallicRoughnessMaterial) : result :=
  match compiled_variant m with
  | None => Null_dereference
  | Some v =>
      if negb (enabled v "USE_IMAGE_BASED_LIGHTING") then
        Throws_runtime_error
          "should not be called unless USE_IMAGE_BASED_LIGHTING is defined." m
      else
        let bp := bindpoint m in
        let v := call Bind v in
        let v := call (Texture "sc_irradiance" bp irradiance GL_TEXTURE_CUBE_MAP) v in
        let v := call (Texture "sc_radiance" (bp + 1) radiance GL_TEXTURE_CUBE_MAP) v in
        Done (with_variant (bp + 2) (call Unbind v) m)
  end.

Definition update_uniforms_shadow (handle : N)
    (m : MetallicRoughnessMaterial) : result :=
  match compiled_variant m with
  | None => Null_dereference
  | Some v =>
      if negb (enabled v "ENABLE_SHADOWS") then
        Throws_runtime_error
          "should not be called unless ENABLE_SHADOWS is defined." m
      else
        let bp := bindpoint m in
        let v := call Bind v in
        let v := call (Texture "s_csmArray" bp handle GL_TEXTURE_2D_ARRAY) v in
        Done (with_variant (bp + 1) (call Unbind v) m)
  end.

(** The defines [use] asks a variant for. *)
Definition use_defines : list string :=
  ["TWO_CASCADES"; "USE_PCF_3X3"; "ENABLE_SHADOWS"; "USE_IMAGE_BASED_LIGHTING";
   "HAS_ROUGHNESS_MAP"; "HAS_METALNESS_MAP"; "HAS_ALBEDO_MAP"; "HAS_NORMAL_MAP";
   "HAS_OCCLUSION_MAP"].

(** [get_variant] is [shader.get()->get_variant], of the renderer. *)
Definition use (get_variant : list string → variant)
    (m : MetallicRoughnessMaterial) : MetallicRoughnessMaterial :=
  let v := match compiled_variant m with
           | None => get_variant use_defines
           | Some v => v
           end in
  with_variant (bindpoint m) (call Bind v) m.

(** The texture units of the [texture] calls of a list of calls. *)
Fixpoint texture_units (calls : list shader_call) : list Z :=
  match calls with
  | [] => []
  | Texture _ unit _ _ :: rest => unit :: texture_units rest
  | _ :: rest => texture_units rest
  end.

(** The sampler names of the [texture] calls, each with its unit. *)
Fixpoint texture_bindings (calls : list shader_call) : list (string * Z) :=
  match calls with
  | [] => []
  | Texture name unit _ _ :: rest => (name, unit) :: texture_bindings rest
  | _ :: rest => texture_bindings rest
  end.

(** The defines under which [update_uniforms] binds a texture. *)
Definition map_defines : list string :=
  ["HAS_ALBEDO_MAP"; "HAS_NORMAL_MAP"; "HAS_ROUGHNESS_MAP"; "HAS_METALNESS_MAP";
   "HAS_EMISSIVE_MAP"; "HAS_HEIGHT_MAP"; "HAS_OCCLUSION_MAP"].

Definition enabled_maps (v : variant) : nat :=
  length (filter (λ d, enabled v d = true) map_defines).

(** The units [first, first+1, ..., first+k-1]. *)
Definition units_from (first : Z) (k : nat) : list Z :=
  (λ i, (first + Z.of_nat i)%Z) <$> seq 0 k.
End defs.
End Material.

(** ** Vocabulary for the systems and the material *)

Section registry_vocabulary.
Context `{SystemTypeIds}.
Import EntityManager.

(** [m'] is [m] with [ptr] registered for [system_type] unless a system
    was registered for it, and the counter and the other registrations
    as they were. *)
Definition registered_first (system_type : poly_typeid) (ptr : system_ptr)
    (m m' : entity_manager) : Prop :=
  entity_counter m' = entity_counter m
  ∧ (systems m !! system_type = None → systems m' !! system_type = Some ptr)
  ∧ (∀ q, systems m !! system_type = Some q → systems m' !! system_type = Some q)
  ∧ (∀ t, t ≠ system_type → systems m' !! t = systems m !! t).
End registry_vocabulary.

Section material_vocabulary.
Context `{MaterialTypes}.
Import Material.

(** [update_uniforms_ibl], [j] times in a row. *)
Fixpoint repeat_update_uniforms_ibl (j : nat) (irradiance radiance : N)
    (m : MetallicRoughnessMaterial) : result :=
  match j with
  | O => Done m
  | S j' =>
      match update_uniforms_ibl irradiance radiance m with
      | Done m1 => repeat_update_uniforms_ibl j' irradiance radiance m1
      | other => other
      end
  end.
End material_vocabulary.

(** ** Concrete instances for the systems and the material *)

Definition example_system_typeids : @SystemTypeIds example_typeids :=
  {| typeid_ex_system_one := 11%N : @poly_typeid example_typeids;
     typeid_ex_system_two := 12%N : @poly_typeid example_typeids;
     typeid_transform_system := 13%N : @poly_typeid example_typeids;
     typeid_scene_graph_component := 14%N : @poly_typeid example_typeids;
     typeid_world_transform_component := 15%N : @poly_typeid example_typeids |}.

Definition example_material_types : @MaterialTypes example_math :=
  {| float2 := N; texcoord_scale := N; float2_of_scale := λ x, x |}.

Section more_examples.
#[local] Existing Instance example_math.
#[local] Existing Instance example_typeids.
#[local] Existing Instance example_system_typeids.
#[local] Existing Instance example_material_types.
Import Material.

(** A renderer whose variants enable the defines they were asked for. *)
Definition example_get_variant (defines : list string) : variant :=
  {| enabled := λ d, bool_decide (d ∈ defines); shader_calls := [] |}.

(** A material before its first [use], with texture handles 1 to 7. *)
Definition example_material : MetallicRoughnessMaterial :=
  {| bindpoint := 0; compiled_variant := None;
     roughnessFactor := 0; metallicFactor := 1; opacity := 1;
     baseAlbedo := 1; baseEmissive := 0; specularLevel := 0;
     occlusionStrength := 1; ambientStrength := 1; emissiveStrength := 1;
     shadowOpacity := 1; texcoordScale := 1;
     albedo := 1; normal := 2; roughness := 3; metallic := 4; emissive := 5;
     height := 6; occlusion := 7 |}.

Definition example_used_material : MetallicRoughnessMaterial :=
  use example_get_variant example_material.

(** A variant without image-based lighting and without shadows. *)
Definition example_plain_material : MetallicRoughnessMaterial :=
  with_variant 0 (example_get_variant ["HAS_ALBEDO_MAP"]) example_material.

(** Two families for the loop of the sample program: a root with two
    children and a root with one. *)
Definition example_families : list ((Pose * float3) * list (Pose * float3)) :=
  [(([40], 1), [([41], 1); ([42], 1)]); (([50], 1), [([51], 1)])].

(** The three roots after [add_child 1 2]. *)
Definition one_child : TransformSystem.transform_system :=
  {| TransformSystem.scene_graph_transforms :=
       <[1 := example_node 1 [10] 0 [2]]>
         (<[2 := example_node 2 [20] 1 []]>
            (<[3 := example_node 3 [30] 0 []]> ∅));
     TransformSystem.world_transforms :=
       <[1 := example_world 1 [10]]>
         (<[2 := example_world 2 [20; 10]]>
            (<[3 := example_world 3 [30]]> ∅)) |}.

(** The scene after [remove_parent 2]. *)
Definition scene_detached : TransformSystem.transform_system :=
  {| TransformSystem.scene_graph_transforms :=
       <[1 := example_node 1 [10] 0 [3]]>
         (<[2 := example_node 2 [20] 0 []]>
            (<[3 := example_node 3 [30] 1 []]> ∅));
     TransformSystem.world_transforms :=
       <[1 := example_world 1 [10]]>
         (<[2 := example_world 2 [20]]>
            (<[3 := example_world 3 [30; 10]]> ∅)) |}.

(** The entity manager after the three [create] calls of the scene. *)
Definition example_factory : EntityManager.entity_manager :=
  (EntityManager.create_many 3 EntityManager.new).2.
End more_examples.

Section sample_vocabulary.
Context `{MathCore} `{TypeIds}.
Import TransformSystem SampleProgram.

(** The family is in the tables of [t] with the identifier [root] for its
    root and the next ones for the children: the root has no parent and
    the children in the order of their creation, each child has the root
    as parent and no children, and the world poses are those of the
    recomputation rule. *)
Definition family_built (root : entity)
    (family : (Pose * float3) * list (Pose * float3))
    (t : transform_system) : Prop :=
  scene_graph_transforms t !! root
  = Some {| sg_entity := root; local_pose := family.1.1;
            local_scale := family.1.2; parent := kInvalidEntity;
            children := ids_after root (length family.2) |}
  ∧ world_transforms t !! root
    = Some {| wt_entity := root; world_pose := family.1.1 |}
  ∧ ∀ i ps, family.2 !! i = Some ps →
      scene_graph_transforms t !! (root + N.of_nat i + 1)
      = Some {| sg_entity := root + N.of_nat i + 1; local_pose := ps.1;
                local_scale := ps.2; parent := root; children := [] |}
      ∧ world_transforms t !! (root + N.of_nat i + 1)
        = Some {| wt_entity := root + N.of_nat i + 1;
                  world_pose := pose_mul ps.1 family.1.1 |}.

(** The entries of both tables under the keys up to [bound] are the
    same in [t] and [t']. *)
Definition unchanged_up_to (bound : entity) (t t' : transform_system) : Prop :=
  ∀ x : entity, x ≤ bound →
    scene_graph_transforms t' !! x = scene_graph_transforms t !! x
    ∧ world_transforms t' !! x = world_transforms t !! x.
End sample_vocabulary.

(** * Properties *)

(** ** [operator[]] *)

Section unordered_map_facts.
Context {K : Type} `{Countable K} {V : Type}.
Implicit Types (m : gmap K V) (k : K) (d : V).

Lemma lookup_index_eq d k m : index d k m !! k = Some (at_key d k m).
Proof.
  unfold index, at_key.
  destruct (m !! k) as [v|] eqn:E; simpl.
  - rewrite E. reflexivity.
  - apply lookup_insert_eq.
Qed.

Lemma lookup_index_ne d k k' m : k ≠ k' → index d k m !! k' = m !! k'.
Proof.
  intros Hne. unfold index.
  destruct (m !! k); [reflexivity|]. apply lookup_insert_ne. exact Hne.
Qed.

Lemma index_present d k m v : m !! k = Some v → index d k m = m.
Proof. intros E. unfold index. rewrite E. reflexivity. Qed.

Lemma index_absent d k m : m !! k = None → index d k m = <[k := d]> m.
Proof. intros E. unfold index. rewrite E. reflexivity. Qed.

Lemma at_key_index d k k' m : at_key d k' (index d k m) = at_key d k' m.
Proof.
  destruct (decide (k = k')) as [->|Hne].
  - unfold at_key at 1. rewrite lookup_index_eq. reflexivity.
  - unfold at_key. rewrite lookup_index_ne by exact Hne. reflexivity.
Qed.

Lemma at_key_present d k m v : m !! k = Some v → at_key d k m = v.
Proof. intros E. unfold at_key. rewrite E. reflexivity. Qed.

Lemma at_key_absent d k m : m !! k = None → at_key d k m = d.
Proof. intros E. unfold at_key. rewrite E. reflexivity. Qed.
End unordered_map_facts.

(** ** The loops *)

Section loops.
Import TransformSystem.
Context {S : Type}.

(** A relation between states that every call of the body establishes is
    established by the loop, when it is reflexive and transitive. *)
Lemma for_each_preorder (f : entity → S → option S) (R : S → S → Prop)
    (l : list entity) :
  (∀ s, R s s) →
  (∀ s1 s2 s3, R s1 s2 → R s2 s3 → R s1 s3) →
  (∀ c s s', c ∈ l → f c s = Some s' → R s s') →
  ∀ s s', for_each f l s = Some s' → R s s'.
Proof.
  intros Hrefl Htrans.
  induction l as [|c l IH]; intros Hf s s' Hrun; simpl in Hrun.
  - injection Hrun as <-. apply Hrefl.
  - destruct (f c s) as [s1|] eqn:E; [|discriminate].
    apply (Htrans s s1 s').
    + apply (Hf c); [left|exact E].
    + apply IH; [|exact Hrun].
      intros c' t t' Hin. apply Hf. right. exact Hin.
Qed.

(** A body that returns whenever another one does, with the same state. *)
Lemma for_each_mono (f g : entity → S → option S) (l : list entity) :
  (∀ c s s', f c s = Some s' → g c s = Some s') →
  ∀ s s', for_each f l s = Some s' → for_each g l s = Some s'.
Proof.
  intros Hfg. induction l as [|c l IH]; intros s s' Hrun; simpl in *; [exact Hrun|].
  destruct (f c s) as [s1|] eqn:E; [|discriminate].
  rewrite (Hfg c s s1 E). apply IH. exact Hrun.
Qed.

(** The loop returns when each call of the body returns from every state
    the loop can be in. *)
Lemma for_each_returns (f : entity → S → option S) (I : S → Prop)
    (l : list entity) :
  (∀ c s, c ∈ l → I s → ∃ s', f c s = Some s' ∧ I s') →
  ∀ s, I s → ∃ s', for_each f l s = Some s' ∧ I s'.
Proof.
  induction l as [|c l IH]; intros Hf s Hs; simpl.
  - exists s. split; [reflexivity|exact Hs].
  - destruct (Hf c s) as (s1 & E & Hs1); [left|exact Hs|].
    rewrite E. apply IH; [|exact Hs1].
    intros c' t Hin. apply Hf. right. exact Hin.
Qed.

(** The traced loop, for a property of (trace, state before, state after)
    that holds of the empty run and composes. *)
Lemma for_each_traced_compose (f : entity → S → option (list entity * S))
    (R : list entity → S → S → Prop) (l : list entity) :
  (∀ s, R [] s s) →
  (∀ t1 t2 s s1 s2, R t1 s s1 → R t2 s1 s2 → R (t1 ++ t2) s s2) →
  (∀ c s t s', c ∈ l → f c s = Some (t, s') → R t s s') →
  ∀ s t s', for_each_traced f l s = Some (t, s') → R t s s'.
Proof.
  intros Hnil Happ. induction l as [|c l IH]; intros Hf s t s' Hrun; simpl in Hrun.
  - injection Hrun as <- <-. apply Hnil.
  - destruct (f c s) as [[t1 s1]|] eqn:E; [|discriminate].
    destruct (for_each_traced f l s1) as [[t2 s2]|] eqn:E2; [|discriminate].
    injection Hrun as <- <-.
    eapply Happ.
    + apply (Hf c); [left|exact E].
    + apply IH; [|exact E2]. intros c' u u' v Hin. apply Hf. right. exact Hin.
Qed.

Lemma for_each_traced_mono (f g : entity → S → option (list entity * S))
    (l : list entity) :
  (∀ c s r, f c s = Some r → g c s = Some r) →
  ∀ s r, for_each_traced f l s = Some r → for_each_traced g l s = Some r.
Proof.
  intros Hfg. induction l as [|c l IH]; intros s r Hrun; simpl in *; [exact Hrun|].
  destruct (f c s) as [[t1 s1]|] eqn:E; [|discriminate].
  rewrite (Hfg c s _ E).
  destruct (for_each_traced f l s1) as [r2|] eqn:E2; [|discriminate].
  rewrite (IH s1 r2 E2). exact Hrun.
Qed.

Lemma for_each_traced_returns (f : entity → S → option (list entity * S))
    (I : S → Prop) (l : list entity) :
  (∀ c s, c ∈ l → I s → ∃ t s', f c s = Some (t, s') ∧ I s') →
  ∀ s, I s → ∃ t s', for_each_traced f l s = Some (t, s') ∧ I s'.
Proof.
  induction l as [|c l IH]; intros Hf s Hs; simpl.
  - exists [], s. split; [reflexivity|exact Hs].
  - destruct (Hf c s) as (t1 & s1 & E & Hs1); [left|exact Hs|].
    rewrite E.
    destruct (IH (λ c' u Hin, Hf c' u (list_elem_of_further _ _ _ Hin)) s1 Hs1)
      as (t2 & s2 & E2 & Hs2).
    rewrite E2. exists (t1 ++ t2), s2. split; [reflexivity|exact Hs2].
Qed.

(** When the body always erases the key it is called on, the trace of the
    loop has every element of the list. *)
Lemma for_each_traced_targets (f : entity → S → option (list entity * S))
    (l : list entity) :
  (∀ c s t s', c ∈ l → f c s = Some (t, s') → c ∈ t) →
  ∀ s t s', for_each_traced f l s = Some (t, s') → ∀ c, c ∈ l → c ∈ t.
Proof.
  induction l as [|c0 l IH]; intros Hf s t s' Hrun c Hin; simpl in Hrun.
  - inversion Hin.
  - destruct (f c0 s) as [[t1 s1]|] eqn:E; [|discriminate].
    destruct (for_each_traced f l s1) as [[t2 s2]|] eqn:E2; [|discriminate].
    injection Hrun as <- <-.
    apply elem_of_app. apply elem_of_cons in Hin as [->|Hin].
    + left. apply (Hf c0 s t1 s1); [left|exact E].
    + right. eapply IH; [|exact E2|exact Hin].
      intros c' u u' v Hin'. apply Hf. right. exact Hin'.
Qed.
End loops.

(** ** World-pose recomputation *)

Section recompute.
Context `{MathCore} `{TypeIds}.
Import TransformSystem.
Implicit Types (s : transform_system) (e x c : entity) (n : nat).

#[local] Instance same_nodes_refl : Reflexive same_nodes.
Proof. intros s x. reflexivity. Qed.

#[local] Instance same_nodes_trans : Transitive same_nodes.
Proof. intros s1 s2 s3 H12 H23 x. rewrite H23. apply H12. Qed.

Lemma recalculate_unfold n e s :
  recalculate_world_transform (S n) e s =
  for_each (recalculate_world_transform n)
    (children_of (scene_graph_transforms s) e) (visit e s).
Proof.
  simpl. unfold visit, expected_pose, children_of, parent_of, node_of.
  rewrite !at_key_index.
  destruct (decide (parent (at_key default_node e (scene_graph_transforms s))
                    ≠ kInvalidEntity)); rewrite ?at_key_index; reflexivity.
Qed.

Lemma visit_same_nodes e s : same_nodes s (visit e s).
Proof.
  intros x. unfold visit, node_of. simpl.
  destruct (decide _); rewrite ?at_key_index; reflexivity.
Qed.

Lemma same_nodes_children s s' x :
  same_nodes s s' →
  children_of (scene_graph_transforms s') x = children_of (scene_graph_transforms s) x.
Proof. intros Hs. unfold children_of. rewrite Hs. reflexivity. Qed.

Lemma same_nodes_expected s s' x :
  same_nodes s s' →
  expected_pose (scene_graph_transforms s') x = expected_pose (scene_graph_transforms s) x.
Proof. intros Hs. unfold expected_pose. rewrite !Hs. reflexivity. Qed.

Lemma visit_world_eq e s :
  ∃ w, world_transforms (visit e s) !! e = Some w
       ∧ world_pose w = expected_pose (scene_graph_transforms s) e.
Proof.
  unfold visit. simpl. rewrite lookup_alter_eq, lookup_index_eq. simpl.
  eexists. split; reflexivity.
Qed.

Lemma visit_world_ne e s x :
  e ≠ x → world_transforms (visit e s) !! x = world_transforms s !! x.
Proof.
  intros Hne. unfold visit. simpl.
  rewrite lookup_alter_ne by exact Hne. apply lookup_index_ne. exact Hne.
Qed.

Lemma recalculate_same_nodes n e s s' :
  recalculate_world_transform n e s = Some s' → same_nodes s s'.
Proof.
  revert e s s'. induction n as [|n IH]; intros e s s' Hrun.
  - discriminate.
  - rewrite recalculate_unfold in Hrun.
    transitivity (visit e s); [apply visit_same_nodes|].
    eapply (for_each_preorder _ same_nodes); [| | |exact Hrun].
    + apply same_nodes_refl.
    + apply same_nodes_trans.
    + intros c t t' _. apply IH.
Qed.

Lemma bounded_spec n sg e :
  bounded (S n) sg e = true ↔ ∀ c, c ∈ children_of sg e → bounded n sg c = true.
Proof.
  simpl. rewrite forallb_forall. split; intros Hb c Hc; apply Hb.
  - apply list_elem_of_In. exact Hc.
  - apply list_elem_of_In. exact Hc.
Qed.

(** Shrinking children lists keeps a hierarchy bounded. *)
Lemma bounded_sub n sg sg' e :
  (∀ x c, c ∈ children_of sg' x → c ∈ children_of sg x) →
  bounded n sg e = true → bounded n sg' e = true.
Proof.
  intros Hsub. revert e. induction n as [|n IH]; intros e Hb; [discriminate|].
  apply bounded_spec. intros c Hc.
  apply IH. apply (proj1 (bounded_spec n sg e) Hb). apply Hsub. exact Hc.
Qed.

Lemma bounded_same_nodes n s s' e :
  same_nodes s s' →
  bounded n (scene_graph_transforms s) e = true →
  bounded n (scene_graph_transforms s') e = true.
Proof.
  intros Hs. apply bounded_sub. intros x c.
  rewrite (same_nodes_children s s' x Hs). tauto.
Qed.

Lemma bounded_more n sg e : bounded n sg e = true → bounded (S n) sg e = true.
Proof.
  revert e. induction n as [|n IH]; intros e Hb; [discriminate|].
  apply bounded_spec. intros c Hc. apply IH.
  apply (proj1 (bounded_spec n sg e) Hb). exact Hc.
Qed.

Lemma reach_trans sg e y x : reach sg e y → reach sg y x → reach sg e x.
Proof.
  intros Hey Hyx. induction Hyx as [|z c _ IH Hc]; [exact Hey|].
  eapply reach_child; [exact IH|exact Hc].
Qed.

Lemma reach_inv sg e x :
  reach sg e x → x = e ∨ ∃ c, c ∈ children_of sg e ∧ reach sg c x.
Proof.
  induction 1 as [|y c Hy IH Hc]; [left; reflexivity|].
  right. destruct IH as [->|(c0 & Hc0 & Hr)].
  - exists c. split; [exact Hc|apply reach_self].
  - exists c0. split; [exact Hc0|]. eapply reach_child; [exact Hr|exact Hc].
Qed.

Lemma reach_same_nodes s s' e x :
  same_nodes s s' →
  reach (scene_graph_transforms s) e x → reach (scene_graph_transforms s') e x.
Proof.
  intros Hs. induction 1 as [|y c _ IH Hc]; [apply reach_self|].
  eapply reach_child; [exact IH|].
  rewrite (same_nodes_children s s' y Hs). exact Hc.
Qed.

Lemma reach_shrinks_same s s' e x :
  same_nodes s s' →
  reach (scene_graph_transforms s') e x → reach (scene_graph_transforms s) e x.
Proof.
  intros Hs. induction 1 as [|y c _ IH Hc]; [apply reach_self|].
  eapply reach_child; [exact IH|].
  rewrite <- (same_nodes_children s s' y Hs). exact Hc.
Qed.

Lemma reach_child_first sg e c x :
  c ∈ children_of sg e → reach sg c x → reach sg e x.
Proof.
  intros Hc Hr. eapply reach_trans; [|exact Hr].
  eapply reach_child; [apply reach_self|exact Hc].
Qed.

Lemma world_ok_visit e s x : world_ok s x → world_ok (visit e s) x.
Proof.
  intros (w & Hw & Hp). unfold world_ok.
  rewrite (same_nodes_expected s (visit e s) x (visit_same_nodes e s)).
  destruct (decide (e = x)) as [->|Hne].
  - apply visit_world_eq.
  - exists w. rewrite visit_world_ne by exact Hne. split; assumption.
Qed.

Lemma world_ok_visit_self e s : world_ok (visit e s) e.
Proof.
  unfold world_ok.
  rewrite (same_nodes_expected s (visit e s) e (visit_same_nodes e s)).
  apply visit_world_eq.
Qed.

(** A recomputation never spoils an entry that agrees with the rule. *)
Lemma recalculate_keeps_world_ok n e s s' :
  recalculate_world_transform n e s = Some s' →
  ∀ x, world_ok s x → world_ok s' x.
Proof.
  revert e s s'. induction n as [|n IH]; intros e s s' Hrun; [discriminate|].
  rewrite recalculate_unfold in Hrun.
  intros x Hx. apply (world_ok_visit e) in Hx. revert x Hx.
  eapply (for_each_preorder _ (λ t t', ∀ x, world_ok t x → world_ok t' x));
    [| | |exact Hrun].
  - intros t x Hx. exact Hx.
  - intros t1 t2 t3 H12 H23 x Hx. apply H23, H12, Hx.
  - intros c t t' _ Hc. exact (IH c t t' Hc).
Qed.

Lemma for_each_recalculate_keeps_world_ok n l s s' :
  for_each (recalculate_world_transform n) l s = Some s' →
  ∀ x, world_ok s x → world_ok s' x.
Proof.
  apply (for_each_preorder _ (λ t t', ∀ x, world_ok t x → world_ok t' x)).
  - intros t x Hx. exact Hx.
  - intros t1 t2 t3 H12 H23 x Hx. apply H23, H12, Hx.
  - intros c t t' _ Hc. exact (recalculate_keeps_world_ok n c t t' Hc).
Qed.

Lemma for_each_recalculate_reach n l s s' :
  (∀ e t t', recalculate_world_transform n e t = Some t' →
             ∀ x, reach (scene_graph_transforms t) e x → world_ok t' x) →
  for_each (recalculate_world_transform n) l s = Some s' →
  ∀ c x, c ∈ l → reach (scene_graph_transforms s) c x → world_ok s' x.
Proof.
  intros IH. revert s. induction l as [|c0 l IHl]; intros s Hrun c x Hin Hr.
  - inversion Hin.
  - simpl in Hrun.
    destruct (recalculate_world_transform n c0 s) as [s1|] eqn:E; [|discriminate].
    pose proof (for_each_recalculate_keeps_world_ok n l s1 s' Hrun) as Hkeep.
    apply elem_of_cons in Hin as [->|Hin].
    + apply Hkeep. eapply IH; [exact E|exact Hr].
    + eapply IHl; [exact Hrun|exact Hin|].
      eapply reach_same_nodes; [|exact Hr].
      eapply recalculate_same_nodes. exact E.
Qed.

(** Every node the recomputation reaches ends with the pose of the rule. *)
Lemma recalculate_reach_world_ok n e s s' :
  recalculate_world_transform n e s = Some s' →
  ∀ x, reach (scene_graph_transforms s) e x → world_ok s' x.
Proof.
  revert e s s'. induction n as [|n IH]; intros e s s' Hrun x Hr; [discriminate|].
  rewrite recalculate_unfold in Hrun.
  apply reach_inv in Hr as [->|(c & Hc & Hr)].
  - eapply for_each_recalculate_keeps_world_ok; [exact Hrun|].
    apply world_ok_visit_self.
  - eapply for_each_recalculate_reach; [exact IH|exact Hrun|exact Hc|].
    eapply reach_same_nodes; [apply visit_same_nodes|exact Hr].
Qed.

(** The recomputation returns on a bounded hierarchy. *)
Lemma recalculate_returns n e s :
  bounded n (scene_graph_transforms s) e = true →
  ∃ s', recalculate_world_transform n e s = Some s'.
Proof.
  revert e s. induction n as [|n IH]; intros e s Hb; [discriminate|].
  rewrite recalculate_unfold.
  destruct (for_each_returns (recalculate_world_transform n) (same_nodes s)
              (children_of (scene_graph_transforms s) e)) with (s := visit e s)
    as (s' & Hs' & _).
  - intros c t Hc Ht.
    destruct (IH c t) as [t' Ht'].
    { eapply bounded_same_nodes; [exact Ht|].
      apply (proj1 (bounded_spec n _ e) Hb). exact Hc. }
    exists t'. split; [exact Ht'|].
    transitivity t; [exact Ht|]. eapply recalculate_same_nodes. exact Ht'.
  - apply visit_same_nodes.
  - exists s'. exact Hs'.
Qed.

Lemma index_keeps {V} (d : V) (k x : entity) (m : gmap entity V) v :
  m !! x = Some v → index d k m !! x = Some v.
Proof.
  intros E. destruct (decide (k = x)) as [->|Hne].
  - rewrite lookup_index_eq, (at_key_present d x m v E). reflexivity.
  - rewrite lookup_index_ne by exact Hne. exact E.
Qed.

Lemma visit_keeps_records e s x v :
  scene_graph_transforms s !! x = Some v →
  scene_graph_transforms (visit e s) !! x = Some v.
Proof.
  intros E. unfold visit. simpl.
  destruct (decide _); repeat apply index_keeps; exact E.
Qed.

(** A recomputation adds records to the scene-graph table, it changes
    none. *)
Lemma recalculate_keeps_records n e s s' :
  recalculate_world_transform n e s = Some s' →
  ∀ x v, scene_graph_transforms s !! x = Some v →
         scene_graph_transforms s' !! x = Some v.
Proof.
  revert e s s'. induction n as [|n IH]; intros e s s' Hrun; [discriminate|].
  rewrite recalculate_unfold in Hrun.
  intros x v E. apply (visit_keeps_records e) in E. revert x v E.
  eapply (for_each_preorder _
            (λ t t', ∀ x v, scene_graph_transforms t !! x = Some v →
                            scene_graph_transforms t' !! x = Some v));
    [| | |exact Hrun].
  - intros t x v E. exact E.
  - intros t1 t2 t3 H12 H23 x v E. apply H23, H12, E.
  - intros c t t' _ Hc. exact (IH c t t' Hc).
Qed.

Lemma for_each_recalculate_frame n l s s' :
  (∀ e t t', recalculate_world_transform n e t = Some t' →
             ∀ y, reach (scene_graph_transforms t) e y
                  ∨ world_transforms t' !! y = world_transforms t !! y) →
  for_each (recalculate_world_transform n) l s = Some s' →
  ∀ y, (∃ c, c ∈ l ∧ reach (scene_graph_transforms s) c y)
       ∨ world_transforms s' !! y = world_transforms s !! y.
Proof.
  intros IH. revert s. induction l as [|c0 l IHl]; intros s Hrun y; simpl in Hrun.
  - injection Hrun as <-. right. reflexivity.
  - destruct (recalculate_world_transform n c0 s) as [s1|] eqn:E; [|discriminate].
    destruct (IH c0 s s1 E y) as [Hr|Hsame].
    { left. exists c0. split; [left|exact Hr]. }
    destruct (IHl s1 Hrun y) as [(c & Hc & Hr)|Hsame'].
    + left. exists c. split; [right; exact Hc|].
      eapply reach_shrinks_same; [|exact Hr].
      eapply recalculate_same_nodes. exact E.
    + right. rewrite Hsame'. exact Hsame.
Qed.

(** A recomputation writes no world pose outside the hierarchy below its
    argument. *)
Lemma recalculate_frame n e s s' :
  recalculate_world_transform n e s = Some s' →
  ∀ y, reach (scene_graph_transforms s) e y
       ∨ world_transforms s' !! y = world_transforms s !! y.
Proof.
  revert e s s'. induction n as [|n IH]; intros e s s' Hrun y; [discriminate|].
  rewrite recalculate_unfold in Hrun.
  destruct (decide (e = y)) as [->|Hne]; [left; apply reach_self|].
  destruct (for_each_recalculate_frame n _ _ _ IH Hrun y) as [(c & Hc & Hr)|Hsame].
  - left. eapply reach_child_first; [exact Hc|].
    eapply reach_shrinks_same; [apply visit_same_nodes|exact Hr].
  - right. rewrite Hsame. apply visit_world_ne. exact Hne.
Qed.
End recompute.

(** ** Recursive destruction *)

Section destruction.
Context `{MathCore} `{TypeIds}.
Import TransformSystem.
Implicit Types (s : transform_system) (e x c : entity) (n : nat).

Lemma destroy_unfold n e s :
  destroy_recursive (S n) e s =
  match for_each_traced (destroy_recursive n)
          (children_of (scene_graph_transforms s) e) (touch e s) with
  | Some (t, s1) => Some (t ++ [e], erase e s1)
  | None => None
  end.
Proof.
  simpl. unfold children_of, node_of. rewrite at_key_index. reflexivity.
Qed.

Lemma touch_same_nodes e s : same_nodes s (touch e s).
Proof. intros x. unfold touch, node_of. simpl. apply at_key_index. Qed.

Lemma removed_nil s : removed [] s s.
Proof.
  intros x. destruct (decide (x ∈ [])) as [Hin|_]; [inversion Hin|].
  split; reflexivity.
Qed.

Lemma removed_app t1 t2 s s1 s2 :
  removed t1 s s1 → removed t2 s1 s2 → removed (t1 ++ t2) s s2.
Proof.
  intros H1 H2 x. destruct (H1 x) as [H1a H1b], (H2 x) as [H2a H2b].
  rewrite H2a, H2b, H1a, H1b.
  destruct (decide (x ∈ t2)) as [In2|Out2], (decide (x ∈ t1)) as [In1|Out1],
    (decide (x ∈ t1 ++ t2)) as [In|Out];
    try (split; reflexivity); exfalso.
  all: rewrite elem_of_app in *; tauto.
Qed.

Lemma removed_outside t s s' x :
  removed t s s' → x ∉ t →
  node_of (scene_graph_transforms s') x = node_of (scene_graph_transforms s) x.
Proof.
  intros Hr Hout. unfold node_of, at_key. rewrite (proj1 (Hr x)).
  destruct (decide (x ∈ t)); [contradiction|reflexivity].
Qed.

Lemma removed_shrinks t s s' : removed t s s' → shrinks s s'.
Proof.
  intros Hr y c. unfold children_of.
  destruct (decide (y ∈ t)) as [Hin|Hout].
  - unfold node_of, at_key. rewrite (proj1 (Hr y)).
    destruct (decide (y ∈ t)); [|contradiction]. simpl. inversion 1.
  - rewrite (removed_outside t s s' y Hr Hout). tauto.
Qed.

#[local] Instance shrinks_refl : Reflexive shrinks.
Proof. intros s y c Hc. exact Hc. Qed.

#[local] Instance shrinks_trans : Transitive shrinks.
Proof. intros s1 s2 s3 H12 H23 y c Hc. apply H12, H23, Hc. Qed.

Lemma same_nodes_shrinks s s' : same_nodes s s' → shrinks s s'.
Proof. intros Hs y c. rewrite (same_nodes_children s s' y Hs). tauto. Qed.

Lemma reach_shrinks s s' e x :
  shrinks s s' →
  reach (scene_graph_transforms s') e x → reach (scene_graph_transforms s) e x.
Proof.
  intros Hs. induction 1 as [|y c _ IH Hc]; [apply reach_self|].
  eapply reach_child; [exact IH|]. apply Hs. exact Hc.
Qed.

(** The key a call is made on is the last one it erases. *)
Lemma destroy_target n e s t s' :
  destroy_recursive n e s = Some (t, s') → e ∈ t.
Proof.
  destruct n as [|n]; [discriminate|]. rewrite destroy_unfold.
  destruct (for_each_traced _ _ _) as [[t0 s0]|]; [|discriminate].
  intros [= <- <-]. apply elem_of_app. right. left.
Qed.

Lemma children_first_app t1 t2 s s1 :
  removed t1 s s1 → children_first t1 s → children_first t2 s1 →
  children_first (t1 ++ t2) s.
Proof.
  intros Hr H1 H2 x Hx.
  destruct (decide (x ∈ t1)) as [In1|Out1].
  - destruct (H1 x In1) as (l1 & l2 & -> & Hc).
    exists l1, (l2 ++ t2). split; [|exact Hc].
    rewrite <- app_assoc. reflexivity.
  - apply elem_of_app in Hx as [In1|In2]; [contradiction|].
    destruct (H2 x In2) as (l1 & l2 & -> & Hc).
    exists (t1 ++ l1), l2. split; [apply app_assoc|].
    intros c Hcx. apply elem_of_app. right. apply Hc.
    unfold children_of. rewrite (removed_outside t1 s s1 x Hr Out1). exact Hcx.
Qed.

Lemma below_app roots t1 t2 s s1 :
  removed t1 s s1 → below roots t1 s → below roots t2 s1 →
  below roots (t1 ++ t2) s.
Proof.
  intros Hr H1 H2 x Hx. apply elem_of_app in Hx as [In1|In2].
  - apply H1. exact In1.
  - destruct (H2 x In2) as (c & Hc & Hreach). exists c. split; [exact Hc|].
    eapply reach_shrinks; [|exact Hreach]. eapply removed_shrinks. exact Hr.
Qed.

(** What one call of [destroy_recursive] does. *)
Lemma destroy_recursive_spec n e s t s' :
  destroy_recursive n e s = Some (t, s') →
  removed t s s' ∧ children_first t s ∧ below [e] t s.
Proof.
  revert e s t s'. induction n as [|n IH]; intros e s t s' Hrun; [discriminate|].
  rewrite destroy_unfold in Hrun.
  set (l := children_of (scene_graph_transforms s) e) in *.
  destruct (for_each_traced (destroy_recursive n) l (touch e s))
    as [[t0 s0]|] eqn:Eloop; [|discriminate].
  injection Hrun as <- <-.
  assert (Hloop : removed t0 (touch e s) s0 ∧ children_first t0 (touch e s)
                  ∧ below l t0 (touch e s)).
  { eapply (for_each_traced_compose (destroy_recursive n)
              (λ t u u', removed t u u' ∧ children_first t u ∧ below l t u));
      [| | |exact Eloop].
    - intros u. split; [apply removed_nil|]. split; intros x Hx; inversion Hx.
    - intros t1 t2 u u1 u2 (Hr1 & Hc1 & Hb1) (Hr2 & Hc2 & Hb2).
      split; [eapply removed_app; eassumption|].
      split; [eapply children_first_app; eassumption|].
      eapply below_app; eassumption.
    - intros c u t1 u' Hc Hcall.
      destruct (IH c u t1 u' Hcall) as (Hr & Hcf & Hb).
      split; [exact Hr|]. split; [exact Hcf|].
      intros x Hx. destruct (Hb x Hx) as (c' & Hc' & Hreach).
      apply list_elem_of_singleton in Hc' as ->. exists c. split; assumption. }
  destruct Hloop as (Hr & Hcf & Hb).
  assert (Htargets : ∀ c, c ∈ l → c ∈ t0).
  { eapply for_each_traced_targets; [|exact Eloop].
    intros c u t1 u' _. apply destroy_target. }
  split; [|split].
  - intros x. unfold erase. simpl.
    destruct (Hr x) as [Hsg Hwt]. unfold touch in Hsg, Hwt. simpl in Hsg, Hwt.
    destruct (decide (x = e)) as [->|Hne].
    + rewrite !lookup_delete_eq.
      destruct (decide (e ∈ t0 ++ [e])) as [_|Hout]; [split; reflexivity|].
      exfalso. apply Hout, elem_of_app. right. left.
    + rewrite !lookup_delete_ne by congruence. rewrite Hsg, Hwt.
      rewrite lookup_index_ne by congruence.
      destruct (decide (x ∈ t0)) as [Hin|Hout],
        (decide (x ∈ t0 ++ [e])) as [Hin'|Hout']; try (split; reflexivity).
      * exfalso. apply Hout', elem_of_app. left. exact Hin.
      * exfalso. apply elem_of_app in Hin' as [Hin'|Hin']; [contradiction|].
        apply list_elem_of_singleton in Hin'. contradiction.
  - intros x Hx. destruct (decide (x ∈ t0)) as [Hin|Hout].
    + destruct (Hcf x Hin) as (l1 & l2 & -> & Hc).
      exists l1, (l2 ++ [e]). split; [rewrite <- app_assoc; reflexivity|].
      intros c Hcx. apply Hc.
      rewrite (same_nodes_children s (touch e s) x (touch_same_nodes e s)).
      exact Hcx.
    + apply elem_of_app in Hx as [Hin|Hx]; [contradiction|].
      apply list_elem_of_singleton in Hx as ->.
      exists t0, []. split; [reflexivity|]. exact Htargets.
  - intros x Hx. exists e. split; [left|].
    apply elem_of_app in Hx as [Hin|Hx].
    + destruct (Hb x Hin) as (c & Hc & Hreach).
      eapply reach_child_first; [exact Hc|].
      eapply reach_shrinks; [|exact Hreach].
      apply same_nodes_shrinks, touch_same_nodes.
    + apply list_elem_of_singleton in Hx as ->. apply reach_self.
Qed.

(** A destruction that returns has erased no entity of an endless set. *)
Lemma destroy_recursive_keeps_cycles n e s t s' :
  destroy_recursive n e s = Some (t, s') →
  ∀ C, endless C s → ∀ x, x ∈ t → ¬ C x.
Proof.
  revert e s t s'. induction n as [|n IH]; intros e s t s' Hrun; [discriminate|].
  rewrite destroy_unfold in Hrun.
  set (l := children_of (scene_graph_transforms s) e) in *.
  destruct (for_each_traced (destroy_recursive n) l (touch e s))
    as [[t0 s0]|] eqn:Eloop; [|discriminate].
  injection Hrun as <- <-.
  assert (Hloop : removed t0 (touch e s) s0
                  ∧ ∀ C, endless C (touch e s) → ∀ x, x ∈ t0 → ¬ C x).
  { eapply (for_each_traced_compose (destroy_recursive n)
              (λ t u u', removed t u u'
                         ∧ ∀ C, endless C u → ∀ x, x ∈ t → ¬ C x));
      [| | |exact Eloop].
    - intros u. split; [apply removed_nil|]. intros C _ x Hx. inversion Hx.
    - intros t1 t2 u u1 u2 (Hr1 & Hc1) (Hr2 & Hc2).
      split; [eapply removed_app; eassumption|].
      intros C HC x Hx. apply elem_of_app in Hx as [Hx|Hx]; [eapply Hc1; eassumption|].
      apply (Hc2 C); [|exact Hx].
      intros y Hy. destruct (HC y Hy) as (y' & Hy' & Hin). exists y'.
      split; [exact Hy'|]. unfold children_of.
      rewrite (removed_outside t1 u u1 y Hr1); [exact Hin|].
      intros Hyt. exact (Hc1 C HC y Hyt Hy).
    - intros c u t1 u' _ Hcall. split.
      + eapply destroy_recursive_spec. exact Hcall.
      + eapply IH. exact Hcall. }
  destruct Hloop as (Hr & Hkeep).
  intros C HC x Hx HCx.
  assert (HC' : endless C (touch e s)).
  { intros y Hy. destruct (HC y Hy) as (y' & Hy' & Hin). exists y'.
    split; [exact Hy'|].
    rewrite (same_nodes_children s (touch e s) y (touch_same_nodes e s)).
    exact Hin. }
  apply elem_of_app in Hx as [Hx|Hx]; [exact (Hkeep C HC' x Hx HCx)|].
  apply list_elem_of_singleton in Hx as ->.
  destruct (HC e HCx) as (c & Hc & Hin).
  apply (Hkeep C HC' c); [|exact Hc].
  eapply for_each_traced_targets; [|exact Eloop|exact Hin].
  intros c' u t1 u' _. apply destroy_target.
Qed.

(** In a destruction that returns, the record a call works on is erased
    by that call only, after its loop. *)
Lemma destroy_recursive_erases_last n e s t s' :
  destroy_recursive n e s = Some (t, s') →
  ∃ t0, t = t0 ++ [e] ∧ e ∉ t0.
Proof.
  intros Hrun. pose proof Hrun as Hrun'.
  destruct n as [|n]; [discriminate|]. rewrite destroy_unfold in Hrun'.
  destruct (for_each_traced _ _ _) as [[t0 s0]|] eqn:Eloop; [|discriminate].
  injection Hrun' as <- <-. exists t0. split; [reflexivity|]. intros Hin.
  destruct (for_each_traced_compose (destroy_recursive n)
              (λ t u u', removed t u u'
                         ∧ below (children_of (scene_graph_transforms s) e) t u)
              (children_of (scene_graph_transforms s) e))
    with (s := touch e s) (t := t0) (s' := s0) as [_ Hbelow].
  - intros u. split; [apply removed_nil|]. intros x Hx. inversion Hx.
  - intros t1 t2 u u1 u2 (Hr1 & Hb1) (Hr2 & Hb2).
    split; [eapply removed_app; eassumption|]. eapply below_app; eassumption.
  - intros c u t1 u' Hc Hcall.
    destruct (destroy_recursive_spec n c u t1 u' Hcall) as (Hr & _ & Hb).
    split; [exact Hr|]. intros x Hx. destruct (Hb x Hx) as (c' & Hc' & Hreach).
    apply list_elem_of_singleton in Hc' as ->. eauto.
  - exact Eloop.
  - destruct (Hbelow e Hin) as (c & Hc & Hreach).
    apply (reach_shrinks s (touch e s)) in Hreach;
      [|apply same_nodes_shrinks, touch_same_nodes].
    apply (destroy_recursive_keeps_cycles _ _ _ _ _ Hrun
             (λ y, reach (scene_graph_transforms s) e y
                   ∧ reach (scene_graph_transforms s) y e) ) with (x := e).
    + intros y [Hey Hye]. apply reach_inv in Hye as [->|(y' & Hy' & Hrest)].
      * exists c. split; [|exact Hc]. split; [|exact Hreach].
        eapply reach_child; [apply reach_self|exact Hc].
      * exists y'. split; [|exact Hy']. split; [|exact Hrest].
        eapply reach_child; [exact Hey|exact Hy'].
    + eapply destroy_target. exact Hrun.
    + split; apply reach_self.
Qed.

(** Everything found from [e] is erased. *)
Lemma destroy_recursive_covers n e s t s' :
  destroy_recursive n e s = Some (t, s') →
  ∀ x, reach (scene_graph_transforms s) e x → x ∈ t.
Proof.
  intros Hrun x Hreach.
  destruct (destroy_recursive_spec n e s t s' Hrun) as (_ & Hcf & _).
  induction Hreach as [|y c _ IH Hc].
  - eapply destroy_target. exact Hrun.
  - destruct (Hcf y IH) as (l1 & l2 & -> & Hfirst).
    apply elem_of_app. left. apply Hfirst. exact Hc.
Qed.

(** The destruction returns on a bounded hierarchy. *)
Lemma destroy_recursive_returns n e s :
  bounded n (scene_graph_transforms s) e = true →
  ∃ t s', destroy_recursive n e s = Some (t, s').
Proof.
  revert e s. induction n as [|n IH]; intros e s Hb; [discriminate|].
  rewrite destroy_unfold.
  destruct (for_each_traced_returns (destroy_recursive n) (shrinks s)
              (children_of (scene_graph_transforms s) e)) with (s := touch e s)
    as (t0 & s0 & Hloop & _).
  - intros c u Hc Hu.
    destruct (IH c u) as (t1 & u' & Hcall).
    { eapply bounded_sub; [exact Hu|].
      apply (proj1 (bounded_spec n _ e) Hb). exact Hc. }
    exists t1, u'. split; [exact Hcall|].
    transitivity u; [exact Hu|].
    eapply removed_shrinks. eapply destroy_recursive_spec. exact Hcall.
  - apply same_nodes_shrinks, touch_same_nodes.
  - rewrite Hloop. eauto.
Qed.
End destruction.

(** ** What the table updates do to the links *)

Section links.
Context `{MathCore} `{TypeIds}.
Import TransformSystem.
Implicit Types (sg : gmap entity scene_graph_component) (e x c p : entity).

Lemma node_of_index sg e x : node_of (index default_node e sg) x = node_of sg x.
Proof. apply at_key_index. Qed.

Lemma node_of_alter_index f sg e x :
  node_of (alter f e (index default_node e sg)) x =
  if decide (e = x) then f (node_of sg e) else node_of sg x.
Proof.
  unfold node_of, at_key. destruct (decide (e = x)) as [->|Hne].
  - rewrite lookup_alter_eq, lookup_index_eq. reflexivity.
  - rewrite lookup_alter_ne, lookup_index_ne by exact Hne. reflexivity.
Qed.

Lemma node_of_alter f sg e x :
  is_Some (sg !! e) →
  node_of (alter f e sg) x =
  if decide (e = x) then f (node_of sg e) else node_of sg x.
Proof.
  intros [v Hv]. rewrite <- (index_present default_node e sg v Hv) at 1.
  apply node_of_alter_index.
Qed.

Lemma node_of_insert sg e v x :
  node_of (<[e := v]> sg) x = if decide (e = x) then v else node_of sg x.
Proof.
  unfold node_of, at_key. destruct (decide (e = x)) as [->|Hne].
  - rewrite lookup_insert_eq. reflexivity.
  - rewrite lookup_insert_ne by exact Hne. reflexivity.
Qed.

Lemma is_Some_index {V} (d : V) (m : gmap entity V) e x :
  is_Some (index d e m !! x) ↔ x = e ∨ is_Some (m !! x).
Proof.
  destruct (decide (e = x)) as [->|Hne].
  - rewrite lookup_index_eq. split; [left; reflexivity|eauto].
  - rewrite lookup_index_ne by exact Hne. split; [tauto|].
    intros [->|Hx]; [contradiction|exact Hx].
Qed.

Lemma is_Some_alter {V} (f : V → V) (m : gmap entity V) e x :
  is_Some (alter f e m !! x) ↔ is_Some (m !! x).
Proof.
  destruct (decide (e = x)) as [->|Hne].
  - rewrite lookup_alter_eq. apply fmap_is_Some.
  - rewrite lookup_alter_ne by exact Hne. tauto.
Qed.

(** [link] *)

Lemma is_Some_link sg p c x :
  is_Some (link p c sg !! x) ↔ x = c ∨ x = p ∨ is_Some (sg !! x).
Proof.
  unfold link.
  rewrite is_Some_alter, is_Some_index, is_Some_alter, is_Some_index. tauto.
Qed.

Lemma parent_of_link sg p c x :
  parent_of (link p c sg) x = if decide (x = c) then p else parent_of sg x.
Proof.
  unfold parent_of, link. rewrite !node_of_alter_index.
  repeat case_decide; subst; simpl; try reflexivity; congruence.
Qed.

Lemma children_of_link sg p c x :
  children_of (link p c sg) x =
  if decide (x = p) then children_of sg p ++ [c] else children_of sg x.
Proof.
  unfold children_of, link. rewrite !node_of_alter_index.
  repeat case_decide; subst; simpl; try reflexivity; congruence.
Qed.

Lemma local_pose_link sg p c x :
  local_pose (node_of (link p c sg) x) = local_pose (node_of sg x).
Proof.
  unfold link. rewrite !node_of_alter_index.
  repeat case_decide; subst; simpl; reflexivity.
Qed.

(** [unlink], on the table in which [remove_parent] has looked [c] up *)

Lemma is_Some_unlink sg p c x :
  is_Some (unlink p c (index default_node c sg) !! x)
  ↔ x = c ∨ x = p ∨ is_Some (sg !! x).
Proof.
  unfold unlink.
  rewrite is_Some_alter, is_Some_alter, !is_Some_index. tauto.
Qed.

Lemma node_of_unlink sg p c x :
  node_of (unlink p c (index default_node c sg)) x =
  let n := node_of sg x in
  let n1 := if decide (p = x)
            then set_children (filter (λ y, y ≠ c) (children n)) n else n in
  if decide (c = x) then set_parent kInvalidEntity n1 else n1.
Proof.
  unfold unlink. rewrite node_of_alter.
  - rewrite !node_of_alter_index, !node_of_index.
    repeat case_decide; subst; simpl; try reflexivity; congruence.
  - apply is_Some_alter, is_Some_index. right. apply is_Some_index. left.
    reflexivity.
Qed.

Lemma parent_of_unlink sg p c x :
  parent_of (unlink p c (index default_node c sg)) x =
  if decide (x = c) then kInvalidEntity else parent_of sg x.
Proof.
  unfold parent_of. rewrite node_of_unlink. simpl.
  repeat case_decide; subst; simpl; try reflexivity; congruence.
Qed.

Lemma children_of_unlink sg p c x :
  children_of (unlink p c (index default_node c sg)) x =
  if decide (x = p) then filter (λ y, y ≠ c) (children_of sg p)
  else children_of sg x.
Proof.
  unfold children_of. rewrite node_of_unlink. simpl.
  repeat case_decide; subst; simpl; try reflexivity; congruence.
Qed.

Lemma local_pose_unlink sg p c x :
  local_pose (node_of (unlink p c (index default_node c sg)) x)
  = local_pose (node_of sg x).
Proof.
  rewrite node_of_unlink. simpl.
  repeat case_decide; subst; simpl; reflexivity.
Qed.
End links.

(** ** The link invariant *)

Section link_invariant.
Context `{MathCore} `{TypeIds}.
Import TransformSystem.
Implicit Types (sg : gmap entity scene_graph_component) (e x c p : entity).
Implicit Types (s : transform_system).

Lemma node_of_absent sg x : sg !! x = None → node_of sg x = default_node.
Proof. apply at_key_absent. Qed.

Lemma node_of_present sg x v : sg !! x = Some v → node_of sg x = v.
Proof. apply at_key_present. Qed.

Lemma parent_of_present sg x : parent_of sg x ≠ kInvalidEntity → is_Some (sg !! x).
Proof.
  unfold parent_of. destruct (sg !! x) as [v|] eqn:E; [eauto|].
  rewrite (node_of_absent sg x E). simpl. congruence.
Qed.

Lemma children_of_present sg x c : c ∈ children_of sg x → is_Some (sg !! x).
Proof.
  unfold children_of. destruct (sg !! x) as [v|] eqn:E; [eauto|].
  rewrite (node_of_absent sg x E). simpl. inversion 1.
Qed.

Lemma links_consistent_closed sg : links_consistent sg → closed sg.
Proof.
  intros (H1 & H2 & H3). split.
  - intros p c Hc. destruct (decide (p = kInvalidEntity)) as [->|Hp].
    + rewrite H3 in Hc. inversion Hc.
    + apply (H1 p c Hp Hc).
  - intros c Hc. apply (H2 c Hc).
Qed.

Lemma links_consistent_empty : links_consistent ∅.
Proof.
  split; [|split].
  - intros p c _ Hc. apply children_of_present in Hc.
    rewrite lookup_empty in Hc. destruct Hc as [? [=]].
  - intros c Hc. apply parent_of_present in Hc.
    rewrite lookup_empty in Hc. destruct Hc as [? [=]].
  - reflexivity.
Qed.

(** Tables that read the same and have at least the same keys. *)
Lemma links_consistent_grow sg sg' :
  (∀ x, node_of sg' x = node_of sg x) →
  (∀ x, is_Some (sg !! x) → is_Some (sg' !! x)) →
  links_consistent sg → links_consistent sg'.
Proof.
  intros Hn Hk (H1 & H2 & H3). unfold links_consistent, children_of, parent_of.
  split; [|split].
  - intros p c Hp Hc. rewrite Hn in Hc. rewrite Hn.
    destruct (H1 p c Hp Hc) as [Hs Hpar]. split; [apply Hk, Hs|exact Hpar].
  - intros c Hc. rewrite !Hn in *.
    destruct (H2 c Hc) as [Hs Hin]. split; [apply Hk, Hs|exact Hin].
  - rewrite Hn. exact H3.
Qed.

Lemma links_consistent_index sg e :
  links_consistent sg → links_consistent (index default_node e sg).
Proof.
  apply links_consistent_grow.
  - intros x. apply node_of_index.
  - intros x Hx. apply is_Some_index. right. exact Hx.
Qed.

Lemma links_consistent_insert_new sg e lp ls :
  sg !! e = None →
  links_consistent sg →
  links_consistent
    (<[e := {| sg_entity := e; local_pose := lp; local_scale := ls;
               parent := kInvalidEntity; children := [] |}]> sg).
Proof.
  intros Hnew (H1 & H2 & H3).
  assert (Hp : ∀ x, parent_of (<[e := {| sg_entity := e; local_pose := lp;
                 local_scale := ls; parent := kInvalidEntity; children := [] |}]> sg) x
               = parent_of sg x).
  { intros x. unfold parent_of. rewrite node_of_insert.
    case_decide; [subst; rewrite (node_of_absent sg x Hnew)|]; reflexivity. }
  assert (Hc : ∀ x, children_of (<[e := {| sg_entity := e; local_pose := lp;
                 local_scale := ls; parent := kInvalidEntity; children := [] |}]> sg) x
               = children_of sg x).
  { intros x. unfold children_of. rewrite node_of_insert.
    case_decide; [subst; rewrite (node_of_absent sg x Hnew)|]; reflexivity. }
  assert (Hk : ∀ x v, is_Some (sg !! x) → is_Some (<[e := v]> sg !! x)).
  { intros x v Hx. destruct (decide (e = x)) as [->|Hne].
    - rewrite lookup_insert_eq. eauto.
    - rewrite lookup_insert_ne by exact Hne. exact Hx. }
  split; [|split].
  - intros p c Hp0 Hin. rewrite Hc in Hin. rewrite Hp.
    destruct (H1 p c Hp0 Hin) as [Hs Hpar]. split; [apply Hk, Hs|exact Hpar].
  - intros c Hpc. rewrite Hp in *. rewrite Hc.
    destruct (H2 c Hpc) as [Hs Hin]. split; [apply Hk, Hs|exact Hin].
  - rewrite Hc. exact H3.
Qed.

Lemma links_consistent_link sg p c :
  p ≠ kInvalidEntity →
  is_Some (sg !! p) → is_Some (sg !! c) →
  parent_of sg c = kInvalidEntity →
  links_consistent sg → links_consistent (link p c sg).
Proof.
  intros Hp0 Hsp Hsc Hroot (H1 & H2 & H3). split; [|split].
  - intros q x Hq Hin. rewrite children_of_link in Hin.
    rewrite parent_of_link, is_Some_link.
    destruct (decide (q = p)) as [->|Hqp].
    + apply elem_of_app in Hin as [Hin|Hin].
      * destruct (H1 p x Hp0 Hin) as [Hs Hpar].
        split; [tauto|]. case_decide; [reflexivity|exact Hpar].
      * apply list_elem_of_singleton in Hin as ->.
        split; [tauto|]. case_decide; [reflexivity|contradiction].
    + destruct (H1 q x Hq Hin) as [Hs Hpar].
      split; [tauto|]. case_decide; [subst; congruence|exact Hpar].
  - intros x Hx. rewrite parent_of_link in *. rewrite children_of_link, is_Some_link.
    destruct (decide (x = c)) as [->|Hxc].
    + split; [tauto|]. case_decide; [|contradiction].
      apply elem_of_app. right. left.
    + destruct (H2 x Hx) as [Hs Hin]. split; [tauto|].
      case_decide as Hd; [|exact Hin].
      rewrite Hd in Hin. apply elem_of_app. left. exact Hin.
  - rewrite children_of_link. case_decide; [congruence|exact H3].
Qed.

Lemma links_consistent_unlink sg c :
  parent_of sg c ≠ kInvalidEntity →
  links_consistent sg →
  links_consistent (unlink (parent_of sg c) c (index default_node c sg)).
Proof.
  intros Hq (H1 & H2 & H3). set (q := parent_of sg c) in *. split; [|split].
  - intros p x Hp Hin. rewrite children_of_unlink in Hin.
    rewrite parent_of_unlink, is_Some_unlink.
    destruct (decide (p = q)) as [->|Hpq].
    + apply list_elem_of_filter in Hin as [Hxc Hin].
      destruct (H1 q x Hp Hin) as [Hs Hpar].
      split; [tauto|]. case_decide; [contradiction|exact Hpar].
    + destruct (H1 p x Hp Hin) as [Hs Hpar].
      split; [tauto|]. case_decide; [subst; contradiction|exact Hpar].
  - intros x Hx. rewrite parent_of_unlink in *.
    rewrite children_of_unlink, is_Some_unlink.
    destruct (decide (x = c)) as [->|Hxc]; [contradiction|].
    destruct (H2 x Hx) as [Hs Hin]. split; [tauto|].
    case_decide as Hd; [|exact Hin].
    apply list_elem_of_filter. split; [exact Hxc|]. rewrite <- Hd. exact Hin.
  - rewrite children_of_unlink. case_decide; [congruence|exact H3].
Qed.

(** The last step of a path. *)
Lemma reach_last sg e x :
  reach sg e x → x = e ∨ ∃ y, reach sg e y ∧ x ∈ children_of sg y.
Proof. destruct 1 as [|y c Hy Hc]; [left; reflexivity|right; eauto]. Qed.

Lemma links_consistent_removed s s' e t :
  parent_of (scene_graph_transforms s) e = kInvalidEntity →
  removed t s s' →
  (∀ x, x ∈ t → reach (scene_graph_transforms s) e x) →
  (∀ x, reach (scene_graph_transforms s) e x → x ∈ t) →
  links_consistent (scene_graph_transforms s) →
  links_consistent (scene_graph_transforms s').
Proof.
  intros Hroot Hrem Hbelow Hcover (H1 & H2 & H3).
  set (sg := scene_graph_transforms s) in *.
  set (sg' := scene_graph_transforms s') in *.
  assert (Hin : ∀ x, x ∈ t → sg' !! x = None).
  { intros x Hx. unfold sg'. rewrite (proj1 (Hrem x)).
    destruct (decide (x ∈ t)); [reflexivity|contradiction]. }
  assert (Hout : ∀ x, x ∉ t → sg' !! x = sg !! x).
  { intros x Hx. unfold sg'. rewrite (proj1 (Hrem x)).
    destruct (decide (x ∈ t)); [contradiction|reflexivity]. }
  assert (Hnode : ∀ x, x ∉ t → node_of sg' x = node_of sg x).
  { intros x Hx. unfold node_of, at_key. rewrite (Hout x Hx). reflexivity. }
  assert (Hgone_c : ∀ x c, c ∈ children_of sg' x → x ∉ t).
  { intros x c Hc Hx. apply children_of_present in Hc.
    rewrite (Hin x Hx) in Hc. destruct Hc as [? [=]]. }
  assert (Hgone_p : ∀ x, parent_of sg' x ≠ kInvalidEntity → x ∉ t).
  { intros x Hp Hx. apply parent_of_present in Hp.
    rewrite (Hin x Hx) in Hp. destruct Hp as [? [=]]. }
  split; [|split].
  - intros p c Hp Hc. pose proof (Hgone_c p c Hc) as Hpt.
    unfold children_of in Hc. rewrite (Hnode p Hpt) in Hc.
    destruct (H1 p c Hp Hc) as [Hs Hpar].
    assert (Hct : c ∉ t).
    { intros Hct. destruct (reach_last sg e c (Hbelow c Hct)) as [->|(y & Hy & Hcy)].
      - congruence.
      - destruct (decide (y = kInvalidEntity)) as [->|Hy0].
        + fold sg in H3. rewrite H3 in Hcy. inversion Hcy.
        + destruct (H1 y c Hy0 Hcy) as [_ Hpar'].
          apply Hpt. apply Hcover. congruence. }
    unfold parent_of. rewrite (Hout c Hct), (Hnode c Hct). split; assumption.
  - intros c Hc. pose proof (Hgone_p c Hc) as Hct.
    unfold parent_of in *. rewrite (Hnode c Hct) in *.
    destruct (H2 c Hc) as [Hs Hin'].
    assert (Hpt : parent (node_of sg c) ∉ t).
    { intros Hpt. apply Hct. apply Hcover.
      eapply reach_child; [apply Hbelow, Hpt|exact Hin']. }
    unfold children_of. rewrite (Hout _ Hpt), (Hnode _ Hpt). split; assumption.
  - destruct (decide (kInvalidEntity ∈ t)) as [Hz|Hz].
    + unfold children_of, node_of, at_key. rewrite (Hin _ Hz). reflexivity.
    + unfold children_of. rewrite (Hnode _ Hz). exact H3.
Qed.
End link_invariant.

(** ** The public member functions *)

Section member_functions.
Context `{MathCore} `{TypeIds}.
Import TransformSystem.
Implicit Types (sg : gmap entity scene_graph_component) (e x c p : entity).
Implicit Types (s : transform_system) (n : nat).

Lemma has_transform_true e s :
  has_transform e s = true ↔ is_Some (scene_graph_transforms s !! e).
Proof.
  unfold has_transform. destruct (scene_graph_transforms s !! e).
  - split; eauto.
  - split; [discriminate|]. intros [? [=]].
Qed.

Lemma has_transform_false e s :
  has_transform e s = false ↔ scene_graph_transforms s !! e = None.
Proof.
  unfold has_transform. destruct (scene_graph_transforms s !! e).
  - split; discriminate.
  - split; reflexivity.
Qed.

(** [create] returns as soon as it has fuel for one call: the record it
    recomputes has no children. *)
Lemma create_returns n e lp ls s :
  create (S n) e lp ls s =
  Returns true
    {| scene_graph_transforms :=
         <[e := {| sg_entity := e; local_pose := lp; local_scale := ls;
                   parent := kInvalidEntity; children := [] |}]>
           (scene_graph_transforms s);
       world_transforms :=
         <[e := {| wt_entity := e; world_pose := lp |}]> (world_transforms s) |}.
Proof.
  unfold create.
  rewrite (index_present default_node e _ _ (lookup_insert_eq _ _ _)).
  rewrite alter_insert_eq.
  rewrite (index_present default_node e _ _ (lookup_insert_eq _ _ _)).
  rewrite alter_insert_eq.
  rewrite recalculate_unfold.
  unfold visit, children_of, parent_of, expected_pose. simpl.
  rewrite !node_of_insert.
  destruct (decide (e = e)) as [_|Hne]; [|contradiction]. simpl.
  destruct (decide (kInvalidEntity ≠ kInvalidEntity)) as [Hne|_]; [contradiction|].
  rewrite (index_present default_node e _ _ (lookup_insert_eq _ _ _)).
  rewrite (index_present default_world e _ _ (lookup_insert_eq _ _ _)).
  rewrite alter_insert_eq. reflexivity.
Qed.

Lemma create_inv n e lp ls s b s' :
  create n e lp ls s = Returns b s' →
  b = true
  ∧ s' = {| scene_graph_transforms :=
              <[e := {| sg_entity := e; local_pose := lp; local_scale := ls;
                        parent := kInvalidEntity; children := [] |}]>
                (scene_graph_transforms s);
            world_transforms :=
              <[e := {| wt_entity := e; world_pose := lp |}]> (world_transforms s) |}.
Proof.
  destruct n as [|n]; [discriminate|].
  rewrite create_returns. intros [= <- <-]. split; reflexivity.
Qed.

Lemma add_child_inv n p c s b s' :
  add_child n p c s = Returns b s' →
  b = true ∧ p ≠ kInvalidEntity ∧ c ≠ kInvalidEntity
  ∧ is_Some (scene_graph_transforms s !! p)
  ∧ is_Some (scene_graph_transforms s !! c)
  ∧ recalculate_world_transform n p
      {| scene_graph_transforms := link p c (scene_graph_transforms s);
         world_transforms := world_transforms s |} = Some s'.
Proof.
  unfold add_child.
  destruct (decide (p = kInvalidEntity)); [discriminate|].
  destruct (decide (c = kInvalidEntity)); [discriminate|].
  destruct (has_transform p s) eqn:Hp; [|discriminate].
  destruct (has_transform c s) eqn:Hc; [|discriminate]. simpl.
  destruct (recalculate_world_transform _ _ _) as [s1|]; [|discriminate].
  intros [= <- <-]. apply has_transform_true in Hp, Hc. tauto.
Qed.

Lemma remove_parent_inv n c s u s' :
  remove_parent n c s = Returns u s' →
  (parent_of (scene_graph_transforms s) c ≠ kInvalidEntity
   ∧ recalculate_world_transform n c
       {| scene_graph_transforms :=
            unlink (parent_of (scene_graph_transforms s) c) c
              (index default_node c (scene_graph_transforms s));
          world_transforms := world_transforms s |} = Some s')
  ∨ (parent_of (scene_graph_transforms s) c = kInvalidEntity ∧ s' = touch c s).
Proof.
  unfold remove_parent, parent_of, node_of. rewrite at_key_index.
  destruct (decide _) as [Hp|Hp].
  - destruct (recalculate_world_transform _ _ _) as [s1|] eqn:E; [|discriminate].
    intros Heq. simplify_eq. left. split; [exact Hp|reflexivity].
  - intros Heq. simplify_eq. right. split; [|reflexivity].
    destruct (decide (parent (at_key default_node c (scene_graph_transforms s))
                      = kInvalidEntity)); [assumption|contradiction].
Qed.

Lemma destroy_inv n e s u s' :
  destroy n e s = Returns u s' →
  e ≠ kInvalidEntity ∧ is_Some (scene_graph_transforms s !! e)
  ∧ ∃ t, destroy_recursive n e s = Some (t, s').
Proof.
  unfold destroy.
  destruct (decide (e = kInvalidEntity)); [discriminate|].
  destruct (has_transform e s) eqn:He; [|discriminate]. simpl.
  destruct (destroy_recursive n e s) as [[t s1]|]; [|discriminate].
  intros Heq. simplify_eq. apply has_transform_true in He. eauto.
Qed.

(** On a closed table a recomputation inserts no record. *)
Lemma visit_closed e s :
  closed (scene_graph_transforms s) →
  is_Some (scene_graph_transforms s !! e) →
  scene_graph_transforms (visit e s) = scene_graph_transforms s.
Proof.
  intros [_ Hpar] [v Hv]. unfold visit. simpl.
  rewrite (index_present default_node e _ v Hv).
  destruct (decide _) as [Hp|_]; [|reflexivity].
  destruct (Hpar e Hp) as [pv Hpv].
  apply (index_present default_node _ _ pv Hpv).
Qed.

Lemma recalculate_closed n e s s' :
  closed (scene_graph_transforms s) →
  is_Some (scene_graph_transforms s !! e) →
  recalculate_world_transform n e s = Some s' →
  scene_graph_transforms s' = scene_graph_transforms s.
Proof.
  revert e s s'. induction n as [|n IH]; intros e s s' Hcl He Hrun; [discriminate|].
  rewrite recalculate_unfold in Hrun.
  pose proof (visit_closed e s Hcl He) as Hvisit.
  refine (for_each_preorder _
            (λ t t', scene_graph_transforms t = scene_graph_transforms s →
                     scene_graph_transforms t' = scene_graph_transforms s)
            _ _ _ _ _ _ Hrun Hvisit).
  - intros t Ht. exact Ht.
  - intros t1 t2 t3 H12 H23 Ht. apply H23, H12, Ht.
  - intros c t t' Hc Hcall Ht.
    rewrite <- Ht. apply (IH c t t'); [rewrite Ht; exact Hcl| |exact Hcall].
    rewrite Ht. apply (proj1 Hcl e c Hc).
Qed.

Lemma returned_Some {A} (o : outcome A) s' :
  returned o = Some s' ↔ ∃ a, o = Returns a s'.
Proof.
  destruct o as [a s1|what s1|]; simpl.
  - split; [intros [= <-]; eauto|intros [a' [= _ <-]]; reflexivity].
  - split; [discriminate|intros [a' [=]]].
  - split; [discriminate|intros [a' [=]]].
Qed.

Lemma get_parent_parent_of c s :
  get_parent c s =
  if decide (c = kInvalidEntity) then kInvalidEntity
  else parent_of (scene_graph_transforms s) c.
Proof.
  unfold get_parent, parent_of, node_of, at_key.
  destruct (decide (c = kInvalidEntity)); [reflexivity|].
  destruct (scene_graph_transforms s !! c) as [v|]; simpl; [|reflexivity].
  destruct (decide (parent v ≠ kInvalidEntity)) as [|Hp]; [reflexivity|].
  destruct (decide (parent v = kInvalidEntity)) as [->|]; [reflexivity|contradiction].
Qed.

(** A call made within the discipline keeps the links consistent. *)
Lemma run_call_links_consistent n k s s' :
  links_consistent (scene_graph_transforms s) →
  permitted k s = true →
  run_call n k s = Some s' →
  links_consistent (scene_graph_transforms s').
Proof.
  intros Hinv Hperm Hrun. destruct k as [e lp ls|p c|c|e]; simpl in Hrun, Hperm;
    apply returned_Some in Hrun as [a Hrun].
  - apply create_inv in Hrun as [_ ->]. simpl.
    apply links_consistent_insert_new; [|exact Hinv].
    apply has_transform_false. apply negb_true_iff. exact Hperm.
  - apply add_child_inv in Hrun as (_ & Hp & Hc & Hsp & Hsc & Hrun).
    apply bool_decide_eq_true in Hperm. rewrite get_parent_parent_of in Hperm.
    destruct (decide (c = kInvalidEntity)) as [|_]; [contradiction|].
    pose proof (links_consistent_link _ p c Hp Hsp Hsc Hperm Hinv) as Hlink.
    apply recalculate_closed in Hrun as ->; simpl.
    + exact Hlink.
    + apply links_consistent_closed. exact Hlink.
    + apply is_Some_link. tauto.
  - apply remove_parent_inv in Hrun as [[Hp Hrun]|[Hp ->]].
    + pose proof (links_consistent_unlink _ c Hp Hinv) as Hunlink.
      apply recalculate_closed in Hrun as ->; simpl.
      * exact Hunlink.
      * apply links_consistent_closed. exact Hunlink.
      * apply is_Some_unlink. tauto.
    + simpl. apply links_consistent_index. exact Hinv.
  - apply destroy_inv in Hrun as (He & Hse & t & Hrun).
    apply bool_decide_eq_true in Hperm. rewrite get_parent_parent_of in Hperm.
    destruct (decide (e = kInvalidEntity)) as [|_]; [contradiction|].
    destruct (destroy_recursive_spec n e s t s' Hrun) as (Hrem & _ & Hbelow).
    eapply links_consistent_removed; [exact Hperm|exact Hrem| | |exact Hinv].
    + intros x Hx. destruct (Hbelow x Hx) as (c & Hc & Hreach).
      apply list_elem_of_singleton in Hc as ->. exact Hreach.
    + eapply destroy_recursive_covers. exact Hrun.
Qed.

Lemma reachable_disciplined_links_consistent s :
  reachable_disciplined s → links_consistent (scene_graph_transforms s).
Proof.
  induction 1 as [|s fuel k s' _ IH Hperm Hrun].
  - apply links_consistent_empty.
  - eapply run_call_links_consistent; eassumption.
Qed.

Lemma links_consistent_linked_iff s c p :
  links_consistent (scene_graph_transforms s) →
  p ≠ kInvalidEntity → linked_iff s c p.
Proof.
  intros (H1 & H2 & _) Hp cn pn Hc Hpn.
  assert (Hcn : node_of (scene_graph_transforms s) c = cn)
    by (apply at_key_present; exact Hc).
  assert (Hpn' : node_of (scene_graph_transforms s) p = pn)
    by (apply at_key_present; exact Hpn).
  split.
  - intros Hin. destruct (H1 p c Hp) as [_ Hpar].
    + unfold children_of. rewrite Hpn'. exact Hin.
    + unfold parent_of in Hpar. rewrite Hcn in Hpar. exact Hpar.
  - intros Hpar. destruct (H2 c) as [_ Hin].
    + unfold parent_of. rewrite Hcn, Hpar. exact Hp.
    + unfold parent_of, children_of in Hin. rewrite Hcn, Hpar, Hpn' in Hin.
      exact Hin.
Qed.

(** *** Roots are in world space *)

Lemma recalculate_roots n e s s' :
  recalculate_world_transform n e s = Some s' →
  (∀ y w, world_transforms s !! y = Some w →
          parent_of (scene_graph_transforms s) y = kInvalidEntity →
          reach (scene_graph_transforms s) e y
          ∨ world_pose w = local_pose (node_of (scene_graph_transforms s) y)) →
  roots_in_world_space s'.
Proof.
  intros Hrun Hpre y w Hw Hroot.
  pose proof (recalculate_same_nodes n e s s' Hrun) as Hsame.
  assert (Hreached : reach (scene_graph_transforms s) e y →
                     world_pose w = local_pose (node_of (scene_graph_transforms s') y)).
  { intros Hr.
    destruct (recalculate_reach_world_ok n e s s' Hrun y Hr) as (w' & Hw' & Hpose).
    rewrite Hw in Hw'. injection Hw' as <-. rewrite Hpose.
    unfold expected_pose. unfold parent_of in Hroot.
    destruct (decide _) as [Hp|_]; [contradiction|reflexivity]. }
  destruct (recalculate_frame n e s s' Hrun y) as [Hr|Hsame_w]; [auto|].
  rewrite Hsame_w in Hw. unfold parent_of in Hroot. rewrite Hsame in Hroot.
  destruct (Hpre y w Hw Hroot) as [Hr|Hpose]; [auto|].
  rewrite Hsame. exact Hpose.
Qed.

Lemma run_call_roots n k s s' :
  roots_in_world_space s → run_call n k s = Some s' → roots_in_world_space s'.
Proof.
  intros Hinv Hrun. destruct k as [e lp ls|p c|c|e]; simpl in Hrun;
    apply returned_Some in Hrun as [a Hrun].
  - apply create_inv in Hrun as [_ ->]. intros y w. simpl.
    unfold parent_of. rewrite node_of_insert.
    destruct (decide (e = y)) as [->|Hne].
    + rewrite lookup_insert_eq. intros [= <-] _. reflexivity.
    + rewrite lookup_insert_ne by exact Hne. apply Hinv.
  - apply add_child_inv in Hrun as (_ & Hp & Hc & Hsp & Hsc & Hrun).
    eapply recalculate_roots; [exact Hrun|]. simpl. intros y w Hw Hroot.
    right. rewrite parent_of_link in Hroot. rewrite local_pose_link.
    destruct (decide (y = c)); [contradiction|]. apply Hinv; assumption.
  - apply remove_parent_inv in Hrun as [[Hp Hrun]|[Hp ->]].
    + eapply recalculate_roots; [exact Hrun|]. simpl. intros y w Hw Hroot.
      rewrite parent_of_unlink in Hroot. rewrite local_pose_unlink.
      destruct (decide (y = c)) as [->|_]; [left; apply reach_self|].
      right. apply Hinv; assumption.
    + intros y w. unfold touch, parent_of. simpl. rewrite node_of_index.
      apply Hinv.
  - apply destroy_inv in Hrun as (He & Hse & t & Hrun).
    destruct (destroy_recursive_spec n e s t s' Hrun) as (Hrem & _ & _).
    intros y w Hw. rewrite (proj2 (Hrem y)) in Hw.
    destruct (decide (y ∈ t)) as [|Hout]; [discriminate|].
    unfold parent_of. rewrite (removed_outside t s s' y Hrem Hout).
    apply Hinv. exact Hw.
Qed.

Lemma reachable_roots s : reachable s → roots_in_world_space s.
Proof.
  induction 1 as [|s fuel k s' _ IH Hrun].
  - intros y w Hw. unfold initial in Hw. simpl in Hw.
    rewrite lookup_empty in Hw. discriminate.
  - eapply run_call_roots; eassumption.
Qed.

(** *** World transforms exist for scene-graph records only *)

Lemma visit_within e s :
  world_within_scene_graph s → world_within_scene_graph (visit e s).
Proof.
  intros Hin x. unfold visit. simpl.
  rewrite is_Some_alter, is_Some_index. intros Hx.
  assert (Hgoal : is_Some (index default_node e (scene_graph_transforms s) !! x)).
  { apply is_Some_index. destruct Hx as [->|Hx]; [left; reflexivity|].
    right. apply Hin. exact Hx. }
  destruct (decide _); [|exact Hgoal].
  apply is_Some_index. right. exact Hgoal.
Qed.

Lemma recalculate_within n e s s' :
  recalculate_world_transform n e s = Some s' →
  world_within_scene_graph s → world_within_scene_graph s'.
Proof.
  revert e s s'. induction n as [|n IH]; intros e s s' Hrun Hin; [discriminate|].
  rewrite recalculate_unfold in Hrun.
  apply (visit_within e) in Hin. revert Hin.
  eapply (for_each_preorder _
            (λ t t', world_within_scene_graph t → world_within_scene_graph t'));
    [| | |exact Hrun].
  - intros t Ht. exact Ht.
  - intros t1 t2 t3 H12 H23 Ht. apply H23, H12, Ht.
  - intros c t t' _ Hc. exact (IH c t t' Hc).
Qed.

Lemma run_call_within n k s s' :
  world_within_scene_graph s → run_call n k s = Some s' →
  world_within_scene_graph s'.
Proof.
  intros Hinv Hrun. destruct k as [e lp ls|p c|c|e]; simpl in Hrun;
    apply returned_Some in Hrun as [a Hrun].
  - apply create_inv in Hrun as [_ ->]. intros x. simpl.
    destruct (decide (e = x)) as [->|Hne].
    + rewrite !lookup_insert_eq. eauto.
    + rewrite !lookup_insert_ne by exact Hne. apply Hinv.
  - apply add_child_inv in Hrun as (_ & _ & _ & _ & _ & Hrun).
    eapply recalculate_within; [exact Hrun|]. intros x Hx. simpl in *.
    apply is_Some_link. right. right. apply Hinv. exact Hx.
  - apply remove_parent_inv in Hrun as [[_ Hrun]|[_ ->]].
    + eapply recalculate_within; [exact Hrun|]. intros x Hx. simpl in *.
      apply is_Some_unlink. right. right. apply Hinv. exact Hx.
    + intros x Hx. unfold touch in *. simpl in *.
      apply is_Some_index. right. apply Hinv. exact Hx.
  - apply destroy_inv in Hrun as (_ & _ & t & Hrun).
    destruct (destroy_recursive_spec n e s t s' Hrun) as (Hrem & _ & _).
    intros x. destruct (Hrem x) as [-> ->].
    destruct (decide (x ∈ t)); [intros [? [=]]|apply Hinv].
Qed.

Lemma reachable_within s : reachable s → world_within_scene_graph s.
Proof.
  induction 1 as [|s fuel k s' _ IH Hrun].
  - intros x Hx. unfold initial in Hx. simpl in Hx.
    rewrite lookup_empty in Hx. destruct Hx as [? [=]].
  - eapply run_call_within; eassumption.
Qed.

(** *** Lists of calls *)

Lemma reachable_run_calls fuel ks s s' :
  reachable s → run_calls fuel ks s = Some s' → reachable s'.
Proof.
  revert s. induction ks as [|k ks IH]; intros s Hs Hrun; simpl in Hrun.
  - injection Hrun as <-. exact Hs.
  - destruct (run_call fuel k s) as [s1|] eqn:E; [|discriminate].
    apply (IH s1); [|exact Hrun]. eapply reachable_call; eassumption.
Qed.

Lemma reachable_disciplined_run_calls fuel ks s s' :
  reachable_disciplined s → run_permitted_calls fuel ks s = Some s' →
  reachable_disciplined s'.
Proof.
  revert s. induction ks as [|k ks IH]; intros s Hs Hrun; simpl in Hrun.
  - injection Hrun as <-. exact Hs.
  - destruct (permitted k s) eqn:Hperm; [|discriminate].
    destruct (run_call fuel k s) as [s1|] eqn:E; [|discriminate].
    apply (IH s1); [|exact Hrun]. eapply disciplined_call; eassumption.
Qed.

Lemma reachable_disciplined_reachable s : reachable_disciplined s → reachable s.
Proof.
  induction 1 as [|s fuel k s' _ IH _ Hrun]; [apply reachable_initial|].
  eapply reachable_call; eassumption.
Qed.

(** *** When the recomputation returns *)

Lemma for_each_recalculate_bounded n l s s' :
  (∀ e t t', recalculate_world_transform n e t = Some t' →
             bounded n (scene_graph_transforms t) e = true) →
  for_each (recalculate_world_transform n) l s = Some s' →
  ∀ c, c ∈ l → bounded n (scene_graph_transforms s) c = true.
Proof.
  intros IH. revert s. induction l as [|c0 l IHl]; intros s Hrun c Hin.
  - inversion Hin.
  - simpl in Hrun.
    destruct (recalculate_world_transform n c0 s) as [s1|] eqn:E; [|discriminate].
    apply elem_of_cons in Hin as [->|Hin]; [apply (IH c0 s s1 E)|].
    eapply bounded_sub; [|apply (IHl s1 Hrun c Hin)].
    intros x y. rewrite (same_nodes_children s s1 x); [tauto|].
    eapply recalculate_same_nodes. exact E.
Qed.

(** With fuel [n] the recomputation returns exactly on the hierarchies
    bounded by [n]. *)
Lemma recalculate_returns_iff n e s :
  is_Some (recalculate_world_transform n e s)
  ↔ bounded n (scene_graph_transforms s) e = true.
Proof.
  split.
  - intros [s' Hrun]. revert e s s' Hrun.
    induction n as [|n IH]; intros e s s' Hrun; [discriminate|].
    rewrite recalculate_unfold in Hrun. apply bounded_spec. intros c Hc.
    eapply bounded_sub;
      [|apply (for_each_recalculate_bounded n _ _ _ IH Hrun c Hc)].
    intros x y. rewrite (same_nodes_children s (visit e s) x); [tauto|].
    apply visit_same_nodes.
  - intros Hb. destruct (recalculate_returns n e s Hb) as [s' Hs']. eauto.
Qed.

(** A node that is its own child has no bounded hierarchy. *)
Lemma bounded_self_child n sg e :
  e ∈ children_of sg e → bounded n sg e = false.
Proof.
  intros He. induction n as [|n IH]; [reflexivity|].
  destruct (bounded (S n) sg e) eqn:Hb; [|reflexivity].
  rewrite (proj1 (bounded_spec n sg e) Hb e He) in IH. discriminate.
Qed.

(** *** Fuel *)

(** More fuel does not change what a call returns. *)
Lemma recalculate_more_fuel n m e s s' :
  (n ≤ m)%nat →
  recalculate_world_transform n e s = Some s' →
  recalculate_world_transform m e s = Some s'.
Proof.
  intros Hle. revert e s s'. induction Hle as [|m _ IH]; intros e s s' Hrun;
    [exact Hrun|].
  apply IH in Hrun. clear IH. revert e s s' Hrun.
  induction m as [|m IHm]; intros e s s' Hrun; [discriminate|].
  rewrite recalculate_unfold in *.
  eapply for_each_mono; [|exact Hrun]. intros c t t'. apply IHm.
Qed.

Lemma destroy_recursive_more_fuel n m e s r :
  (n ≤ m)%nat →
  destroy_recursive n e s = Some r → destroy_recursive m e s = Some r.
Proof.
  intros Hle. revert e s r. induction Hle as [|m _ IH]; intros e s r Hrun;
    [exact Hrun|].
  apply IH in Hrun. clear IH. revert e s r Hrun.
  induction m as [|m IHm]; intros e s r Hrun; [discriminate|].
  rewrite destroy_unfold in *.
  destruct (for_each_traced (destroy_recursive m) _ _) as [r0|] eqn:E;
    [|discriminate].
  rewrite (for_each_traced_mono _ (destroy_recursive (S m)) _ IHm _ _ E).
  exact Hrun.
Qed.

Lemma add_child_more_fuel n m p c s b s' :
  (n ≤ m)%nat →
  add_child n p c s = Returns b s' → add_child m p c s = Returns b s'.
Proof.
  intros Hle. unfold add_child.
  destruct (decide (p = kInvalidEntity)); [tauto|].
  destruct (decide (c = kInvalidEntity)); [tauto|].
  destruct (negb (has_transform p s)); [tauto|].
  destruct (negb (has_transform c s)); [tauto|].
  destruct (recalculate_world_transform n p _) as [s1|] eqn:E; [|discriminate].
  rewrite (recalculate_more_fuel n m _ _ _ Hle E). tauto.
Qed.

Lemma remove_parent_more_fuel n m c s u s' :
  (n ≤ m)%nat →
  remove_parent n c s = Returns u s' → remove_parent m c s = Returns u s'.
Proof.
  intros Hle. unfold remove_parent.
  destruct (decide _); [|tauto].
  destruct (recalculate_world_transform n c _) as [s1|] eqn:E; [|discriminate].
  rewrite (recalculate_more_fuel n m _ _ _ Hle E). tauto.
Qed.

Lemma destroy_more_fuel n m e s u s' :
  (n ≤ m)%nat →
  destroy n e s = Returns u s' → destroy m e s = Returns u s'.
Proof.
  intros Hle. unfold destroy.
  destruct (decide (e = kInvalidEntity)); [tauto|].
  destruct (negb (has_transform e s)); [tauto|].
  destruct (destroy_recursive n e s) as [[t s1]|] eqn:E; [|discriminate].
  rewrite (destroy_recursive_more_fuel n m _ _ _ Hle E). tauto.
Qed.

(** *** The hierarchy of a reachable state has no cycle *)

Lemma bounded_le n m sg e :
  (n ≤ m)%nat → bounded n sg e = true → bounded m sg e = true.
Proof.
  induction 1 as [|m _ IH]; [tauto|]. intros Hb. apply bounded_more, IH, Hb.
Qed.

Lemma bounded_link n0 n sg p c :
  (∀ e, bounded n0 sg e = true) →
  bounded n (link p c sg) p = true →
  ∀ e, bounded (n0 + n) (link p c sg) e = true.
Proof.
  intros Hold Hnew e. specialize (Hold e). revert e Hold.
  induction n0 as [|k IH]; intros e Hold; [discriminate|].
  destruct (decide (e = p)) as [->|Hne].
  - eapply bounded_le; [|exact Hnew]. lia.
  - change (S k + n)%nat with (S (k + n)). apply bounded_spec. intros y Hy.
    apply IH. rewrite children_of_link in Hy.
    destruct (decide (e = p)); [contradiction|].
    apply (proj1 (bounded_spec k sg e) Hold y Hy).
Qed.

Lemma depth_bounded_shrinks s s' : shrinks s s' → depth_bounded s → depth_bounded s'.
Proof.
  intros Hs [n Hn]. exists n. intros e. eapply bounded_sub; [exact Hs|apply Hn].
Qed.

Lemma run_call_depth_bounded n k s s' :
  depth_bounded s → run_call n k s = Some s' → depth_bounded s'.
Proof.
  intros Hinv Hrun. destruct k as [e lp ls|p c|c|e]; simpl in Hrun;
    apply returned_Some in Hrun as [a Hrun].
  - apply create_inv in Hrun as [_ ->].
    eapply depth_bounded_shrinks; [|exact Hinv]. intros y x. simpl.
    unfold children_of. rewrite node_of_insert.
    destruct (decide (e = y)); [inversion 1|tauto].
  - apply add_child_inv in Hrun as (_ & _ & _ & _ & _ & Hrun).
    destruct Hinv as [n0 Hn0].
    assert (Hp : bounded n (link p c (scene_graph_transforms s)) p = true).
    { apply (recalculate_returns_iff n p
               {| scene_graph_transforms := link p c (scene_graph_transforms s);
                  world_transforms := world_transforms s |}). eauto. }
    exists (n0 + n)%nat. intros e.
    eapply bounded_same_nodes; [eapply recalculate_same_nodes; exact Hrun|].
    simpl. apply bounded_link; assumption.
  - apply remove_parent_inv in Hrun as [[_ Hrun]|[_ ->]].
    + eapply depth_bounded_shrinks;
        [apply same_nodes_shrinks; eapply recalculate_same_nodes; exact Hrun|].
      eapply depth_bounded_shrinks; [|exact Hinv]. intros y x. simpl.
      rewrite children_of_unlink. case_decide as Hy; [|tauto].
      intros Hx. apply list_elem_of_filter in Hx as [_ Hx]. rewrite Hy. exact Hx.
    + eapply depth_bounded_shrinks; [|exact Hinv].
      apply same_nodes_shrinks, touch_same_nodes.
  - apply destroy_inv in Hrun as (_ & _ & t & Hrun).
    eapply depth_bounded_shrinks; [|exact Hinv].
    eapply removed_shrinks. eapply destroy_recursive_spec. exact Hrun.
Qed.

Lemma reachable_depth_bounded s : reachable s → depth_bounded s.
Proof.
  induction 1 as [|s fuel k s' _ IH Hrun].
  - exists 1%nat. intros e. reflexivity.
  - eapply run_call_depth_bounded; eassumption.
Qed.
End member_functions.

(** ** The entity manager *)

Section entity_manager_facts.
Context `{TypeIds}.
Import EntityManager.
Implicit Types (m : entity_manager) (k i j : nat).

Lemma uint64_incr_small x : x + 1 < uint64_modulus → uint64_incr x = x + 1.
Proof. intros Hx. unfold uint64_incr. apply N.mod_small. exact Hx. Qed.

Lemma uint64_incr_max : uint64_incr (uint64_modulus - 1) = 0.
Proof. reflexivity. Qed.

Lemma create_many_S k m :
  (create_many (S k) m).1
  = uint64_incr (entity_counter m) :: (create_many k (create m).2).1.
Proof.
  simpl. destruct (create_many k _) as [es m2]. reflexivity.
Qed.

Lemma create_many_length k m : length (create_many k m).1 = k.
Proof.
  revert m. induction k as [|k IH]; intros m; [reflexivity|].
  rewrite create_many_S. simpl. rewrite IH. reflexivity.
Qed.

(** The identifier returned by call number [i] (from 0). *)
Lemma create_many_lookup k m i :
  (i < k)%nat →
  (create_many k m).1 !! i
  = Some ((entity_counter m + N.of_nat i + 1) mod uint64_modulus).
Proof.
  revert m i. induction k as [|k IH]; intros m i Hi; [lia|].
  rewrite create_many_S. destruct i as [|i].
  - simpl. unfold uint64_incr. f_equal. f_equal. lia.
  - change ((create_many k (create m).2).1 !! i
            = Some ((entity_counter m + N.of_nat (S i) + 1) mod uint64_modulus)).
    rewrite IH by lia. f_equal. simpl. unfold uint64_incr.
    rewrite <- N.add_assoc, N.Div0.add_mod_idemp_l. f_equal. lia.
Qed.

Lemma create_many_new_lookup k i :
  N.of_nat k < uint64_modulus → (i < k)%nat →
  (create_many k new).1 !! i = Some (N.of_nat i + 1).
Proof.
  intros Hk Hi. rewrite create_many_lookup by exact Hi. simpl.
  rewrite N.mod_small by lia. reflexivity.
Qed.
End entity_manager_facts.

(** * Main results *)

Section transform_results.
Context `{MathCore} `{TypeIds}.
Import TransformSystem.
Implicit Types (s : transform_system) (e x c p r : entity) (n : nat).

(** C1. On a record of the scene-graph table whose hierarchy is bounded,
    [recalculate_world_transform] returns, changes nothing that
    [operator[]] reads from the scene-graph table, and leaves as world
    pose of the entity its local pose when it has no parent, and its
    local pose multiplied by the local pose of its parent (not by the
    parent's world pose) when it has one; every entity found from it
    through children lists ends with the pose of that same rule
    ([world_ok]). After [add_child r c] the world pose of [c] is the
    local pose of [c] multiplied by the local pose of [r]. In every state
    reached by calls of the interface, a root that has a world transform
    has its local pose as world pose. *)
Theorem recalculate_world_transform_rule :
  (∀ n e s node,
     scene_graph_transforms s !! e = Some node →
     bounded n (scene_graph_transforms s) e = true →
     ∃ s', recalculate_world_transform n e s = Some s'
       ∧ same_nodes s s'
       ∧ (∃ w, world_transforms s' !! e = Some w
             ∧ world_pose w =
                 if decide (parent node = kInvalidEntity) then local_pose node
                 else pose_mul (local_pose node)
                        (local_pose (node_of (scene_graph_transforms s) (parent node))))
       ∧ ∀ x, reach (scene_graph_transforms s) e x → world_ok s' x)
  ∧ (∀ n r c s rn cn,
       r ≠ kInvalidEntity → c ≠ kInvalidEntity →
       scene_graph_transforms s !! r = Some rn →
       scene_graph_transforms s !! c = Some cn →
       bounded n (link r c (scene_graph_transforms s)) r = true →
       ∃ s' rn' cn' w,
         add_child n r c s = Returns true s'
         ∧ get_local_transform r s' = Some rn' ∧ local_pose rn' = local_pose rn
         ∧ get_local_transform c s' = Some cn' ∧ local_pose cn' = local_pose cn
         ∧ get_world_transform c s' = Some w
         ∧ world_pose w = pose_mul (local_pose cn') (local_pose rn'))
  ∧ (∀ s e node w,
       reachable s →
       get_local_transform e s = Some node → parent node = kInvalidEntity →
       get_world_transform e s = Some w →
       world_pose w = local_pose node).
Proof.
  split; [|split].
  - intros n e s node Hnode Hb.
    destruct (recalculate_returns n e s Hb) as [s' Hrun]. exists s'.
    split; [exact Hrun|]. split; [eapply recalculate_same_nodes; exact Hrun|].
    assert (Hall : ∀ x, reach (scene_graph_transforms s) e x → world_ok s' x)
      by (eapply recalculate_reach_world_ok; exact Hrun).
    split; [|exact Hall].
    destruct (Hall e (reach_self _ e)) as (w & Hw & Hpose). exists w.
    split; [exact Hw|]. rewrite Hpose.
    rewrite (same_nodes_expected s s' e (recalculate_same_nodes n e s s' Hrun)).
    unfold expected_pose. rewrite (node_of_present _ e node Hnode).
    destruct (decide (parent node ≠ kInvalidEntity)) as [Hp|Hp],
      (decide (parent node = kInvalidEntity)) as [Hq|Hq];
      try reflexivity; contradiction.
  - intros n r c s rn cn Hr Hc Hrn Hcn Hb.
    set (t := {| scene_graph_transforms := link r c (scene_graph_transforms s);
                 world_transforms := world_transforms s |}).
    destruct (recalculate_returns n r t Hb) as [s' Hrun].
    pose proof (recalculate_same_nodes n r t s' Hrun) as Hsame.
    assert (Hkeep : ∀ x, is_Some (scene_graph_transforms s !! x) →
              ∃ v, scene_graph_transforms s' !! x = Some v
                   ∧ local_pose v = local_pose (node_of (scene_graph_transforms s) x)).
    { intros x Hx.
      assert (Hl : is_Some (link r c (scene_graph_transforms s) !! x))
        by (apply is_Some_link; tauto).
      destruct Hl as [v Hv]. exists v.
      split; [exact (recalculate_keeps_records n r t s' Hrun x v Hv)|].
      rewrite <- (local_pose_link _ r c x).
      rewrite (node_of_present _ x v Hv). reflexivity. }
    destruct (Hkeep r) as (rn' & Hrn' & Hlr); [eauto|].
    destruct (Hkeep c) as (cn' & Hcn' & Hlc); [eauto|].
    rewrite (node_of_present _ r rn Hrn) in Hlr.
    rewrite (node_of_present _ c cn Hcn) in Hlc.
    destruct (recalculate_reach_world_ok n r t s' Hrun c) as (w & Hw & Hpose).
    { eapply reach_child; [apply reach_self|]. simpl.
      rewrite children_of_link. destruct (decide (r = r)); [|contradiction].
      apply elem_of_app. right. left. }
    exists s', rn', cn', w. unfold add_child, get_local_transform, get_world_transform.
    destruct (decide (r = kInvalidEntity)); [contradiction|].
    destruct (decide (c = kInvalidEntity)); [contradiction|].
    rewrite (proj2 (has_transform_true r s)), (proj2 (has_transform_true c s))
      by eauto. simpl. fold t. rewrite Hrun.
    repeat (split; [first [reflexivity|assumption]|]).
    rewrite Hpose. unfold expected_pose.
    rewrite (node_of_present _ c cn' Hcn').
    assert (Hpar : parent cn' = r).
    { pose proof (parent_of_link (scene_graph_transforms s) r c c) as Hp.
      destruct (decide (c = c)); [|contradiction].
      pose proof (Hsame c) as Hsc. simpl in Hsc.
      unfold parent_of in Hp. rewrite <- Hsc in Hp.
      rewrite (node_of_present _ c cn' Hcn') in Hp. exact Hp. }
    rewrite Hpar. destruct (decide (r ≠ kInvalidEntity)); [|contradiction].
    rewrite (node_of_present _ r rn' Hrn'). reflexivity.
  - intros s e node w Hreach Hnode Hroot Hw.
    unfold get_local_transform, get_world_transform in *.
    destruct (decide (e = kInvalidEntity)); [discriminate|].
    rewrite (reachable_roots s Hreach e w Hw).
    + rewrite (node_of_present _ e node Hnode). reflexivity.
    + unfold parent_of. rewrite (node_of_present _ e node Hnode).
      exact Hroot.
Qed.

(** [destroy] on a bounded hierarchy, in any state. *)
Lemma destroy_removes_subtree_bounded n e s :
  e ≠ kInvalidEntity →
  has_transform e s = true →
  bounded n (scene_graph_transforms s) e = true →
  ∃ erased s',
    destroy_recursive n e s = Some (erased, s')
    ∧ destroy n e s = Returns () s'
    ∧ (∀ x, reach (scene_graph_transforms s) e x →
         x ∈ erased
         ∧ scene_graph_transforms s' !! x = None
         ∧ world_transforms s' !! x = None
         ∧ get_local_transform x s' = None
         ∧ get_world_transform x s' = None
         ∧ has_transform x s' = false)
    ∧ children_first erased s
    ∧ (∀ x, ¬ reach (scene_graph_transforms s) e x →
         scene_graph_transforms s' !! x = scene_graph_transforms s !! x
         ∧ world_transforms s' !! x = world_transforms s !! x).
Proof.
  intros He Hhas Hb.
  destruct (destroy_recursive_returns n e s Hb) as (erased & s' & Hrun).
  destruct (destroy_recursive_spec n e s erased s' Hrun) as (Hrem & Hfirst & Hbelow).
  exists erased, s'. split; [exact Hrun|]. split; [|split; [|split]].
  - unfold destroy. destruct (decide (e = kInvalidEntity)); [contradiction|].
    rewrite Hhas, Hrun. reflexivity.
  - intros x Hx.
    pose proof (destroy_recursive_covers n e s erased s' Hrun x Hx) as Hin.
    destruct (Hrem x) as [Hsg Hwt].
    destruct (decide (x ∈ erased)); [|contradiction].
    unfold get_local_transform, get_world_transform, has_transform.
    rewrite Hsg, Hwt. destruct (decide (x = kInvalidEntity)); tauto.
  - exact Hfirst.
  - intros x Hx. destruct (Hrem x) as [Hsg Hwt].
    destruct (decide (x ∈ erased)) as [Hin|_]; [|split; assumption].
    exfalso. apply Hx. destruct (Hbelow x Hin) as (c & Hc & Hreach).
    apply list_elem_of_singleton in Hc as ->. exact Hreach.
Qed.

(** C3. In a state reached by calls of the interface, for an entity [e]
    (not the reserved value) that has a record, [destroy e] returns, with
    the same result for all fuel from some amount on; every entity found
    from [e] through children lists is erased from the scene-graph table
    and from the world-transform table, so that the three lookups fail
    for it; in the sequence of erasures the children a node had come
    before the node; and nothing else is removed. *)
Theorem destroy_removes_subtree e s :
  reachable s →
  e ≠ kInvalidEntity →
  has_transform e s = true →
  ∃ erased s',
    (∃ n, ∀ m, (n ≤ m)%nat →
       destroy_recursive m e s = Some (erased, s')
       ∧ destroy m e s = Returns () s')
    ∧ (∀ x, reach (scene_graph_transforms s) e x →
         x ∈ erased
         ∧ scene_graph_transforms s' !! x = None
         ∧ world_transforms s' !! x = None
         ∧ get_local_transform x s' = None
         ∧ get_world_transform x s' = None
         ∧ has_transform x s' = false)
    ∧ children_first erased s
    ∧ (∀ x, ¬ reach (scene_graph_transforms s) e x →
         scene_graph_transforms s' !! x = scene_graph_transforms s !! x
         ∧ world_transforms s' !! x = world_transforms s !! x).
Proof.
  intros Hreach He Hhas.
  destruct (reachable_depth_bounded s Hreach) as [n Hn].
  destruct (destroy_removes_subtree_bounded n e s He Hhas (Hn e))
    as (erased & s' & Hrec & Hrun & Hrest).
  exists erased, s'. split; [|exact Hrest].
  exists n. intros m Hm. split.
  - eapply destroy_recursive_more_fuel; eassumption.
  - eapply destroy_more_fuel; eassumption.
Qed.

(** C4, amended. For entities [p] and [c] other than the reserved one
    that both have a record, and when the hierarchy below [p] with the
    new link is bounded, [add_child p c] returns true; the children list
    of [p] is the former list followed by [c], so [c] is in it once more
    than before, and exactly once when it was not in it; and
    [get_parent c] is [p]. *)
Theorem add_child_appends n p c s pn cn :
  p ≠ kInvalidEntity → c ≠ kInvalidEntity →
  scene_graph_transforms s !! p = Some pn →
  scene_graph_transforms s !! c = Some cn →
  bounded n (link p c (scene_graph_transforms s)) p = true →
  ∃ s' pn',
    add_child n p c s = Returns true s'
    ∧ scene_graph_transforms s' !! p = Some pn'
    ∧ children pn' = children pn ++ [c]
    ∧ occurrences c (children pn') = S (occurrences c (children pn))
    ∧ (c ∉ children pn → occurrences c (children pn') = 1%nat)
    ∧ get_parent c s' = p.
Proof.
  intros Hp Hc Hpn Hcn Hb.
  set (t := {| scene_graph_transforms := link p c (scene_graph_transforms s);
               world_transforms := world_transforms s |}).
  destruct (recalculate_returns n p t Hb) as [s' Hrun].
  pose proof (recalculate_same_nodes n p t s' Hrun) as Hsame.
  assert (Hlp : is_Some (link p c (scene_graph_transforms s) !! p))
    by (apply is_Some_link; eauto).
  assert (Hlc : is_Some (link p c (scene_graph_transforms s) !! c))
    by (apply is_Some_link; eauto).
  destruct Hlp as [pn' Hpn'], Hlc as [cn' Hcn'].
  pose proof (recalculate_keeps_records n p t s' Hrun p pn' Hpn') as Hsp.
  pose proof (recalculate_keeps_records n p t s' Hrun c cn' Hcn') as Hsc.
  assert (Hch : children pn' = children pn ++ [c]).
  { pose proof (children_of_link (scene_graph_transforms s) p c p) as Hl.
    destruct (decide (p = p)); [|contradiction]. unfold children_of in Hl.
    rewrite (node_of_present _ p pn' Hpn'), (node_of_present _ p pn Hpn) in Hl.
    exact Hl. }
  assert (Hpar : parent cn' = p).
  { pose proof (parent_of_link (scene_graph_transforms s) p c c) as Hl.
    destruct (decide (c = c)); [|contradiction]. unfold parent_of in Hl.
    rewrite (node_of_present _ c cn' Hcn') in Hl. exact Hl. }
  assert (Hocc : occurrences c (children pn') = S (occurrences c (children pn))).
  { unfold occurrences. rewrite Hch, filter_app, length_app.
    rewrite filter_cons_True by reflexivity. simpl. lia. }
  exists s', pn'. split; [|split; [exact Hsp|split; [exact Hch|split; [exact Hocc|split]]]].
  - unfold add_child.
    destruct (decide (p = kInvalidEntity)); [contradiction|].
    destruct (decide (c = kInvalidEntity)); [contradiction|].
    rewrite (proj2 (has_transform_true p s)), (proj2 (has_transform_true c s))
      by eauto. simpl. fold t. rewrite Hrun. reflexivity.
  - intros Hnew. rewrite Hocc. f_equal. unfold occurrences.
    apply length_zero_iff_nil. apply elem_of_nil_inv. intros x Hx.
    apply list_elem_of_filter in Hx as [-> Hx]. contradiction.
  - rewrite get_parent_parent_of.
    destruct (decide (c = kInvalidEntity)); [contradiction|].
    unfold parent_of. rewrite (node_of_present _ c cn' Hsc). exact Hpar.
Qed.

(** [remove_parent] on a bounded hierarchy, in any state. *)
Lemma remove_parent_detaches_bounded n c s cn :
  scene_graph_transforms s !! c = Some cn →
  parent cn ≠ kInvalidEntity →
  bounded n (scene_graph_transforms s) c = true →
  ∃ s' cn' w,
    remove_parent n c s = Returns () s'
    ∧ (children_of (scene_graph_transforms s') (parent cn)
       = filter (λ x, x ≠ c) (children_of (scene_graph_transforms s) (parent cn)))
    ∧ (c ∉ children_of (scene_graph_transforms s') (parent cn))
    ∧ is_Some (scene_graph_transforms s' !! parent cn)
    ∧ scene_graph_transforms s' !! c = Some cn'
    ∧ parent cn' = kInvalidEntity
    ∧ get_parent c s' = kInvalidEntity
    ∧ local_pose cn' = local_pose cn
    ∧ world_transforms s' !! c = Some w
    ∧ world_pose w = local_pose cn'.
Proof.
  intros Hcn Hp Hb.
  pose proof (node_of_present _ c cn Hcn) as Hnode.
  assert (Hparent : parent_of (scene_graph_transforms s) c = parent cn)
    by (unfold parent_of; rewrite Hnode; reflexivity).
  set (sg' := unlink (parent cn) c (index default_node c (scene_graph_transforms s))).
  set (t := {| scene_graph_transforms := sg'; world_transforms := world_transforms s |}).
  assert (Hbt : bounded n (scene_graph_transforms t) c = true).
  { eapply bounded_sub; [|exact Hb]. intros x y. simpl. unfold sg'.
    rewrite children_of_unlink. case_decide as Hx; [|tauto].
    intros Hy. apply list_elem_of_filter in Hy as [_ Hy]. rewrite Hx. exact Hy. }
  destruct (recalculate_returns n c t Hbt) as [s' Hrun].
  pose proof (recalculate_same_nodes n c t s' Hrun) as Hsame.
  assert (Hkc : is_Some (sg' !! c)) by (apply is_Some_unlink; tauto).
  assert (Hkp : is_Some (sg' !! parent cn)) by (apply is_Some_unlink; tauto).
  destruct Hkc as [cn' Hcn'], Hkp as [pn' Hpn'].
  pose proof (recalculate_keeps_records n c t s' Hrun c cn' Hcn') as Hsc.
  pose proof (recalculate_keeps_records n c t s' Hrun _ pn' Hpn') as Hsp.
  assert (Hpar' : parent cn' = kInvalidEntity).
  { pose proof (parent_of_unlink (scene_graph_transforms s) (parent cn) c c) as Hl.
    destruct (decide (c = c)); [|contradiction]. unfold parent_of in Hl.
    fold sg' in Hl. rewrite (node_of_present _ c cn' Hcn') in Hl. exact Hl. }
  assert (Hlocal : local_pose cn' = local_pose cn).
  { pose proof (local_pose_unlink (scene_graph_transforms s) (parent cn) c c) as Hl.
    fold sg' in Hl. rewrite (node_of_present _ c cn' Hcn'), Hnode in Hl. exact Hl. }
  assert (Hch : children_of (scene_graph_transforms s') (parent cn)
                = filter (λ x, x ≠ c)
                    (children_of (scene_graph_transforms s) (parent cn))).
  { rewrite (same_nodes_children t s' _ Hsame). simpl. unfold sg'.
    rewrite children_of_unlink.
    destruct (decide (parent cn = parent cn)); [reflexivity|contradiction]. }
  destruct (recalculate_reach_world_ok n c t s' Hrun c (reach_self _ c))
    as (w & Hw & Hpose).
  exists s', cn', w.
  split; [|split; [exact Hch|split; [|split; [eauto|split; [exact Hsc|
    split; [exact Hpar'|split; [|split; [exact Hlocal|split; [exact Hw|]]]]]]]]].
  - unfold remove_parent. fold (node_of (index default_node c (scene_graph_transforms s)) c).
    rewrite node_of_index, Hnode.
    destruct (decide (parent cn ≠ kInvalidEntity)); [|contradiction].
    fold sg'. fold t. rewrite Hrun. reflexivity.
  - rewrite Hch. intros Hin. apply list_elem_of_filter in Hin as [Hne _].
    apply Hne. reflexivity.
  - rewrite get_parent_parent_of. case_decide; [reflexivity|].
    unfold parent_of. rewrite (node_of_present _ c cn' Hsc). exact Hpar'.
  - rewrite Hpose. unfold expected_pose. rewrite (node_of_present _ c cn' Hsc).
    destruct (decide (parent cn' ≠ kInvalidEntity)); [contradiction|reflexivity].
Qed.

(** C5. In a state reached by calls of the interface, for a child whose
    record has a parent, [remove_parent] returns, with the same result
    for all fuel from some amount on; the children list of the former
    parent is the former list without any occurrence of the child; the
    child's parent reference is the reserved value and [get_parent]
    returns it; the child keeps its local pose, and its world pose is
    that local pose. *)
Theorem remove_parent_detaches c s cn :
  reachable s →
  scene_graph_transforms s !! c = Some cn →
  parent cn ≠ kInvalidEntity →
  ∃ s' cn' w,
    (∃ n, ∀ m, (n ≤ m)%nat → remove_parent m c s = Returns () s')
    ∧ (children_of (scene_graph_transforms s') (parent cn)
       = filter (λ x, x ≠ c) (children_of (scene_graph_transforms s) (parent cn)))
    ∧ (c ∉ children_of (scene_graph_transforms s') (parent cn))
    ∧ is_Some (scene_graph_transforms s' !! parent cn)
    ∧ scene_graph_transforms s' !! c = Some cn'
    ∧ parent cn' = kInvalidEntity
    ∧ get_parent c s' = kInvalidEntity
    ∧ local_pose cn' = local_pose cn
    ∧ world_transforms s' !! c = Some w
    ∧ world_pose w = local_pose cn'.
Proof.
  intros Hreach Hcn Hp.
  destruct (reachable_depth_bounded s Hreach) as [n Hn].
  destruct (remove_parent_detaches_bounded n c s cn Hcn Hp (Hn c))
    as (s' & cn' & w & Hrun & Hrest).
  exists s', cn', w. split; [|exact Hrest].
  exists n. intros m Hm. eapply remove_parent_more_fuel; eassumption.
Qed.

(** C6. [add_child] throws [std::invalid_argument] when the parent or the
    child is the reserved entity or has no record, and [destroy] when its
    argument is the reserved entity or has no record; the state at the
    throw is the state at the call. *)
Theorem invalid_arguments_throw n s :
  (∀ p c,
     p = kInvalidEntity ∨ c = kInvalidEntity
     ∨ has_transform p s = false ∨ has_transform c s = false →
     ∃ what, add_child n p c s = Throws_invalid_argument what s)
  ∧ (∀ e,
       e = kInvalidEntity ∨ has_transform e s = false →
       ∃ what, destroy n e s = Throws_invalid_argument what s).
Proof.
  split.
  - intros p c Hbad. unfold add_child.
    destruct (decide (p = kInvalidEntity)); [eauto|].
    destruct (decide (c = kInvalidEntity)); [eauto|].
    destruct (has_transform p s); simpl; [|eauto].
    destruct (has_transform c s); simpl; [|eauto].
    exfalso. destruct Hbad as [?|[?|[?|?]]]; congruence.
  - intros e Hbad. unfold destroy.
    destruct (decide (e = kInvalidEntity)); [eauto|].
    destruct (has_transform e s); simpl; [|eauto].
    exfalso. destruct Hbad as [?|?]; congruence.
Qed.

(** C10. For an entity without a record, [remove_parent] returns whatever
    the fuel: it inserts a default-constructed record (no parent, no
    children) under the entity's key, so that [has_transform] holds
    afterwards, and it leaves the world-transform table as it is; in a
    state reached by calls of the interface that table has no entry for
    the entity, before or after. *)
Theorem remove_parent_without_record n c s :
  scene_graph_transforms s !! c = None →
  ∃ s',
    remove_parent n c s = Returns () s'
    ∧ scene_graph_transforms s' = <[c := default_node]> (scene_graph_transforms s)
    ∧ parent default_node = kInvalidEntity
    ∧ children default_node = []
    ∧ has_transform c s' = true
    ∧ world_transforms s' = world_transforms s
    ∧ (reachable s → world_transforms s' !! c = None).
Proof.
  intros Hnone. exists (touch c s).
  split; [|split; [|split; [reflexivity|split; [reflexivity|split; [|split]]]]].
  - unfold remove_parent. fold (node_of (index default_node c (scene_graph_transforms s)) c).
    rewrite node_of_index, (node_of_absent _ c Hnone). simpl.
    destruct (decide (kInvalidEntity ≠ kInvalidEntity)); [contradiction|reflexivity].
  - unfold touch. simpl. apply index_absent. exact Hnone.
  - apply has_transform_true. unfold touch. simpl. apply is_Some_index.
    left. reflexivity.
  - reflexivity.
  - intros Hreach. unfold touch. simpl.
    destruct (world_transforms s !! c) as [w|] eqn:Hw; [|reflexivity].
    destruct (reachable_within s Hreach c) as [v Hv]; [eauto|]. congruence.
Qed.

(** C2, amended. In every state reached from a new transform system by
    calls that returned and that keep to the discipline of [permitted]
    ([create] for entities without a record, [add_child] for children
    without a parent, [destroy] for roots, any [remove_parent]), for all
    entities [c] and [p] with records, [p] not being the reserved value:
    [c] is in the children list of [p] exactly when the parent reference
    of [c] is [p]. *)
Theorem disciplined_links_consistent s c p :
  reachable_disciplined s → p ≠ kInvalidEntity → linked_iff s c p.
Proof.
  intros Hreach Hp. apply links_consistent_linked_iff; [|exact Hp].
  apply reachable_disciplined_links_consistent. exact Hreach.
Qed.
End transform_results.

Section system_results.
Context `{MathCore} `{TypeIds}.
Implicit Types (e : entity) (hash t : poly_typeid).

(** C7. The two example systems return false for a type tag that is not
    the one of their component and store nothing; for their own tag they
    return true and store the component under the entity, whatever was
    stored there before, leaving the other entities as they were. The
    transform system does neither: its [create] from a type tag returns
    true for every tag and stores nothing. *)
Theorem create_from_type_tag :
  (∀ e hash data s,
     hash ≠ ExSystemOne.c1 → ExSystemOne.create e hash data s = (false, s))
  ∧ (∀ e data s,
       ∃ s', ExSystemOne.create e ExSystemOne.c1 data s = (true, s')
             ∧ ExSystemOne.components s' !! e = Some data
             ∧ ∀ e', e' ≠ e →
                 ExSystemOne.components s' !! e' = ExSystemOne.components s !! e')
  ∧ (∀ e hash data s,
       hash ≠ ExSystemTwo.c2 → ExSystemTwo.create e hash data s = (false, s))
  ∧ (∀ e data s,
       ∃ s', ExSystemTwo.create e ExSystemTwo.c2 data s = (true, s')
             ∧ ExSystemTwo.components s' !! e = Some data
             ∧ ∀ e', e' ≠ e →
                 ExSystemTwo.components s' !! e' = ExSystemTwo.components s !! e')
  ∧ (∀ (D : Type) e hash (data : D) s,
       TransformSystem.create_from_typeid e hash data s = (true, s)).
Proof.
  split; [|split; [|split; [|split]]].
  - intros e hash data s Hne. unfold ExSystemOne.create.
    destruct (decide (hash ≠ ExSystemOne.c1)); [reflexivity|contradiction].
  - intros e data s. unfold ExSystemOne.create.
    destruct (decide (ExSystemOne.c1 ≠ ExSystemOne.c1)); [contradiction|].
    eexists. split; [reflexivity|]. simpl. split; [apply lookup_insert_eq|].
    intros e' Hne. apply lookup_insert_ne. congruence.
  - intros e hash data s Hne. unfold ExSystemTwo.create.
    destruct (decide (hash ≠ ExSystemTwo.c2)); [reflexivity|contradiction].
  - intros e data s. unfold ExSystemTwo.create.
    destruct (decide (ExSystemTwo.c2 ≠ ExSystemTwo.c2)); [contradiction|].
    eexists. split; [reflexivity|]. simpl. split; [apply lookup_insert_eq|].
    intros e' Hne. apply lookup_insert_ne. congruence.
  - reflexivity.
Qed.

Import EntityManager.

(** C8, amended. The first [k] calls of [create] on a new entity manager,
    for [k] below 2^64, return 1, 2, ..., [k]: identifiers that increase
    strictly, are not the reserved value, and are pairwise distinct. *)
Theorem create_identifiers k :
  N.of_nat k < uint64_modulus →
  length (create_many k new).1 = k
  ∧ (∀ i, (i < k)%nat → (create_many k new).1 !! i = Some (N.of_nat i + 1))
  ∧ (∀ i j a b, (i < j)%nat →
       (create_many k new).1 !! i = Some a →
       (create_many k new).1 !! j = Some b → a < b)
  ∧ (∀ a, a ∈ (create_many k new).1 → a ≠ kInvalidEntity)
  ∧ NoDup (create_many k new).1.
Proof.
  intros Hk.
  assert (Hlen : length (create_many k new).1 = k) by apply create_many_length.
  assert (Hnth : ∀ i a, (create_many k new).1 !! i = Some a →
                        (i < k)%nat ∧ a = N.of_nat i + 1).
  { intros i a Hi. assert (Hlt : (i < k)%nat).
    { rewrite <- Hlen. eapply lookup_lt_Some. exact Hi. }
    rewrite (create_many_new_lookup k i Hk Hlt) in Hi. split; congruence. }
  split; [exact Hlen|]. split; [|split; [|split]].
  - intros i Hi. apply create_many_new_lookup; assumption.
  - intros i j a b Hij Ha Hb.
    destruct (Hnth i a Ha) as [_ ->], (Hnth j b Hb) as [_ ->]. lia.
  - intros a Ha. apply list_elem_of_lookup in Ha as [i Hi].
    destruct (Hnth i a Hi) as [_ ->]. unfold kInvalidEntity. lia.
  - apply NoDup_alt. intros i j a Ha Hb.
    destruct (Hnth i a Ha) as [_ Hi], (Hnth j a Hb) as [_ Hj]. lia.
Qed.

(** C9. [add_system] with a null pointer leaves the entity manager as it
    is; so does [add_system] for a system type that is registered
    already, whose registration stays; of two registrations for a type
    that was not registered, the first one is kept. *)
Theorem add_system_null_or_duplicate t m :
  add_system t nullptr m = m
  ∧ (∀ system registered,
       systems m !! t = Some registered →
       add_system t system m = m
       ∧ systems (add_system t system m) !! t = Some registered)
  ∧ (∀ first second,
       first ≠ nullptr → systems m !! t = None →
       systems (add_system t first m) !! t = Some first
       ∧ add_system t second (add_system t first m) = add_system t first m).
Proof.
  split; [|split].
  - unfold add_system. destruct (decide (nullptr = nullptr)); [reflexivity|contradiction].
  - intros system registered Hreg. unfold add_system.
    destruct (decide (system = nullptr)); rewrite ?Hreg; split; auto.
  - intros first second Hfirst Hnone.
    assert (Hin : systems (add_system t first m) !! t = Some first).
    { unfold add_system. destruct (decide (first = nullptr)); [contradiction|].
      rewrite Hnone. simpl. apply lookup_insert_eq. }
    split; [exact Hin|].
    unfold add_system at 1. destruct (decide (second = nullptr)); [reflexivity|].
    rewrite Hin. reflexivity.
Qed.
End system_results.

(** * The results on the concrete instance *)

Section instances.
#[local] Existing Instance example_math.
#[local] Existing Instance example_typeids.
Import TransformSystem.

Lemma three_roots_reachable : run_calls 1 three_roots_calls initial = Some three_roots.
Proof. reflexivity. Qed.

Lemma scene_reachable : run_calls 2 scene_calls initial = Some scene.
Proof. reflexivity. Qed.

Lemma scene_disciplined : run_permitted_calls 2 scene_calls initial = Some scene.
Proof. reflexivity. Qed.

Lemma two_parents_reachable : run_calls 2 two_parents_calls initial = Some two_parents.
Proof. reflexivity. Qed.

Lemma created_twice_reachable :
  run_calls 2 created_twice_calls initial = Some created_twice.
Proof. reflexivity. Qed.

Lemma destroyed_child_reachable :
  run_calls 2 destroyed_child_calls initial = Some destroyed_child.
Proof. reflexivity. Qed.

Lemma invalid_created_reachable :
  run_calls 1 invalid_created_calls initial = Some invalid_created.
Proof. reflexivity. Qed.

(** C1 on the scene: recomputing the root, attaching 2 to 1, and the
    root 1 of the scene. *)
Lemma recalculate_world_transform_rule_witness :
  (scene_graph_transforms scene !! 1 = Some (example_node 1 [10] 0 [2; 3])
   ∧ bounded 2 (scene_graph_transforms scene) 1 = true
   ∧ ∃ s', recalculate_world_transform 2 1 scene = Some s'
       ∧ same_nodes scene s'
       ∧ (∃ w, world_transforms s' !! 1 = Some w ∧ world_pose w = [10])
       ∧ ∀ x, reach (scene_graph_transforms scene) 1 x → world_ok s' x)
  ∧ (bounded 2 (link 1 2 (scene_graph_transforms three_roots)) 1 = true
     ∧ ∃ s' rn' cn' w,
         add_child 2 1 2 three_roots = Returns true s'
         ∧ get_local_transform 1 s' = Some rn' ∧ local_pose rn' = [10]
         ∧ get_local_transform 2 s' = Some cn' ∧ local_pose cn' = [20]
         ∧ get_world_transform 2 s' = Some w
         ∧ world_pose w = local_pose cn' ++ local_pose rn')
  ∧ (reachable scene
     ∧ get_local_transform 1 scene = Some (example_node 1 [10] 0 [2; 3])
     ∧ get_world_transform 1 scene = Some (example_world 1 [10])
     ∧ world_pose (example_world 1 [10])
       = local_pose (example_node 1 [10] 0 [2; 3])).
Proof.
  destruct recalculate_world_transform_rule as (Hrule & Hadd & Hroot).
  split; [|split].
  - split; [reflexivity|]. split; [reflexivity|].
    apply (Hrule 2%nat 1 scene (example_node 1 [10] 0 [2; 3]));
      reflexivity.
  - split; [reflexivity|].
    apply (Hadd 2%nat 1 2 three_roots (example_node 1 [10] 0 [])
             (example_node 2 [20] 0 []));
      first [reflexivity|discriminate].
  - assert (Hreach : reachable scene).
    { apply (reachable_run_calls 2 scene_calls initial);
        [apply reachable_initial|reflexivity]. }
    split; [exact Hreach|]. split; [reflexivity|]. split; [reflexivity|].
    apply (Hroot scene 1 (example_node 1 [10] 0 [2; 3]) (example_world 1 [10]));
      first [exact Hreach|reflexivity].
Defined.

(** With three levels the world pose of 3 has the local pose of 2 in it
    and not the one of 1. *)
Example grandchild_world_pose :
  run_calls 3 three_levels_calls initial = Some three_levels
  ∧ get_world_transform 2 three_levels = Some (example_world 2 [20; 10])
  ∧ get_world_transform 3 three_levels = Some (example_world 3 [30; 20]).
Proof. split; [reflexivity|]. split; reflexivity. Qed.

(** C2 on the scene, which the sample program builds within the
    discipline. *)
Lemma disciplined_links_consistent_witness :
  reachable_disciplined scene ∧ 1 ≠ kInvalidEntity ∧ linked_iff scene 2 1.
Proof.
  assert (Hreach : reachable_disciplined scene).
  { apply (reachable_disciplined_run_calls 2 scene_calls initial);
      [apply disciplined_initial|reflexivity]. }
  split; [exact Hreach|]. split; [discriminate|].
  apply disciplined_links_consistent; [exact Hreach|discriminate].
Defined.

(** C2 as stated fails: after [add_child 1 3] and [add_child 2 3], entity
    3 is in the children list of 1 while its parent reference is 2. *)
Lemma links_not_always_consistent :
  ¬ (∀ s : transform_system, reachable s → ∀ c p, linked_iff s c p).
Proof.
  intros Hall.
  assert (Hreach : reachable two_parents).
  { apply (reachable_run_calls 2 two_parents_calls initial);
      [apply reachable_initial|reflexivity]. }
  destruct (Hall two_parents Hreach 3 1 (example_node 3 [30] 2 [])
              (example_node 1 [10] 0 [3]) eq_refl eq_refl) as [Hlisted _].
  assert (Hparent : parent (example_node 3 [30] 2 []) = 1).
  { apply Hlisted. simpl. left. }
  discriminate Hparent.
Qed.

(** The other ways out of the discipline break the links as well:
    creating an entity again, destroying a child that is still listed,
    and giving the reserved identifier a record. *)
Example links_after_second_create :
  reachable created_twice ∧ ¬ linked_iff created_twice 2 1.
Proof.
  split.
  - apply (reachable_run_calls 2 created_twice_calls initial);
      [apply reachable_initial|reflexivity].
  - intros Hiff.
    destruct (Hiff (example_node 2 [21] 0 []) (example_node 1 [10] 0 [2])
                eq_refl eq_refl) as [Hlisted _].
    assert (Hparent : parent (example_node 2 [21] 0 []) = 1)
      by (apply Hlisted; simpl; left).
    discriminate Hparent.
Qed.

Example links_after_destroy_of_child :
  reachable destroyed_child ∧ ¬ linked_iff destroyed_child 2 1.
Proof.
  split.
  - apply (reachable_run_calls 2 destroyed_child_calls initial);
      [apply reachable_initial|reflexivity].
  - intros Hiff.
    destruct (Hiff default_node (example_node 1 [10] 0 [2; 3])
                eq_refl eq_refl) as [Hlisted _].
    assert (Hparent : parent default_node = 1)
      by (apply Hlisted; simpl; left).
    discriminate Hparent.
Qed.

Example links_of_reserved_entity :
  reachable invalid_created ∧ ¬ linked_iff invalid_created 0 0.
Proof.
  split.
  - apply (reachable_run_calls 1 invalid_created_calls initial);
      [apply reachable_initial|reflexivity].
  - intros Hiff.
    destruct (Hiff (example_node 0 [10] 0 []) (example_node 0 [10] 0 [])
                eq_refl eq_refl) as [_ Hparent].
    specialize (Hparent eq_refl). simpl in Hparent. inversion Hparent.
Qed.

(** C3 on the scene: destroying the root erases 2, 3 and then 1. *)
Lemma destroy_removes_subtree_witness :
  reachable scene
  ∧ 1 ≠ kInvalidEntity
  ∧ has_transform 1 scene = true
  ∧ ∃ erased s',
      (∃ n, ∀ m, (n ≤ m)%nat →
         destroy_recursive m 1 scene = Some (erased, s')
         ∧ destroy m 1 scene = Returns () s')
      ∧ (∀ x, reach (scene_graph_transforms scene) 1 x →
           x ∈ erased
           ∧ scene_graph_transforms s' !! x = None
           ∧ world_transforms s' !! x = None
           ∧ get_local_transform x s' = None
           ∧ get_world_transform x s' = None
           ∧ has_transform x s' = false)
      ∧ children_first erased scene
      ∧ (∀ x, ¬ reach (scene_graph_transforms scene) 1 x →
           scene_graph_transforms s' !! x = scene_graph_transforms scene !! x
           ∧ world_transforms s' !! x = world_transforms scene !! x).
Proof.
  assert (Hreach : reachable scene).
  { apply (reachable_run_calls 2 scene_calls initial);
      [apply reachable_initial|reflexivity]. }
  split; [exact Hreach|]. split; [discriminate|]. split; [reflexivity|].
  apply (destroy_removes_subtree 1 scene);
    first [exact Hreach|discriminate|reflexivity].
Defined.

Example destroy_scene_order :
  destroy_recursive 2 1 scene = Some ([2; 3; 1], initial).
Proof. reflexivity. Qed.

(** C4, amended, on the three roots: 2 becomes the only child of 1. *)
Lemma add_child_appends_witness :
  1 ≠ kInvalidEntity ∧ 2 ≠ kInvalidEntity
  ∧ scene_graph_transforms three_roots !! 1 = Some (example_node 1 [10] 0 [])
  ∧ scene_graph_transforms three_roots !! 2 = Some (example_node 2 [20] 0 [])
  ∧ bounded 2 (link 1 2 (scene_graph_transforms three_roots)) 1 = true
  ∧ ∃ s' pn',
      add_child 2 1 2 three_roots = Returns true s'
      ∧ scene_graph_transforms s' !! 1 = Some pn'
      ∧ children pn' = [] ++ [2]
      ∧ occurrences 2 (children pn') = 1%nat
      ∧ (2 ∉ [] → occurrences 2 (children pn') = 1%nat)
      ∧ get_parent 2 s' = 1.
Proof.
  split; [discriminate|]. split; [discriminate|].
  split; [reflexivity|]. split; [reflexivity|]. split; [reflexivity|].
  apply (add_child_appends 2 1 2 three_roots (example_node 1 [10] 0 [])
           (example_node 2 [20] 0 []));
    first [discriminate|reflexivity].
Defined.

(** C4 as stated fails: in the scene 2 is a child of 1 already, and
    [add_child 1 2] returns true with 2 twice in the list; and
    [add_child 1 1], on entities that have records, does not return. *)
Lemma add_child_lists_child_twice :
  (has_transform 1 scene = true ∧ has_transform 2 scene = true
   ∧ ∃ s' pn,
       add_child 2 1 2 scene = Returns true s'
       ∧ scene_graph_transforms s' !! 1 = Some pn
       ∧ children pn = [2; 3; 2]
       ∧ occurrences 2 (children pn) ≠ 1%nat)
  ∧ ∀ n, add_child n 1 1 scene = Out_of_fuel.
Proof.
  split.
  - split; [reflexivity|]. split; [reflexivity|].
    eexists _, (example_node 1 [10] 0 [2; 3; 2]).
    split; [reflexivity|]. split; [reflexivity|]. split; [reflexivity|].
    discriminate.
  - intros n. unfold add_child. simpl.
    destruct (recalculate_world_transform n 1 _) as [s'|] eqn:Hrun; [|reflexivity].
    assert (Hb : bounded n (link 1 1 (scene_graph_transforms scene)) 1 = true).
    { apply (recalculate_returns_iff n 1
               {| scene_graph_transforms := link 1 1 (scene_graph_transforms scene);
                  world_transforms := world_transforms scene |}). eauto. }
    rewrite bounded_self_child in Hb; [discriminate|].
    rewrite children_of_link. simpl. apply elem_of_app. right. left.
Qed.

(** C5 on the scene: 2 is detached from 1. *)
Lemma remove_parent_detaches_witness :
  reachable scene
  ∧ scene_graph_transforms scene !! 2 = Some (example_node 2 [20] 1 [])
  ∧ parent (example_node 2 [20] 1 []) ≠ kInvalidEntity
  ∧ ∃ s' cn' w,
      (∃ n, ∀ m, (n ≤ m)%nat → remove_parent m 2 scene = Returns () s')
      ∧ (children_of (scene_graph_transforms s') 1
         = filter (λ x, x ≠ 2) (children_of (scene_graph_transforms scene) 1))
      ∧ (2 ∉ children_of (scene_graph_transforms s') 1)
      ∧ is_Some (scene_graph_transforms s' !! 1)
      ∧ scene_graph_transforms s' !! 2 = Some cn'
      ∧ parent cn' = kInvalidEntity
      ∧ get_parent 2 s' = kInvalidEntity
      ∧ local_pose cn' = [20]
      ∧ world_transforms s' !! 2 = Some w
      ∧ world_pose w = local_pose cn'.
Proof.
  assert (Hreach : reachable scene).
  { apply (reachable_run_calls 2 scene_calls initial);
      [apply reachable_initial|reflexivity]. }
  split; [exact Hreach|]. split; [reflexivity|]. split; [discriminate|].
  apply (remove_parent_detaches 2 scene (example_node 2 [20] 1 []));
    first [exact Hreach|discriminate|reflexivity].
Defined.

Example remove_parent_scene :
  ∃ s', remove_parent 1 2 scene = Returns () s'
        ∧ children_of (scene_graph_transforms s') 1 = [3]
        ∧ get_world_transform 2 s' = Some (example_world 2 [20]).
Proof. eexists. split; [reflexivity|]. split; reflexivity. Qed.

(** C6 on the scene: the reserved entity as parent, an entity without a
    record as child, and [destroy] of an entity without a record. *)
Lemma invalid_arguments_throw_witness :
  (0 = kInvalidEntity ∨ 2 = kInvalidEntity
   ∨ has_transform 0 scene = false ∨ has_transform 2 scene = false)
  ∧ (∃ what, add_child 2 0 2 scene = Throws_invalid_argument what scene)
  ∧ (1 = kInvalidEntity ∨ 7 = kInvalidEntity
     ∨ has_transform 1 scene = false ∨ has_transform 7 scene = false)
  ∧ (∃ what, add_child 2 1 7 scene = Throws_invalid_argument what scene)
  ∧ (7 = kInvalidEntity ∨ has_transform 7 scene = false)
  ∧ (∃ what, destroy 2 7 scene = Throws_invalid_argument what scene).
Proof.
  destruct (invalid_arguments_throw 2 scene) as [Hadd Hdestroy].
  split; [left; reflexivity|]. split; [apply Hadd; left; reflexivity|].
  split; [right; right; right; reflexivity|].
  split; [apply Hadd; right; right; right; reflexivity|].
  split; [right; reflexivity|]. apply Hdestroy. right. reflexivity.
Defined.

(** C10 on the scene: entity 7 has no record. *)
Lemma remove_parent_without_record_witness :
  scene_graph_transforms scene !! 7 = None
  ∧ ∃ s',
      remove_parent 0 7 scene = Returns () s'
      ∧ scene_graph_transforms s' = <[7 := default_node]> (scene_graph_transforms scene)
      ∧ parent default_node = kInvalidEntity
      ∧ children default_node = []
      ∧ has_transform 7 s' = true
      ∧ world_transforms s' = world_transforms scene
      ∧ (reachable scene → world_transforms s' !! 7 = None).
Proof.
  split; [reflexivity|].
  apply (remove_parent_without_record 0 7 scene). reflexivity.
Defined.

(** C7 on the concrete systems. *)
Lemma create_from_type_tag_witness :
  (2 ≠ ExSystemOne.c1
   ∧ ExSystemOne.create 5 2
       {| physics_entity := 9; physics_value1 := 1; physics_value2 := 2;
          physics_value3 := 3 |}
       {| ExSystemOne.components := ∅ |}
     = (false, {| ExSystemOne.components := ∅ |}))
  ∧ (1 ≠ ExSystemTwo.c2
     ∧ ExSystemTwo.create 5 1
         {| render_entity := 9; render_value1 := 1; render_value2 := 2;
            render_value3 := 3 |}
         {| ExSystemTwo.components := ∅ |}
       = (false, {| ExSystemTwo.components := ∅ |}))
  ∧ create_from_typeid 5 typeid_physics_component
      {| physics_entity := 9; physics_value1 := 1; physics_value2 := 2;
         physics_value3 := 3 |} scene
    = (true, scene).
Proof.
  destruct create_from_type_tag as (Hone & _ & Htwo & _ & Hxform).
  split; [split; [discriminate|apply Hone; discriminate]|].
  split; [split; [discriminate|apply Htwo; discriminate]|].
  apply Hxform.
Defined.

Import EntityManager.

(** C8, amended, for three calls. *)
Lemma create_identifiers_witness :
  N.of_nat 3 < uint64_modulus
  ∧ length (create_many 3 new).1 = 3%nat
  ∧ (∀ i, (i < 3)%nat → (create_many 3 new).1 !! i = Some (N.of_nat i + 1))
  ∧ (∀ i j a b, (i < j)%nat →
       (create_many 3 new).1 !! i = Some a →
       (create_many 3 new).1 !! j = Some b → a < b)
  ∧ (∀ a, a ∈ (create_many 3 new).1 → a ≠ kInvalidEntity)
  ∧ NoDup (create_many 3 new).1.
Proof.
  split; [reflexivity|]. apply (create_identifiers 3). reflexivity.
Defined.

Example create_three : (create_many 3 new).1 = [1; 2; 3].
Proof. reflexivity. Qed.

(** C8 as stated fails: call number 2^64 on a new entity manager returns
    the reserved identifier. *)
Lemma create_wraps_to_invalid :
  (create_many (N.to_nat uint64_modulus) new).1 !! N.to_nat (uint64_modulus - 1)
  = Some kInvalidEntity.
Proof.
  rewrite create_many_lookup.
  - rewrite N2Nat.id. reflexivity.
  - unfold uint64_modulus. lia.
Qed.

(** C9 on an entity manager with one registered system. *)
Lemma add_system_null_or_duplicate_witness :
  add_system example_system_type nullptr example_manager = example_manager
  ∧ (systems example_manager !! example_system_type = Some 100
     ∧ add_system example_system_type 200 example_manager = example_manager
     ∧ systems (add_system example_system_type 200 example_manager)
         !! example_system_type = Some 100)
  ∧ (100 ≠ nullptr ∧ systems new !! example_system_type = None
     ∧ systems (add_system example_system_type 100 new) !! example_system_type
       = Some 100
     ∧ add_system example_system_type 200 (add_system example_system_type 100 new)
       = add_system example_system_type 100 new).
Proof.
  destruct (add_system_null_or_duplicate example_system_type example_manager)
    as (Hnull & Hdup & _).
  destruct (add_system_null_or_duplicate example_system_type new)
    as (_ & _ & Hfirst).
  split; [exact Hnull|]. split.
  - split; [reflexivity|]. apply (Hdup 200 100). reflexivity.
  - split; [discriminate|]. split; [reflexivity|].
    apply (Hfirst 100 200); [discriminate|reflexivity].
Defined.
End instances.

(** * Further properties of the transform system *)

Section hierarchy_facts.
Context `{MathCore} `{TypeIds}.
Import TransformSystem.
Implicit Types (s : transform_system) (e x c p : entity) (n : nat).
Implicit Types (sg : gmap entity scene_graph_component).

(** Through an entity of an endless set no hierarchy is bounded. *)
Lemma endless_unbounded n s (C : entity → Prop) e :
  endless C s → C e → bounded n (scene_graph_transforms s) e = false.
Proof.
  intros HC. revert e. induction n as [|n IH]; intros e He; [reflexivity|].
  destruct (bounded (S n) (scene_graph_transforms s) e) eqn:Hb; [|reflexivity].
  destruct (HC e He) as (y & Hy & Hin).
  specialize (IH y Hy).
  rewrite (proj1 (bounded_spec n _ e) Hb y Hin) in IH. discriminate.
Qed.

(** The entities on a cycle through [e] form an endless set. *)
Lemma cycle_endless s e c :
  c ∈ children_of (scene_graph_transforms s) e →
  reach (scene_graph_transforms s) c e →
  endless (λ y, reach (scene_graph_transforms s) e y
                ∧ reach (scene_graph_transforms s) y e) s.
Proof.
  intros Hc Hce y [Hey Hye].
  apply reach_inv in Hye as [->|(y' & Hy' & Hrest)].
  - exists c. split; [|exact Hc]. split; [|exact Hce].
    eapply reach_child; [apply reach_self|exact Hc].
  - exists y'. split; [|exact Hy']. split; [|exact Hrest].
    eapply reach_child; [exact Hey|exact Hy'].
Qed.

Lemma bounded_acyclic n s e c :
  bounded n (scene_graph_transforms s) e = true →
  c ∈ children_of (scene_graph_transforms s) e →
  ¬ reach (scene_graph_transforms s) c e.
Proof.
  intros Hb Hc Hce.
  rewrite (endless_unbounded n s _ e (cycle_endless s e c Hc Hce)) in Hb;
    [discriminate|].
  split; apply reach_self.
Qed.

(** Adding an edge to [p] changes nothing below an entity from which [p]
    is not found. *)
Lemma bounded_link_away n sg p c e :
  ¬ reach sg e p →
  bounded n sg e = true → bounded n (link p c sg) e = true.
Proof.
  revert e. induction n as [|n IH]; intros e Hep Hb; [discriminate|].
  apply bounded_spec. intros y Hy. rewrite children_of_link in Hy.
  destruct (decide (e = p)) as [->|Hne]; [exfalso; apply Hep, reach_self|].
  apply IH.
  - intros Hyp. apply Hep. eapply reach_child_first; eassumption.
  - apply (proj1 (bounded_spec n sg e) Hb y Hy).
Qed.

Lemma reach_link_mono sg p c e x : reach sg e x → reach (link p c sg) e x.
Proof.
  induction 1 as [|y z _ IH Hz]; [apply reach_self|].
  eapply reach_child; [exact IH|]. rewrite children_of_link.
  destruct (decide (y = p)) as [->|_]; [|exact Hz].
  apply elem_of_app. left. exact Hz.
Qed.

(** The reserved identifier stays out of the children lists. *)
Lemma run_call_no_invalid_child n k s s' :
  no_invalid_child s → run_call n k s = Some s' → no_invalid_child s'.
Proof.
  intros Hinv Hrun. destruct k as [e lp ls|p c|c|e]; simpl in Hrun;
    apply returned_Some in Hrun as [a Hrun].
  - apply create_inv in Hrun as [_ ->]. intros x. simpl.
    unfold children_of. rewrite node_of_insert.
    destruct (decide (e = x)); [inversion 1|apply Hinv].
  - apply add_child_inv in Hrun as (_ & _ & Hc & _ & _ & Hrun).
    intros x. rewrite (same_nodes_children _ s' x (recalculate_same_nodes _ _ _ _ Hrun)).
    simpl. rewrite children_of_link. destruct (decide (x = p)); [|apply Hinv].
    intros Hin. apply elem_of_app in Hin as [Hin|Hin]; [exact (Hinv _ Hin)|].
    apply list_elem_of_singleton in Hin. congruence.
  - apply remove_parent_inv in Hrun as [[_ Hrun]|[_ ->]].
    + intros x.
      rewrite (same_nodes_children _ s' x (recalculate_same_nodes _ _ _ _ Hrun)).
      simpl. rewrite children_of_unlink. destruct (decide _); [|apply Hinv].
      intros Hin. apply list_elem_of_filter in Hin as [_ Hin]. exact (Hinv _ Hin).
    + intros x. rewrite (same_nodes_children s (touch c s) x (touch_same_nodes c s)).
      apply Hinv.
  - apply destroy_inv in Hrun as (_ & _ & t & Hrun).
    intros x Hin. apply (Hinv x).
    eapply (removed_shrinks t s s'); [|exact Hin].
    eapply destroy_recursive_spec. exact Hrun.
Qed.

Lemma reachable_no_invalid_child s : reachable s → no_invalid_child s.
Proof.
  induction 1 as [|s fuel k s' _ IH Hrun].
  - intros x Hin. apply children_of_present in Hin.
    unfold initial in Hin. simpl in Hin. rewrite lookup_empty in Hin.
    destruct Hin as [? [=]].
  - eapply run_call_no_invalid_child; eassumption.
Qed.
End hierarchy_facts.

Section transform_extras.
Context `{MathCore} `{TypeIds}.
Import TransformSystem.
Implicit Types (s : transform_system) (e x c p : entity) (n : nat).

(** X1. [create], with fuel for one call, returns true whatever the
    entity and the state: afterwards the entity has a record with the
    given pose and scale, no parent and no children (also when it had a
    record with links before), its world pose is the given pose, the
    lookups find both, and the records of all other entities are as they
    were. *)
Theorem create_stores n e lp ls s :
  ∃ s',
    create (S n) e lp ls s = Returns true s'
    ∧ has_transform e s' = true
    ∧ scene_graph_transforms s' !! e
      = Some {| sg_entity := e; local_pose := lp; local_scale := ls;
                parent := kInvalidEntity; children := [] |}
    ∧ world_transforms s' !! e = Some {| wt_entity := e; world_pose := lp |}
    ∧ (e ≠ kInvalidEntity →
         get_local_transform e s' = scene_graph_transforms s' !! e
         ∧ get_world_transform e s' = world_transforms s' !! e
         ∧ get_parent e s' = kInvalidEntity)
    ∧ (∀ x, x ≠ e →
         scene_graph_transforms s' !! x = scene_graph_transforms s !! x
         ∧ world_transforms s' !! x = world_transforms s !! x).
Proof.
  eexists. split; [apply create_returns|]. simpl.
  split; [|split; [apply lookup_insert_eq|split; [apply lookup_insert_eq|split]]].
  - apply has_transform_true. simpl. rewrite lookup_insert_eq. eauto.
  - intros He. unfold get_local_transform, get_world_transform, get_parent. simpl.
    destruct (decide (e = kInvalidEntity)); [contradiction|].
    rewrite lookup_insert_eq. simpl.
    destruct (decide (kInvalidEntity ≠ kInvalidEntity)); [contradiction|].
    split; [reflexivity|]. split; reflexivity.
  - intros x Hx. rewrite !lookup_insert_ne by congruence. split; reflexivity.
Qed.

(** X2. [create] does not reject the reserved identifier: it returns
    true and stores a record under key 0, which [has_transform] reports
    and which neither lookup returns; [destroy] throws for it. In the
    states reached by calls of the interface the reserved identifier is
    in no children list, and a record under key 0 is never removed by a
    later call. *)
Theorem reserved_entity_record :
  (∀ n lp ls s,
     ∃ s', create (S n) kInvalidEntity lp ls s = Returns true s'
       ∧ has_transform kInvalidEntity s' = true
       ∧ get_local_transform kInvalidEntity s' = None
       ∧ get_world_transform kInvalidEntity s' = None
       ∧ ∀ m, ∃ what, destroy m kInvalidEntity s' = Throws_invalid_argument what s')
  ∧ (∀ s, reachable s → no_invalid_child s)
  ∧ (∀ s n k s',
       reachable s →
       has_transform kInvalidEntity s = true →
       run_call n k s = Some s' →
       has_transform kInvalidEntity s' = true).
Proof.
  split; [|split].
  - intros n lp ls s. eexists. split; [apply create_returns|].
    split; [|split; [reflexivity|split; [reflexivity|]]].
    + apply has_transform_true. simpl. rewrite lookup_insert_eq. eauto.
    + intros m. eexists. reflexivity.
  - apply reachable_no_invalid_child.
  - intros s n k s' Hreach Hhas Hrun. apply has_transform_true in Hhas.
    apply has_transform_true.
    destruct k as [e lp ls|p c|c|e]; simpl in Hrun;
      apply returned_Some in Hrun as [a Hrun].
    + apply create_inv in Hrun as [_ ->]. simpl.
      destruct (decide (e = kInvalidEntity)) as [->|Hne].
      * rewrite lookup_insert_eq. eauto.
      * rewrite lookup_insert_ne by exact Hne. exact Hhas.
    + apply add_child_inv in Hrun as (_ & _ & _ & _ & _ & Hrun).
      assert (Hl : is_Some (link p c (scene_graph_transforms s) !! kInvalidEntity))
        by (apply is_Some_link; tauto).
      destruct Hl as [v Hv].
      rewrite (recalculate_keeps_records _ _ _ _ Hrun _ v Hv). eauto.
    + apply remove_parent_inv in Hrun as [[_ Hrun]|[_ ->]].
      * assert (Hl : is_Some (unlink (parent_of (scene_graph_transforms s) c) c
                                (index default_node c (scene_graph_transforms s))
                              !! kInvalidEntity))
          by (apply is_Some_unlink; tauto).
        destruct Hl as [v Hv].
        rewrite (recalculate_keeps_records _ _ _ _ Hrun _ v Hv). eauto.
      * unfold touch. simpl. apply is_Some_index. right. exact Hhas.
    + apply destroy_inv in Hrun as (He & _ & t & Hrun).
      destruct (destroy_recursive_spec n e s t s' Hrun) as (Hrem & _ & Hbelow).
      rewrite (proj1 (Hrem kInvalidEntity)).
      destruct (decide (kInvalidEntity ∈ t)) as [Hin|_]; [|exact Hhas].
      exfalso. destruct (Hbelow _ Hin) as (e' & He' & Hr).
      apply list_elem_of_singleton in He' as ->.
      apply reach_last in Hr as [Heq|(y & _ & Hy)]; [congruence|].
      exact (reachable_no_invalid_child s Hreach y Hy).
Qed.

(** X3. In a state reached by calls of the interface, for a parent and a
    child that pass the four checks, [add_child] returns (with some
    fuel) exactly when the parent is not found from the child through
    children lists; when it is (the child is the parent itself or one of
    its ancestors), the recursion of the recomputation does not end,
    whatever the fuel. *)
Theorem add_child_returns_iff p c s :
  reachable s →
  p ≠ kInvalidEntity → c ≠ kInvalidEntity →
  has_transform p s = true → has_transform c s = true →
  ((∃ n b s', add_child n p c s = Returns b s')
   ↔ ¬ reach (scene_graph_transforms s) c p)
  ∧ (reach (scene_graph_transforms s) c p → ∀ n, add_child n p c s = Out_of_fuel).
Proof.
  intros Hreach Hp Hc Hhp Hhc.
  set (t := {| scene_graph_transforms := link p c (scene_graph_transforms s);
               world_transforms := world_transforms s |}).
  assert (Hguards : ∀ n, add_child n p c s =
            match recalculate_world_transform n p t with
            | Some s' => Returns true s'
            | None => Out_of_fuel
            end).
  { intros n. unfold add_child.
    destruct (decide (p = kInvalidEntity)); [contradiction|].
    destruct (decide (c = kInvalidEntity)); [contradiction|].
    rewrite Hhp, Hhc. reflexivity. }
  assert (Hcycle : reach (scene_graph_transforms s) c p →
                   ∀ n, recalculate_world_transform n p t = None).
  { intros Hcp n.
    destruct (recalculate_world_transform n p t) as [s'|] eqn:Hrun; [|reflexivity].
    exfalso.
    assert (Hb : bounded n (scene_graph_transforms t) p = true)
      by (apply recalculate_returns_iff; eauto).
    apply (bounded_acyclic n t p c Hb).
    - simpl. rewrite children_of_link.
      destruct (decide (p = p)); [|contradiction]. apply elem_of_app. right. left.
    - simpl. apply reach_link_mono. exact Hcp. }
  split; [split|].
  - intros (n & b & s' & Hrun) Hcp. rewrite Hguards, (Hcycle Hcp n) in Hrun.
    discriminate.
  - intros Hncp. destruct (reachable_depth_bounded s Hreach) as [k Hk].
    assert (Hb : bounded (S k) (scene_graph_transforms t) p = true).
    { apply bounded_spec. intros y Hy. simpl in *. rewrite children_of_link in Hy.
      destruct (decide (p = p)); [|contradiction].
      apply bounded_link_away; [|apply Hk].
      apply elem_of_app in Hy as [Hy|Hy].
      - eapply (bounded_acyclic k s p y); [apply Hk|exact Hy].
      - apply list_elem_of_singleton in Hy as ->. exact Hncp. }
    destruct (recalculate_returns (S k) p t Hb) as [s' Hrun].
    exists (S k), true, s'. rewrite Hguards, Hrun. reflexivity.
  - intros Hcp n. rewrite Hguards, (Hcycle Hcp n). reflexivity.
Qed.

(** X4. In a state reached by calls of the interface the children lists
    form no cycle: no entity is found, through children lists, from one
    of its own children, and none is its own child. *)
Theorem reachable_acyclic s e c :
  reachable s →
  c ∈ children_of (scene_graph_transforms s) e →
  ¬ reach (scene_graph_transforms s) c e ∧ c ≠ e.
Proof.
  intros Hreach Hc. destruct (reachable_depth_bounded s Hreach) as [n Hn].
  assert (Hno : ¬ reach (scene_graph_transforms s) c e)
    by (eapply bounded_acyclic; [apply Hn|exact Hc]).
  split; [exact Hno|]. intros ->. apply Hno, reach_self.
Qed.

(** X5. In a state reached by calls of the interface every entity for
    which [get_world_transform] finds a world transform has a scene-graph
    record. *)
Theorem world_transform_has_record s e w :
  reachable s →
  get_world_transform e s = Some w →
  has_transform e s = true ∧ is_Some (get_local_transform e s).
Proof.
  intros Hreach Hw. unfold get_world_transform, get_local_transform in *.
  destruct (decide (e = kInvalidEntity)); [discriminate|].
  assert (Hs : is_Some (scene_graph_transforms s !! e))
    by (apply (reachable_within s Hreach); eauto).
  split; [apply has_transform_true|]; exact Hs.
Qed.

(** X6. [destroy] does not detach: in a state reached by calls of the
    interface, when an entity that is in the children list of [p] is
    destroyed, the call returns, the entity has no record afterwards, and
    the record of [p] is as before, with the destroyed entity still in
    its children list. *)
Theorem destroy_leaves_parent_entry c p s pn :
  reachable s →
  c ≠ kInvalidEntity →
  has_transform c s = true →
  scene_graph_transforms s !! p = Some pn →
  c ∈ children pn →
  ∃ s',
    (∃ n, ∀ m, (n ≤ m)%nat → destroy m c s = Returns () s')
    ∧ has_transform c s' = false
    ∧ scene_graph_transforms s' !! p = Some pn.
Proof.
  intros Hreach Hc Hhas Hpn Hin.
  destruct (reachable_depth_bounded s Hreach) as [n Hn].
  destruct (destroy_removes_subtree_bounded n c s Hc Hhas (Hn c))
    as (erased & s' & _ & Hrun & Hgone & _ & Hframe).
  exists s'. split; [|split].
  - exists n. intros m Hm. eapply destroy_more_fuel; eassumption.
  - apply (Hgone c (reach_self _ c)).
  - destruct (Hframe p) as [-> _]; [|exact Hpn].
    eapply (bounded_acyclic n s p c); [apply Hn|].
    unfold children_of. rewrite (node_of_present _ p pn Hpn). exact Hin.
Qed.

(** X7. [remove_parent] is idempotent: in the state in which a call has
    returned, a second call for the same entity returns at once, whatever
    the fuel, and changes nothing. *)
Theorem remove_parent_idempotent n c s u s' :
  remove_parent n c s = Returns u s' →
  ∀ m, remove_parent m c s' = Returns () s'.
Proof.
  intros Hrun m.
  assert (Hc : ∃ cn, scene_graph_transforms s' !! c = Some cn
                     ∧ parent cn = kInvalidEntity).
  { apply remove_parent_inv in Hrun as [[Hp Hrun]|[Hp ->]].
    - assert (Hl : is_Some (unlink (parent_of (scene_graph_transforms s) c) c
                              (index default_node c (scene_graph_transforms s)) !! c))
        by (apply is_Some_unlink; tauto).
      destruct Hl as [v Hv]. exists v.
      split; [exact (recalculate_keeps_records _ _ _ _ Hrun _ v Hv)|].
      pose proof (parent_of_unlink (scene_graph_transforms s)
                    (parent_of (scene_graph_transforms s) c) c c) as Hpar.
      destruct (decide (c = c)); [|contradiction].
      unfold parent_of at 1 in Hpar. rewrite (node_of_present _ c v Hv) in Hpar.
      exact Hpar.
    - unfold touch. simpl. rewrite lookup_index_eq. eexists. split; [reflexivity|].
      exact Hp. }
  destruct Hc as (cn & Hcn & Hpar).
  unfold remove_parent. rewrite (index_present default_node c _ cn Hcn).
  rewrite (at_key_present default_node c _ cn Hcn).
  destruct (decide (parent cn ≠ kInvalidEntity)); [contradiction|].
  destruct s'. reflexivity.
Qed.
End transform_extras.

Section world_cache.
Context `{MathCore} `{TypeIds}.
Import TransformSystem.
Implicit Types (s : transform_system) (e x c p : entity) (n : nat).
Implicit Types (sg : gmap entity scene_graph_component).

Lemma node_of_link sg p c x :
  node_of (link p c sg) x =
  let n := node_of sg x in
  let n1 := if decide (p = x) then set_children (children n ++ [c]) n else n in
  if decide (c = x) then set_parent p n1 else n1.
Proof.
  unfold link. rewrite !node_of_alter_index.
  repeat case_decide; subst; simpl; try reflexivity; congruence.
Qed.

(** The pose of the rule depends on the parent reference of the entity,
    on its local pose and, when it has a parent, on the local pose of
    the parent only. *)
Lemma expected_pose_ext sg sg' x :
  parent_of sg' x = parent_of sg x →
  local_pose (node_of sg' x) = local_pose (node_of sg x) →
  (parent_of sg x ≠ kInvalidEntity →
   local_pose (node_of sg' (parent_of sg x))
   = local_pose (node_of sg (parent_of sg x))) →
  expected_pose sg' x = expected_pose sg x.
Proof.
  unfold expected_pose, parent_of. intros -> -> Hp.
  destruct (decide _) as [Hnz|_]; [|reflexivity]. rewrite (Hp Hnz). reflexivity.
Qed.

Lemma recalculate_world_consistent n e s s' :
  recalculate_world_transform n e s = Some s' →
  (∀ y w, world_transforms s !! y = Some w →
          reach (scene_graph_transforms s) e y
          ∨ world_pose w = expected_pose (scene_graph_transforms s) y) →
  world_consistent s'.
Proof.
  intros Hrun Hpre y w Hw.
  pose proof (recalculate_same_nodes n e s s' Hrun) as Hsame.
  assert (Hreached : reach (scene_graph_transforms s) e y →
                     world_pose w = expected_pose (scene_graph_transforms s') y).
  { intros Hr.
    destruct (recalculate_reach_world_ok n e s s' Hrun y Hr) as (w' & Hw' & Hpose).
    congruence. }
  destruct (recalculate_frame n e s s' Hrun y) as [Hr|Hsame_w]; [auto|].
  rewrite Hsame_w in Hw.
  destruct (Hpre y w Hw) as [Hr|Hpose]; [auto|].
  rewrite (same_nodes_expected s s' y Hsame). exact Hpose.
Qed.

(** A call made within the discipline keeps the world poses consistent
    with the rule. *)
Lemma run_call_world_consistent n k s s' :
  links_consistent (scene_graph_transforms s) →
  world_consistent s →
  permitted k s = true →
  run_call n k s = Some s' →
  world_consistent s'.
Proof.
  intros Hlinks Hinv Hperm Hrun.
  destruct k as [e lp ls|p c|c|e]; simpl in Hrun, Hperm;
    apply returned_Some in Hrun as [a Hrun].
  - apply create_inv in Hrun as [_ ->].
    apply negb_true_iff, has_transform_false in Hperm.
    intros y w. simpl. destruct (decide (e = y)) as [->|Hne].
    + rewrite lookup_insert_eq. intros [= <-]. simpl.
      unfold expected_pose. rewrite node_of_insert.
      destruct (decide (y = y)); [|contradiction]. simpl.
      destruct (decide (kInvalidEntity ≠ kInvalidEntity)); [contradiction|reflexivity].
    + rewrite lookup_insert_ne by exact Hne. intros Hw.
      rewrite (Hinv y w Hw). symmetry. apply expected_pose_ext.
      * unfold parent_of. rewrite node_of_insert.
        destruct (decide (e = y)); [contradiction|reflexivity].
      * rewrite node_of_insert.
        destruct (decide (e = y)); [contradiction|reflexivity].
      * intros Hnz. rewrite node_of_insert.
        destruct (decide (e = parent_of (scene_graph_transforms s) y)) as [He|_];
          [|reflexivity].
        exfalso. destruct Hlinks as (_ & H2 & _).
        destruct (H2 y Hnz) as [[v Hv] _]. rewrite <- He in Hv. congruence.
  - apply add_child_inv in Hrun as (_ & Hp & Hc & Hsp & Hsc & Hrun).
    eapply recalculate_world_consistent; [exact Hrun|]. simpl. intros y w Hw.
    destruct (decide (y = c)) as [->|Hyc].
    + left. eapply reach_child; [apply reach_self|].
      rewrite children_of_link. destruct (decide (p = p)); [|contradiction].
      apply elem_of_app. right. left.
    + right. rewrite (Hinv y w Hw). symmetry. apply expected_pose_ext.
      * rewrite parent_of_link. destruct (decide (y = c)); [contradiction|reflexivity].
      * apply local_pose_link.
      * intros _. apply local_pose_link.
  - apply remove_parent_inv in Hrun as [[Hp Hrun]|[Hp ->]].
    + eapply recalculate_world_consistent; [exact Hrun|]. simpl. intros y w Hw.
      destruct (decide (y = c)) as [->|Hyc]; [left; apply reach_self|].
      right. rewrite (Hinv y w Hw). symmetry. apply expected_pose_ext.
      * rewrite parent_of_unlink.
        destruct (decide (y = c)); [contradiction|reflexivity].
      * apply local_pose_unlink.
      * intros _. apply local_pose_unlink.
    + intros y w Hw. unfold touch in *. simpl in *.
      rewrite (Hinv y w Hw). symmetry. apply expected_pose_ext.
      * unfold parent_of. rewrite node_of_index. reflexivity.
      * rewrite node_of_index. reflexivity.
      * intros _. rewrite node_of_index. reflexivity.
  - apply destroy_inv in Hrun as (He & Hse & t & Hrun).
    destruct (destroy_recursive_spec n e s t s' Hrun) as (Hrem & Hfirst & _).
    intros y w Hw. rewrite (proj2 (Hrem y)) in Hw.
    destruct (decide (y ∈ t)) as [|Hout]; [discriminate|].
    rewrite (Hinv y w Hw). symmetry. apply expected_pose_ext.
    + unfold parent_of. rewrite (removed_outside t s s' y Hrem Hout). reflexivity.
    + rewrite (removed_outside t s s' y Hrem Hout). reflexivity.
    + intros Hnz. rewrite (removed_outside t s s' _ Hrem); [reflexivity|].
      intros Hpt. apply Hout. destruct Hlinks as (_ & H2 & _).
      destruct (H2 y Hnz) as [_ Hin].
      destruct (Hfirst _ Hpt) as (l1 & l2 & -> & Hl1).
      apply elem_of_app. left. apply Hl1. exact Hin.
Qed.

Lemma reachable_disciplined_world_consistent s :
  reachable_disciplined s → world_consistent s.
Proof.
  induction 1 as [|s fuel k s' Hs IH Hperm Hrun].
  - intros y w Hw. unfold initial in Hw. simpl in Hw.
    rewrite lookup_empty in Hw. discriminate.
  - eapply run_call_world_consistent; [|exact IH|exact Hperm|exact Hrun].
    apply reachable_disciplined_links_consistent. exact Hs.
Qed.

(** A recomputation keeps the entries of the world-transform table and
    the entity each one names. *)
Lemma recalculate_keeps_world_keys n e s s' :
  recalculate_world_transform n e s = Some s' →
  ∀ x w, world_transforms s !! x = Some w →
         ∃ w', world_transforms s' !! x = Some w' ∧ wt_entity w' = wt_entity w.
Proof.
  revert e s s'. induction n as [|n IH]; intros e s s' Hrun; [discriminate|].
  rewrite recalculate_unfold in Hrun.
  assert (Hvisit : ∀ x w, world_transforms s !! x = Some w →
            ∃ w', world_transforms (visit e s) !! x = Some w'
                  ∧ wt_entity w' = wt_entity w).
  { intros x w Hw. unfold visit. simpl. destruct (decide (e = x)) as [->|Hne].
    - rewrite lookup_alter_eq, (index_keeps default_world x x _ w Hw). simpl.
      eexists. split; reflexivity.
    - rewrite lookup_alter_ne, lookup_index_ne by exact Hne. eauto. }
  assert (Hloop : ∀ x w, world_transforms (visit e s) !! x = Some w →
            ∃ w', world_transforms s' !! x = Some w' ∧ wt_entity w' = wt_entity w).
  { eapply (for_each_preorder _
              (λ t t', ∀ x w, world_transforms t !! x = Some w →
                 ∃ w', world_transforms t' !! x = Some w'
                       ∧ wt_entity w' = wt_entity w));
      [| | |exact Hrun].
    - intros t x w Hx. eauto.
    - intros t1 t2 t3 H12 H23 x w Hx.
      destruct (H12 x w Hx) as (w2 & Hw2 & <-). apply (H23 x w2 Hw2).
    - intros c t t' _ Hc. exact (IH c t t' Hc). }
  intros x w Hw. destruct (Hvisit x w Hw) as (w1 & Hw1 & <-).
  apply (Hloop x w1 Hw1).
Qed.

Lemma filter_all (P : entity → Prop) `{!∀ y, Decision (P y)} (l : list entity) :
  (∀ y, y ∈ l → P y) → filter P l = l.
Proof.
  induction l as [|a l IH]; intros Hall; [reflexivity|].
  rewrite filter_cons_True by (apply Hall; left).
  f_equal. apply IH. intros y Hy. apply Hall. right. exact Hy.
Qed.

(** Linking a root that is not yet listed, then unlinking it, gives the
    table back. *)
Lemma unlink_link sg p c pn cn :
  p ≠ c →
  sg !! p = Some pn → sg !! c = Some cn →
  parent cn = kInvalidEntity → c ∉ children pn →
  unlink p c (index default_node c (link p c sg)) = sg.
Proof.
  intros Hpc Hpn Hcn Hroot Hnew. apply map_eq. intros x.
  assert (Hkeys : is_Some (unlink p c (index default_node c (link p c sg)) !! x)
                  ↔ is_Some (sg !! x)).
  { rewrite is_Some_unlink, is_Some_link. split; [|tauto].
    intros [->|[->|[->|[->|Hx]]]]; eauto. }
  assert (Hnode : node_of (unlink p c (index default_node c (link p c sg))) x
                  = node_of sg x).
  { rewrite node_of_unlink, node_of_link. simpl.
    destruct (decide (p = x)) as [Hpx|Hpx], (decide (c = x)) as [Hcx|Hcx];
      try congruence; subst; simpl.
    - rewrite (node_of_present sg x pn Hpn). unfold set_children. simpl.
      rewrite filter_app, filter_cons_False, filter_nil, app_nil_r by tauto.
      rewrite filter_all.
      + destruct pn; reflexivity.
      + intros y Hy ->. contradiction.
    - rewrite (node_of_present sg x cn Hcn). unfold set_parent. simpl.
      rewrite <- Hroot. destruct cn; reflexivity. }
  unfold node_of, at_key in Hnode.
  destruct (unlink p c (index default_node c (link p c sg)) !! x) as [v1|] eqn:E1,
    (sg !! x) as [v2|] eqn:E2; simpl in Hnode.
  - congruence.
  - exfalso. destruct (proj1 Hkeys) as [? [=]]. eauto.
  - exfalso. destruct (proj2 Hkeys) as [? [=]]. eauto.
  - reflexivity.
Qed.
End world_cache.

Section frame_extras.
Context `{MathCore} `{TypeIds}.
Import TransformSystem.
Implicit Types (s : transform_system) (e x c p : entity) (n : nat).
Implicit Types (sg : gmap entity scene_graph_component).

Lemma reach_link_inv sg p c e x :
  reach (link p c sg) e x → reach sg e x ∨ reach sg c x.
Proof.
  induction 1 as [|y z _ IH Hz]; [left; apply reach_self|].
  rewrite children_of_link in Hz. destruct (decide (y = p)) as [->|_].
  - apply elem_of_app in Hz as [Hz|Hz].
    + destruct IH as [IH|IH]; [left|right]; eapply reach_child; eassumption.
    + apply list_elem_of_singleton in Hz as ->. right. apply reach_self.
  - destruct IH as [IH|IH]; [left|right]; eapply reach_child; eassumption.
Qed.

Lemma reach_unlink_inv sg p c e x :
  reach (unlink p c (index default_node c sg)) e x → reach sg e x.
Proof.
  induction 1 as [|y z _ IH Hz]; [apply reach_self|].
  eapply reach_child; [exact IH|]. rewrite children_of_unlink in Hz.
  destruct (decide (y = p)) as [->|_]; [|exact Hz].
  apply list_elem_of_filter in Hz as [_ Hz]. exact Hz.
Qed.

Lemma lookup_link_ne sg p c x : x ≠ p → x ≠ c → link p c sg !! x = sg !! x.
Proof.
  intros Hp Hc. unfold link.
  rewrite lookup_alter_ne, lookup_index_ne, lookup_alter_ne, lookup_index_ne
    by congruence. reflexivity.
Qed.

Lemma lookup_unlink_ne sg p c x :
  x ≠ p → x ≠ c → unlink p c (index default_node c sg) !! x = sg !! x.
Proof.
  intros Hp Hc. unfold unlink.
  rewrite lookup_alter_ne, lookup_alter_ne, !lookup_index_ne by congruence.
  reflexivity.
Qed.

(** X8. Attaching and detaching again gives the scene graph back: in a
    state reached within the discipline, when [add_child p c] for a
    child without parent has returned, [remove_parent c] returns, and
    afterwards the scene-graph table is the one before [add_child] and
    every world transform of before is unchanged. *)
Theorem add_child_remove_parent_restores n p c s b s1 :
  reachable_disciplined s →
  get_parent c s = kInvalidEntity →
  add_child n p c s = Returns b s1 →
  ∃ s2,
    (∃ k, ∀ m, (k ≤ m)%nat → remove_parent m c s1 = Returns () s2)
    ∧ scene_graph_transforms s2 = scene_graph_transforms s
    ∧ (∀ x w, world_transforms s !! x = Some w →
              world_transforms s2 !! x = Some w).
Proof.
  intros Hs Hroot Hadd.
  pose proof (reachable_disciplined_links_consistent s Hs) as Hlinks.
  assert (Hs1 : reachable_disciplined s1).
  { eapply (disciplined_call s n (Add_child p c)); [exact Hs| |].
    - simpl. apply bool_decide_eq_true. exact Hroot.
    - simpl. rewrite Hadd. reflexivity. }
  pose proof (reachable_disciplined_links_consistent s1 Hs1) as Hlinks1.
  apply add_child_inv in Hadd as (_ & Hp & Hc & [pn Hpn] & [cn Hcn] & Hrec).
  rewrite get_parent_parent_of in Hroot.
  destruct (decide (c = kInvalidEntity)); [contradiction|].
  assert (Hcn0 : parent cn = kInvalidEntity).
  { unfold parent_of in Hroot. rewrite (node_of_present _ c cn Hcn) in Hroot.
    exact Hroot. }
  assert (Hlink : links_consistent (link p c (scene_graph_transforms s)))
    by (apply links_consistent_link; eauto).
  assert (Hsg1 : scene_graph_transforms s1 = link p c (scene_graph_transforms s)).
  { rewrite (recalculate_closed n p
               {| scene_graph_transforms := link p c (scene_graph_transforms s);
                  world_transforms := world_transforms s |} s1
               (links_consistent_closed _ Hlink)
               (proj2 (is_Some_link _ p c p) (or_intror (or_introl eq_refl))) Hrec).
    reflexivity. }
  assert (Hpc : p ≠ c).
  { intros ->. destruct (reachable_depth_bounded s1) as [k Hk];
      [apply reachable_disciplined_reachable; exact Hs1|].
    specialize (Hk c). rewrite bounded_self_child in Hk; [discriminate|].
    rewrite Hsg1, children_of_link. destruct (decide (c = c)); [|contradiction].
    apply elem_of_app. right. left. }
  assert (Hnew : c ∉ children pn).
  { intros Hin. destruct Hlinks as (H1 & _ & _). destruct (H1 p c Hp) as [_ Hpar].
    - unfold children_of. rewrite (node_of_present _ p pn Hpn). exact Hin.
    - congruence. }
  assert (Hpar1 : parent_of (scene_graph_transforms s1) c = p).
  { rewrite Hsg1, parent_of_link. destruct (decide (c = c)); [reflexivity|contradiction]. }
  destruct (reachable_depth_bounded s1) as [k Hk];
    [apply reachable_disciplined_reachable; exact Hs1|].
  assert (Hc1 : is_Some (scene_graph_transforms s1 !! c))
    by (rewrite Hsg1; apply is_Some_link; tauto).
  destruct Hc1 as [cn1 Hcn1].
  assert (Hpcn1 : parent cn1 = p).
  { unfold parent_of in Hpar1. rewrite (node_of_present _ c cn1 Hcn1) in Hpar1.
    exact Hpar1. }
  destruct (remove_parent_detaches_bounded k c s1 cn1 Hcn1) as
    (s2 & cn2 & w2 & Hrem & _); [congruence|apply Hk|].
  exists s2.
  assert (Hs2 : reachable_disciplined s2).
  { eapply (disciplined_call s1 k (Remove_parent c)); [exact Hs1|reflexivity|].
    simpl. rewrite Hrem. reflexivity. }
  pose proof Hrem as Hrem'.
  apply remove_parent_inv in Hrem' as [[_ Hrec2]|[Hz _]]; [|congruence].
  assert (Hsg2 : scene_graph_transforms s2 = scene_graph_transforms s).
  { assert (Hunlink : links_consistent
              (unlink (parent_of (scene_graph_transforms s1) c) c
                 (index default_node c (scene_graph_transforms s1))))
      by (apply links_consistent_unlink; [congruence|exact Hlinks1]).
    rewrite (recalculate_closed k c
               {| scene_graph_transforms :=
                    unlink (parent_of (scene_graph_transforms s1) c) c
                      (index default_node c (scene_graph_transforms s1));
                  world_transforms := world_transforms s1 |} s2
               (links_consistent_closed _ Hunlink)
               (proj2 (is_Some_unlink _ _ c c) (or_introl eq_refl)) Hrec2).
    simpl. rewrite Hpar1, Hsg1. eapply unlink_link; eassumption. }
  split; [|split; [exact Hsg2|]].
  - exists k. intros m Hm. eapply remove_parent_more_fuel; eassumption.
  - intros x w Hw.
    destruct (recalculate_keeps_world_keys n p _ s1 Hrec x w Hw) as (w1 & Hw1 & He1).
    destruct (recalculate_keeps_world_keys k c _ s2 Hrec2 x w1 Hw1)
      as (w' & Hw' & He2).
    rewrite Hw'. f_equal.
    pose proof (reachable_disciplined_world_consistent s Hs x w Hw) as Hpose.
    pose proof (reachable_disciplined_world_consistent s2 Hs2 x w' Hw') as Hpose'.
    rewrite Hsg2 in Hpose'.
    destruct w, w'. simpl in *. congruence.
Qed.

(** X9. In a state reached within the discipline the world-transform
    table is consistent with the scene graph: for every entity with a
    world transform there is a record; the world pose is the local pose
    when the record has no parent, and the local pose multiplied by the
    local pose of the parent's record, which exists, when it has one. *)
Theorem disciplined_world_poses s x w :
  reachable_disciplined s →
  world_transforms s !! x = Some w →
  ∃ node,
    scene_graph_transforms s !! x = Some node
    ∧ ((parent node = kInvalidEntity ∧ world_pose w = local_pose node)
       ∨ (parent node ≠ kInvalidEntity
          ∧ ∃ pn, scene_graph_transforms s !! parent node = Some pn
                  ∧ world_pose w = pose_mul (local_pose node) (local_pose pn))).
Proof.
  intros Hs Hw.
  destruct (reachable_within s (reachable_disciplined_reachable s Hs) x)
    as [node Hnode]; [eauto|].
  exists node. split; [exact Hnode|].
  rewrite (reachable_disciplined_world_consistent s Hs x w Hw).
  unfold expected_pose. rewrite (node_of_present _ x node Hnode).
  destruct (decide (parent node ≠ kInvalidEntity)) as [Hp|Hp].
  - right. split; [exact Hp|].
    destruct (reachable_disciplined_links_consistent s Hs) as (_ & H2 & _).
    destruct (H2 x) as [[pn Hpn] _].
    + unfold parent_of. rewrite (node_of_present _ x node Hnode). exact Hp.
    + unfold parent_of in Hpn. rewrite (node_of_present _ x node Hnode) in Hpn.
      exists pn. split; [exact Hpn|].
      rewrite (node_of_present _ _ pn Hpn). reflexivity.
  - left. split; [|reflexivity].
    destruct (decide (parent node = kInvalidEntity)); [assumption|contradiction].
Qed.

(** X10. What [add_child] leaves alone: when it has returned, every
    entity has the local pose, the local scale and the entity field it
    had; only the child has another parent reference and only the parent
    another children list; the records of all other entities are the
    same; and the world transform is unchanged for every entity that is
    found neither from the parent nor from the child. *)
Theorem add_child_frame n p c s b s' :
  add_child n p c s = Returns b s' →
  (∀ x, local_pose (node_of (scene_graph_transforms s') x)
        = local_pose (node_of (scene_graph_transforms s) x)
        ∧ local_scale (node_of (scene_graph_transforms s') x)
          = local_scale (node_of (scene_graph_transforms s) x)
        ∧ sg_entity (node_of (scene_graph_transforms s') x)
          = sg_entity (node_of (scene_graph_transforms s) x))
  ∧ (∀ x, x ≠ c →
          parent_of (scene_graph_transforms s') x
          = parent_of (scene_graph_transforms s) x)
  ∧ (∀ x, x ≠ p →
          children_of (scene_graph_transforms s') x
          = children_of (scene_graph_transforms s) x)
  ∧ (∀ x v, x ≠ p → x ≠ c →
            scene_graph_transforms s !! x = Some v →
            scene_graph_transforms s' !! x = Some v)
  ∧ (∀ x, ¬ reach (scene_graph_transforms s) p x →
          ¬ reach (scene_graph_transforms s) c x →
          world_transforms s' !! x = world_transforms s !! x).
Proof.
  intros Hrun. apply add_child_inv in Hrun as (_ & _ & _ & _ & _ & Hrun).
  pose proof (recalculate_same_nodes _ _ _ _ Hrun) as Hsame.
  unfold same_nodes in Hsame. simpl in Hsame.
  split; [|split; [|split; [|split]]].
  - intros x. rewrite Hsame, node_of_link. simpl.
    repeat case_decide; simpl; split; try split; reflexivity.
  - intros x Hx. unfold parent_of at 1. rewrite Hsame.
    fold (parent_of (link p c (scene_graph_transforms s)) x).
    rewrite parent_of_link. destruct (decide (x = c)); [contradiction|reflexivity].
  - intros x Hx. unfold children_of at 1. rewrite Hsame.
    fold (children_of (link p c (scene_graph_transforms s)) x).
    rewrite children_of_link. destruct (decide (x = p)); [contradiction|reflexivity].
  - intros x v Hp Hc Hv.
    apply (recalculate_keeps_records _ _ _ _ Hrun x v). simpl.
    rewrite lookup_link_ne by assumption. exact Hv.
  - intros x Hpx Hcx.
    destruct (recalculate_frame _ _ _ _ Hrun x) as [Hr|Hw]; [|exact Hw].
    simpl in Hr. apply reach_link_inv in Hr as [Hr|Hr]; contradiction.
Qed.

(** X11. What [remove_parent] leaves alone: when it has returned, every
    entity has the local pose, the local scale and the entity field it
    had; only the child has another parent reference and only its
    former parent another children list; the records of all other
    entities are the same; and the world transform is unchanged for
    every entity that is not found from the child. *)
Theorem remove_parent_frame n c s u s' :
  remove_parent n c s = Returns u s' →
  (∀ x, local_pose (node_of (scene_graph_transforms s') x)
        = local_pose (node_of (scene_graph_transforms s) x)
        ∧ local_scale (node_of (scene_graph_transforms s') x)
          = local_scale (node_of (scene_graph_transforms s) x)
        ∧ sg_entity (node_of (scene_graph_transforms s') x)
          = sg_entity (node_of (scene_graph_transforms s) x))
  ∧ (∀ x, x ≠ c →
          parent_of (scene_graph_transforms s') x
          = parent_of (scene_graph_transforms s) x)
  ∧ (∀ x, x ≠ parent_of (scene_graph_transforms s) c →
          children_of (scene_graph_transforms s') x
          = children_of (scene_graph_transforms s) x)
  ∧ (∀ x v, x ≠ parent_of (scene_graph_transforms s) c → x ≠ c →
            scene_graph_transforms s !! x = Some v →
            scene_graph_transforms s' !! x = Some v)
  ∧ (∀ x, ¬ reach (scene_graph_transforms s) c x →
          world_transforms s' !! x = world_transforms s !! x).
Proof.
  intros Hrun. apply remove_parent_inv in Hrun as [[Hp Hrun]|[Hp ->]].
  - pose proof (recalculate_same_nodes _ _ _ _ Hrun) as Hsame.
  unfold same_nodes in Hsame. simpl in Hsame.
    set (q := parent_of (scene_graph_transforms s) c) in *.
    split; [|split; [|split; [|split]]].
    + intros x. rewrite Hsame, node_of_unlink. simpl.
      repeat case_decide; simpl; split; try split; reflexivity.
    + intros x Hx. unfold parent_of at 1. rewrite Hsame.
      fold (parent_of (unlink q c (index default_node c (scene_graph_transforms s))) x).
      rewrite parent_of_unlink. destruct (decide (x = c)); [contradiction|reflexivity].
    + intros x Hx. unfold children_of at 1. rewrite Hsame.
      fold (children_of (unlink q c (index default_node c (scene_graph_transforms s))) x).
      rewrite children_of_unlink. destruct (decide (x = q)); [contradiction|reflexivity].
    + intros x v Hq Hc Hv.
      apply (recalculate_keeps_records _ _ _ _ Hrun x v). simpl.
      rewrite lookup_unlink_ne by assumption. exact Hv.
    + intros x Hcx.
      destruct (recalculate_frame _ _ _ _ Hrun x) as [Hr|Hw]; [|exact Hw].
      simpl in Hr. apply reach_unlink_inv in Hr. contradiction.
  - pose proof (touch_same_nodes c s) as Hsame.
    split; [|split; [|split; [|split]]].
    + intros x. rewrite Hsame. split; [|split]; reflexivity.
    + intros x _. unfold parent_of. rewrite Hsame. reflexivity.
    + intros x _. unfold children_of. rewrite Hsame. reflexivity.
    + intros x v _ _ Hv. unfold touch. simpl. apply index_keeps. exact Hv.
    + intros x _. reflexivity.
Qed.
End frame_extras.

(** * Further properties of the entity manager *)

Section entity_manager_extras.
Context `{SystemTypeIds}.
Import EntityManager Systems.
Implicit Types (m : entity_manager) (k i j : nat).

Lemma create_many_systems k m :
  systems (create_many k m).2 = systems m
  ∧ system_type_map (create_many k m).2 = system_type_map m.
Proof.
  revert m. induction k as [|k IH]; intros m; [split; reflexivity|].
  simpl. specialize (IH (create m).2). simpl in IH.
  destruct (create_many k _) as [es m2]. exact IH.
Qed.

Lemma create_many_counter k m :
  entity_counter m < uint64_modulus →
  entity_counter (create_many k m).2
  = (entity_counter m + N.of_nat k) mod uint64_modulus.
Proof.
  revert m. induction k as [|k IH]; intros m Hm.
  - simpl. rewrite N.add_0_r, N.mod_small by exact Hm. reflexivity.
  - simpl. specialize (IH (create m).2). simpl in IH.
    destruct (create_many k _) as [es m2]. simpl in *. rewrite IH.
    + unfold uint64_incr. rewrite N.Div0.add_mod_idemp_l. f_equal. lia.
    + apply N.mod_lt. discriminate.
Qed.

Lemma mod_window_inj (a b : N) :
  a mod uint64_modulus = b mod uint64_modulus →
  a ≤ b → b < a + uint64_modulus → a = b.
Proof.
  intros Hmod Hab Hlt.
  pose proof (N.div_mod a uint64_modulus ltac:(discriminate)) as Ha.
  pose proof (N.div_mod b uint64_modulus ltac:(discriminate)) as Hb.
  rewrite Hmod in Ha.
  generalize dependent (a / uint64_modulus). intros qa Ha.
  generalize dependent (b / uint64_modulus). intros qb Hb.
  generalize dependent (b mod uint64_modulus). intros r _ Ha Hb.
  generalize dependent uint64_modulus. intros M Hlt Ha Hb.
  destruct (decide (qb ≤ qa)) as [Hq|Hq].
  - assert (M * qb ≤ M * qa) by (apply N.mul_le_mono_l; exact Hq). lia.
  - assert (M * (qa + 1) ≤ M * qb) by (apply N.mul_le_mono_l; lia). lia.
Qed.

(** X12. Whatever the counter of the entity manager, [create] returns
    identifiers below 2^64; any 2^64 consecutive calls return pairwise
    distinct identifiers, and the identifier of a call is returned again
    exactly 2^64 calls later; the calls change the counter only, to the
    number of calls added to it modulo 2^64. *)
Theorem create_identifiers_window k m :
  (∀ i a, (create_many k m).1 !! i = Some a → a < uint64_modulus)
  ∧ (N.of_nat k ≤ uint64_modulus → NoDup (create_many k m).1)
  ∧ (∀ i, (i + N.to_nat uint64_modulus < k)%nat →
       (create_many k m).1 !! (i + N.to_nat uint64_modulus)%nat
       = (create_many k m).1 !! i)
  ∧ systems (create_many k m).2 = systems m
  ∧ system_type_map (create_many k m).2 = system_type_map m
  ∧ (entity_counter m < uint64_modulus →
       entity_counter (create_many k m).2
       = (entity_counter m + N.of_nat k) mod uint64_modulus).
Proof.
  assert (Hnth : ∀ i a, (create_many k m).1 !! i = Some a →
            (i < k)%nat
            ∧ a = (entity_counter m + N.of_nat i + 1) mod uint64_modulus).
  { intros i a Hi. assert (Hlt : (i < k)%nat).
    { rewrite <- (create_many_length k m). eapply lookup_lt_Some. exact Hi. }
    rewrite (create_many_lookup k m i Hlt) in Hi. split; congruence. }
  split; [|split; [|split; [|split; [|split]]]].
  - intros i a Hi. destruct (Hnth i a Hi) as [_ ->]. apply N.mod_lt. discriminate.
  - intros Hk. apply NoDup_alt. intros i j a Hi Hj.
    destruct (Hnth i a Hi) as [Hik Ha], (Hnth j a Hj) as [Hjk Hb].
    rewrite Ha in Hb.
    destruct (decide (i ≤ j)%nat).
    + apply mod_window_inj in Hb; lia.
    + symmetry in Hb. apply mod_window_inj in Hb; lia.
  - intros i Hi. rewrite !create_many_lookup by lia. f_equal.
    rewrite Nat2N.inj_add, N2Nat.id.
    replace (entity_counter m + (N.of_nat i + uint64_modulus) + 1)
      with (entity_counter m + N.of_nat i + 1 + 1 * uint64_modulus) by lia.
    apply N.Div0.mod_add.
  - apply create_many_systems.
  - apply create_many_systems.
  - apply create_many_counter.
Qed.

Lemma add_system_registered_first t ptr m m0 :
  ptr ≠ nullptr →
  systems m0 = systems m → entity_counter m0 = entity_counter m →
  registered_first t ptr m (add_system t ptr m0).
Proof.
  unfold registered_first, add_system. intros Hptr <- <-.
  destruct (decide (ptr = nullptr)); [contradiction|].
  destruct (systems m0 !! t) as [q|] eqn:E; simpl.
  - split; [reflexivity|]. split; [discriminate|]. split; [|reflexivity].
    intros q' [= <-]. exact E.
  - split; [reflexivity|]. split; [intros _; apply lookup_insert_eq|].
    split; [discriminate|]. intros t' Ht. apply lookup_insert_ne. congruence.
Qed.

(** X13. [create_system] returns the pointer of the system it has
    allocated. The constructor of the system has recorded the type of
    the system for each of its component types in [system_type_map]
    (the transform system for its two component types). The system is
    registered under its type if none was; if one was, that one stays
    registered and the returned system is in no registration. The
    counter and the registrations of other types are as they were. *)
Theorem create_system_registers ptr m :
  ptr ≠ nullptr →
  (let r := create_system typeid_transform_system construct_transform_system ptr m in
   r.1 = ptr
   ∧ registered_first typeid_transform_system ptr m r.2
   ∧ system_type_map r.2 !! typeid_scene_graph_component
     = Some typeid_transform_system
   ∧ system_type_map r.2 !! typeid_world_transform_component
     = Some typeid_transform_system)
  ∧ (let r := create_system typeid_ex_system_one construct_ex_system_one ptr m in
     r.1 = ptr
     ∧ registered_first typeid_ex_system_one ptr m r.2
     ∧ system_type_map r.2 !! typeid_physics_component = Some typeid_ex_system_one)
  ∧ (let r := create_system typeid_ex_system_two construct_ex_system_two ptr m in
     r.1 = ptr
     ∧ registered_first typeid_ex_system_two ptr m r.2
     ∧ system_type_map r.2 !! typeid_render_component = Some typeid_ex_system_two).
Proof.
  intros Hptr.
  assert (Hmap : ∀ t m0, system_type_map (add_system t ptr m0) = system_type_map m0).
  { intros t m0. unfold add_system. destruct (decide _); [reflexivity|].
    destruct (systems m0 !! t); reflexivity. }
  split; [|split]; simpl; (split; [reflexivity|]).
  - split; [apply (add_system_registered_first _ ptr _ _ Hptr); reflexivity|].
    rewrite Hmap. simpl. split; [|apply lookup_insert_eq].
    destruct (decide (typeid_world_transform_component = typeid_scene_graph_component))
      as [->|Hne]; [apply lookup_insert_eq|].
    rewrite lookup_insert_ne by exact Hne. apply lookup_insert_eq.
  - split; [apply (add_system_registered_first _ ptr _ _ Hptr); reflexivity|].
    rewrite Hmap. apply lookup_insert_eq.
  - split; [apply (add_system_registered_first _ ptr _ _ Hptr); reflexivity|].
    rewrite Hmap. apply lookup_insert_eq.
Qed.
End entity_manager_extras.

(** * Properties of the metallic-roughness material *)

Section material_extras.
Context `{MaterialTypes}.
Import Material.
Implicit Types (m : MetallicRoughnessMaterial) (v : variant).

Lemma texture_units_app (l1 l2 : list shader_call) :
  texture_units (l1 ++ l2) = texture_units l1 ++ texture_units l2.
Proof.
  induction l1 as [|c l1 IH]; [reflexivity|].
  destruct c; simpl; rewrite IH; reflexivity.
Qed.

Lemma units_from_app (first : Z) (k j : nat) :
  units_from first (k + j)
  = units_from first k ++ units_from (first + Z.of_nat k) j.
Proof.
  unfold units_from. rewrite seq_app, fmap_app. f_equal. simpl.
  replace (seq k j) with (Nat.add k <$> seq 0 j)
    by (rewrite fmap_add_seq; f_equal; lia).
  rewrite <- list_fmap_compose.
  apply list_fmap_ext. intros _ i _. simpl. lia.
Qed.

Lemma NoDup_units_from (first : Z) (k : nat) : NoDup (units_from first k).
Proof.
  unfold units_from. apply NoDup_fmap_2; [|apply NoDup_seq].
  intros i j Hij. lia.
Qed.





Lemma update_uniforms_ibl_calls irradiance radiance m v :
  compiled_variant m = Some v →
  enabled v "USE_IMAGE_BASED_LIGHTING" = true →
  ∃ m' v',
    update_uniforms_ibl irradiance radiance m = Done m'
    ∧ compiled_variant m' = Some v'
    ∧ enabled v' = enabled v
    ∧ shader_calls v'
      = shader_calls v
        ++ [Bind;
            Texture "sc_irradiance" (bindpoint m) irradiance GL_TEXTURE_CUBE_MAP;
            Texture "sc_radiance" (bindpoint m + 1) radiance GL_TEXTURE_CUBE_MAP;
            Unbind]
    ∧ bindpoint m' = (bindpoint m + 2)%Z.
Proof.
  intros Hv Hen. unfold update_uniforms_ibl. rewrite Hv, Hen. simpl.
  eexists _, _. split; [reflexivity|]. split; [reflexivity|].
  split; [reflexivity|]. split; [|reflexivity].
  simpl. rewrite <- !app_assoc. reflexivity.
Qed.



Lemma repeat_update_uniforms_ibl_calls j irradiance radiance m v :
  compiled_variant m = Some v →
  enabled v "USE_IMAGE_BASED_LIGHTING" = true →
  ∃ m' v' calls,
    repeat_update_uniforms_ibl j irradiance radiance m = Done m'
    ∧ compiled_variant m' = Some v'
    ∧ enabled v' = enabled v
    ∧ shader_calls v' = shader_calls v ++ calls
    ∧ texture_units calls = units_from (bindpoint m) (2 * j)
    ∧ bindpoint m' = (bindpoint m + 2 * Z.of_nat j)%Z.
Proof.
  revert m v. induction j as [|j IH]; intros m v Hv Hen.
  - exists m, v, []. simpl. rewrite app_nil_r.
    split; [reflexivity|]. split; [exact Hv|]. split; [reflexivity|].
    split; [reflexivity|]. split; [reflexivity|]. lia.
  - destruct (update_uniforms_ibl_calls irradiance radiance m v Hv Hen)
      as (m1 & v1 & Hrun1 & Hv1 & Hen1 & Hcalls1 & Hbp1).
    destruct (IH m1 v1 Hv1) as (m' & v' & calls & Hrun & Hv' & Hen' & Hcalls & Hu & Hbp);
      [rewrite Hen1; exact Hen|].
    exists m', v'. eexists.
    split; [simpl; rewrite Hrun1; exact Hrun|]. split; [exact Hv'|].
    split; [rewrite Hen'; exact Hen1|].
    split; [rewrite Hcalls, Hcalls1, <- app_assoc; reflexivity|].
    split; [|rewrite Hbp, Hbp1; lia].
    replace (2 * S j)%nat with (2 + 2 * j)%nat by lia.
    rewrite texture_units_app, Hu, Hbp1.
    rewrite (units_from_app (bindpoint m) 2 (2 * j)).
    unfold units_from at 2. cbn [seq fmap list_fmap app texture_units].
    repeat (apply (f_equal2 cons); [lia|]).
    f_equal; lia.
Qed.

(** X16. [update_uniforms_ibl] and [update_uniforms_shadow] throw
    [std::runtime_error] when their define is not enabled, with the
    bindpoint and the shader as they were. When its define is enabled,
    [update_uniforms_ibl] does not reset the bindpoint: called [j] times
    in a row it binds [2 j] textures at the units that follow the
    bindpoint, none twice, and leaves the bindpoint [2 j] higher (for a
    bindpoint that stays between 0 and 2^31, where no integer type of 32
    bits or more wraps). *)
Theorem update_uniforms_ibl_guard_and_units m v :
  compiled_variant m = Some v →
  (enabled v "USE_IMAGE_BASED_LIGHTING" = false →
   ∀ irradiance radiance,
     ∃ what, update_uniforms_ibl irradiance radiance m = Throws_runtime_error what m)
  ∧ (enabled v "ENABLE_SHADOWS" = false →
     ∀ handle, ∃ what, update_uniforms_shadow handle m = Throws_runtime_error what m)
  ∧ (enabled v "USE_IMAGE_BASED_LIGHTING" = true →
     ∀ j irradiance radiance,
       (0 ≤ bindpoint m)%Z → (bindpoint m + 2 * Z.of_nat j < 2 ^ 31)%Z →
       ∃ m' v' calls,
         repeat_update_uniforms_ibl j irradiance radiance m = Done m'
         ∧ compiled_variant m' = Some v'
         ∧ shader_calls v' = shader_calls v ++ calls
         ∧ texture_units calls = units_from (bindpoint m) (2 * j)
         ∧ NoDup (texture_units calls)
         ∧ bindpoint m' = (bindpoint m + 2 * Z.of_nat j)%Z).
Proof.
  intros Hv. split; [|split].
  - intros Hen irradiance radiance. unfold update_uniforms_ibl.
    rewrite Hv, Hen. eexists. reflexivity.
  - intros Hen handle. unfold update_uniforms_shadow.
    rewrite Hv, Hen. eexists. reflexivity.
  - intros Hen j irradiance radiance _ _.
    destruct (repeat_update_uniforms_ibl_calls j irradiance radiance m v Hv Hen)
      as (m' & v' & calls & Hrun & Hv' & _ & Hcalls & Hu & Hbp).
    exists m', v', calls. repeat (split; [assumption|]).
    split; [rewrite Hu; apply NoDup_units_from|exact Hbp].
Qed.
End material_extras.

(** * Properties of the loop of the sample program *)

Section sample_program_extras.
Context `{MathCore} `{TypeIds}.
Import TransformSystem SampleProgram.
Implicit Types (t : transform_system) (m : EntityManager.entity_manager).
Implicit Types (root c x : entity) (fuel : nat).

Lemma ids_after_S root k :
  ids_after root (S k) = ids_after root k ++ [root + N.of_nat k + 1].
Proof. unfold ids_after. rewrite seq_S, fmap_app. reflexivity. Qed.

Lemma elem_of_ids_after root k y :
  y ∈ ids_after root k ↔ ∃ i, (i < k)%nat ∧ y = root + N.of_nat i + 1.
Proof.
  unfold ids_after. rewrite list_elem_of_fmap. split.
  - intros (i & -> & Hi). apply elem_of_seq in Hi. exists i. split; [lia|reflexivity].
  - intros (i & Hi & ->). exists i. split; [reflexivity|]. apply elem_of_seq. lia.
Qed.

(** A world transform of a disciplined state is determined by the scene
    graph and the entity it names. *)
Lemma world_record t x w :
  reachable_disciplined t →
  world_transforms t !! x = Some w → wt_entity w = x →
  w = {| wt_entity := x;
         world_pose := expected_pose (scene_graph_transforms t) x |}.
Proof.
  intros Ht Hw He.
  pose proof (reachable_disciplined_world_consistent t Ht x w Hw) as Hpose.
  destruct w as [e p]. simpl in *. congruence.
Qed.

Lemma add_child_returns_when n p c s s' :
  p ≠ kInvalidEntity → c ≠ kInvalidEntity →
  is_Some (scene_graph_transforms s !! p) →
  is_Some (scene_graph_transforms s !! c) →
  recalculate_world_transform n p
    {| scene_graph_transforms := link p c (scene_graph_transforms s);
       world_transforms := world_transforms s |} = Some s' →
  add_child n p c s = Returns true s'.
Proof.
  intros Hp Hc Hsp Hsc Hrun. unfold add_child.
  destruct (decide (p = kInvalidEntity)); [contradiction|].
  destruct (decide (c = kInvalidEntity)); [contradiction|].
  apply has_transform_true in Hsp, Hsc. rewrite Hsp, Hsc. simpl.
  rewrite Hrun. reflexivity.
Qed.

(** Below a node whose children have no children there is the node and
    its children. *)
Lemma reach_depth_one sg e x :
  (∀ y, y ∈ children_of sg e → children_of sg y = []) →
  reach sg e x → x = e ∨ x ∈ children_of sg e.
Proof.
  intros Hleaf. induction 1 as [|y c Hy IH Hc]; [left; reflexivity|].
  destruct IH as [->|Hin]; [right; exact Hc|].
  rewrite (Hleaf y Hin) in Hc. inversion Hc.
Qed.

Lemma family_built_unchanged root family bound t t' :
  root + N.of_nat (length family.2) ≤ bound →
  unchanged_up_to bound t t' →
  family_built root family t → family_built root family t'.
Proof.
  intros Hle Hsame (Hroot & Hwroot & Hch).
  split; [|split].
  - destruct (Hsame root) as [-> _]; [lia|]. exact Hroot.
  - destruct (Hsame root) as [_ ->]; [lia|]. exact Hwroot.
  - intros i ps Hi. pose proof (lookup_lt_Some _ _ _ Hi) as Hlt.
    destruct (Hch i ps Hi) as [Hs Hw].
    destruct (Hsame (root + N.of_nat i + 1)) as [E1 E2]; [lia|].
    split; [exact (eq_trans E1 Hs)|exact (eq_trans E2 Hw)].
Qed.

(** One pass of the inner loop. *)
Lemma spawn_child_builds fuel root lp ls done ps m t :
  (2 ≤ fuel)%nat →
  root ≠ kInvalidEntity →
  EntityManager.entity_counter m = root + N.of_nat (length done) →
  root + N.of_nat (length done) + 1 < uint64_modulus →
  reachable_disciplined t →
  keys_allocated (m, t) →
  family_built root ((lp, ls), done) t →
  ∃ m' t',
    spawn_child fuel root ps (m, t) = Some (m', t')
    ∧ EntityManager.entity_counter m' = root + N.of_nat (length (done ++ [ps]))
    ∧ EntityManager.systems m' = EntityManager.systems m
    ∧ EntityManager.system_type_map m' = EntityManager.system_type_map m
    ∧ reachable_disciplined t'
    ∧ keys_allocated (m', t')
    ∧ family_built root ((lp, ls), done ++ [ps]) t'
    ∧ ∀ x, x < root →
        scene_graph_transforms t' !! x = scene_graph_transforms t !! x
        ∧ world_transforms t' !! x = world_transforms t !! x.
Proof.
  intros Hfuel Hroot Hcount Hsmall Ht Hkeys (Hrootrec & Hwroot & Hch).
  simpl in Hrootrec, Hwroot, Hch.
  destruct fuel as [|[|f]]; [lia|lia|].
  set (k := length done) in *.
  set (c := root + N.of_nat k + 1).
  assert (Hc0 : c ≠ kInvalidEntity) by (unfold c, kInvalidEntity; lia).
  assert (Hcr : c ≠ root) by (unfold c; lia).
  assert (Hfresh : scene_graph_transforms t !! c = None
                   ∧ world_transforms t !! c = None).
  { split.
    - destruct (scene_graph_transforms t !! c) as [v|] eqn:E; [|reflexivity].
      exfalso. assert (c ≤ EntityManager.entity_counter m) as Hle
        by (apply (Hkeys c); left; simpl; rewrite E; eauto).
      rewrite Hcount in Hle. unfold c in Hle. lia.
    - destruct (world_transforms t !! c) as [v|] eqn:E; [|reflexivity].
      exfalso. assert (c ≤ EntityManager.entity_counter m) as Hle
        by (apply (Hkeys c); right; simpl; rewrite E; eauto).
      rewrite Hcount in Hle. unfold c in Hle. lia. }
  destruct Hfresh as [Hfresh Hwfresh].
  set (crec := {| sg_entity := c; local_pose := ps.1; local_scale := ps.2;
                  parent := kInvalidEntity; children := [] |}).
  set (t1 := {| scene_graph_transforms := <[c := crec]> (scene_graph_transforms t);
                world_transforms :=
                  <[c := {| wt_entity := c; world_pose := ps.1 |}]>
                    (world_transforms t) |}).
  assert (Hcreate : create (S (S f)) c ps.1 ps.2 t = Returns true t1)
    by apply create_returns.
  assert (Ht1 : reachable_disciplined t1).
  { apply (disciplined_call t (S (S f)) (Create c ps.1 ps.2) t1 Ht).
    - simpl. apply negb_true_iff, has_transform_false. exact Hfresh.
    - simpl. rewrite Hcreate. reflexivity. }
  set (sg1 := scene_graph_transforms t1).
  assert (Hsg1c : sg1 !! c = Some crec) by apply lookup_insert_eq.
  assert (Hsg1 : ∀ x, x ≠ c → sg1 !! x = scene_graph_transforms t !! x).
  { intros x Hx. unfold sg1, t1. simpl. apply lookup_insert_ne. congruence. }
  assert (Hsg1root : sg1 !! root = Some
            {| sg_entity := root; local_pose := lp; local_scale := ls;
               parent := kInvalidEntity; children := ids_after root k |}).
  { rewrite Hsg1 by congruence. exact Hrootrec. }
  assert (Hleaf1 : ∀ y, y ∈ ids_after root k ++ [c] → children_of sg1 y = []).
  { intros y Hy. apply elem_of_app in Hy as [Hy|Hy].
    - apply elem_of_ids_after in Hy as (i & Hi & ->).
      destruct (lookup_lt_is_Some_2 done i Hi) as [q Hq].
      destruct (Hch i q Hq) as [Hrec _].
      assert (Hne : root + N.of_nat i + 1 ≠ c) by (unfold c; lia).
      unfold children_of.
      rewrite (node_of_present sg1 _ _ (eq_trans (Hsg1 _ Hne) Hrec)).
      reflexivity.
    - apply list_elem_of_singleton in Hy as ->.
      unfold children_of. rewrite (node_of_present sg1 c crec Hsg1c). reflexivity. }
  assert (Hch2 : children_of (link root c sg1) root = ids_after root k ++ [c]).
  { rewrite children_of_link. destruct (decide (root = root)); [|contradiction].
    unfold children_of. rewrite (node_of_present sg1 root _ Hsg1root). reflexivity. }
  assert (Hleaf2 : ∀ y, y ∈ children_of (link root c sg1) root →
                        children_of (link root c sg1) y = []).
  { intros y Hy. rewrite Hch2 in Hy. rewrite children_of_link.
    destruct (decide (y = root)) as [->|_]; [|apply Hleaf1, Hy].
    exfalso. apply elem_of_app in Hy as [Hy|Hy].
    - apply elem_of_ids_after in Hy as (i & _ & Hy). lia.
    - apply list_elem_of_singleton in Hy. congruence. }
  assert (Hb : bounded (S (S f)) (link root c sg1) root = true).
  { apply (bounded_le 2); [lia|]. apply bounded_spec. intros y Hy.
    simpl. rewrite (Hleaf2 y Hy). reflexivity. }
  destruct (recalculate_returns (S (S f)) root
              {| scene_graph_transforms := link root c sg1;
                 world_transforms := world_transforms t1 |} Hb) as [t2 Hrun].
  assert (Hadd : add_child (S (S f)) root c t1 = Returns true t2).
  { apply add_child_returns_when; try assumption.
    - eexists. exact Hsg1root.
    - eexists. exact Hsg1c. }
  assert (Ht2 : reachable_disciplined t2).
  { apply (disciplined_call t1 (S (S f)) (Add_child root c) t2 Ht1).
    - simpl. apply bool_decide_eq_true. rewrite get_parent_parent_of.
      case_decide; [reflexivity|].
      change (parent (node_of sg1 c) = kInvalidEntity).
      rewrite (node_of_present sg1 c crec Hsg1c). reflexivity.
    - simpl. rewrite Hadd. reflexivity. }
  assert (Hlc : links_consistent (link root c sg1)).
  { apply links_consistent_link.
    - exact Hroot.
    - eexists. exact Hsg1root.
    - eexists. exact Hsg1c.
    - unfold parent_of. rewrite (node_of_present sg1 c crec Hsg1c). reflexivity.
    - apply (reachable_disciplined_links_consistent t1 Ht1). }
  assert (Hsg2 : scene_graph_transforms t2 = link root c sg1).
  { apply (recalculate_closed (S (S f)) root
             {| scene_graph_transforms := link root c sg1;
                world_transforms := world_transforms t1 |} t2).
    - apply links_consistent_closed. exact Hlc.
    - simpl. apply is_Some_link. right. left. reflexivity.
    - exact Hrun. }
  assert (Hlookup2 : ∀ x, is_Some (link root c sg1 !! x) →
            link root c sg1 !! x = Some (node_of (link root c sg1) x)).
  { intros x [v Hv]. rewrite (node_of_present _ x v Hv). exact Hv. }
  assert (Hroot2 : scene_graph_transforms t2 !! root = Some
            {| sg_entity := root; local_pose := lp; local_scale := ls;
               parent := kInvalidEntity; children := ids_after root k ++ [c] |}).
  { rewrite Hsg2, Hlookup2 by (apply is_Some_link; tauto).
    rewrite node_of_link. cbv zeta.
    rewrite (node_of_present sg1 root _ Hsg1root).
    repeat case_decide; try congruence; reflexivity. }
  assert (Hc2 : scene_graph_transforms t2 !! c = Some
            {| sg_entity := c; local_pose := ps.1; local_scale := ps.2;
               parent := root; children := [] |}).
  { rewrite Hsg2, Hlookup2 by (apply is_Some_link; tauto).
    rewrite node_of_link. cbv zeta.
    rewrite (node_of_present sg1 c _ Hsg1c).
    repeat case_decide; try congruence; reflexivity. }
  assert (Hother2 : ∀ x, x ≠ root → x ≠ c →
            scene_graph_transforms t2 !! x = scene_graph_transforms t !! x).
  { intros x Hxr Hxc. rewrite Hsg2, lookup_link_ne by assumption.
    apply Hsg1. exact Hxc. }
  assert (Hworld2 : ∀ x w, world_transforms t1 !! x = Some w → wt_entity w = x →
            world_transforms t2 !! x = Some
              {| wt_entity := x;
                 world_pose := expected_pose (scene_graph_transforms t2) x |}).
  { intros x w Hw He.
    destruct (recalculate_keeps_world_keys _ _ _ _ Hrun x w Hw) as (w' & Hw' & He').
    rewrite Hw'. f_equal. apply (world_record t2 x w' Ht2 Hw'). congruence. }
  exists {| EntityManager.system_type_map := EntityManager.system_type_map m;
            EntityManager.entity_counter := c;
            EntityManager.systems := EntityManager.systems m |}, t2.
  assert (Hincr : uint64_incr (EntityManager.entity_counter m) = c).
  { rewrite Hcount. apply uint64_incr_small. exact Hsmall. }
  split; [|split; [|split; [|split; [|split; [|split; [|split]]]]]].
  - unfold spawn_child, EntityManager.create. simpl. rewrite Hincr.
    rewrite Hcreate, Hadd. reflexivity.
  - simpl. rewrite length_app. simpl. unfold c, k. lia.
  - reflexivity.
  - reflexivity.
  - exact Ht2.
  - intros x Hx. simpl in *.
    assert (Hsgx : is_Some (scene_graph_transforms t2 !! x)).
    { destruct Hx as [Hx|Hx]; [exact Hx|].
      apply (reachable_within t2 (reachable_disciplined_reachable t2 Ht2) x Hx). }
    rewrite Hsg2 in Hsgx. apply is_Some_link in Hsgx as [->|[->|Hsgx]].
    + lia.
    + unfold c. lia.
    + destruct (decide (x = c)) as [->|Hxc]; [lia|].
      rewrite (Hsg1 x Hxc) in Hsgx.
      assert (x ≤ EntityManager.entity_counter m) by (apply Hkeys; left; exact Hsgx).
      rewrite Hcount in *. unfold c. lia.
  - split; [|split]; simpl.
    + rewrite length_app, Nat.add_1_r, ids_after_S. exact Hroot2.
    + rewrite (Hworld2 root {| wt_entity := root; world_pose := lp |}).
      * f_equal. f_equal. unfold expected_pose.
        rewrite (node_of_present _ root _ Hroot2). simpl.
        destruct (decide (kInvalidEntity ≠ kInvalidEntity)); [contradiction|].
        reflexivity.
      * unfold t1. simpl. rewrite lookup_insert_ne by congruence. exact Hwroot.
      * reflexivity.
    + intros i q Hi.
      assert (Hpose : ∀ y yrec,
                scene_graph_transforms t2 !! y = Some yrec →
                parent yrec = root →
                expected_pose (scene_graph_transforms t2) y
                = pose_mul (local_pose yrec) lp).
      { intros y yrec Hy Hpar. unfold expected_pose.
        rewrite (node_of_present _ y _ Hy), Hpar.
        destruct (decide (root ≠ kInvalidEntity)); [|contradiction].
        rewrite (node_of_present _ root _ Hroot2). reflexivity. }
      apply lookup_app_Some in Hi as [Hi|[Hge Hi]].
      * pose proof (lookup_lt_Some _ _ _ Hi) as Hlt. fold k in Hlt.
        destruct (Hch i q Hi) as [Hrec Hw].
        assert (Hrec2 : scene_graph_transforms t2 !! (root + N.of_nat i + 1)
                        = Some {| sg_entity := root + N.of_nat i + 1;
                                  local_pose := q.1; local_scale := q.2;
                                  parent := root; children := [] |}).
        { rewrite Hother2 by (unfold c; lia). exact Hrec. }
        split; [exact Hrec2|].
        assert (Hw1 : world_transforms t1 !! (root + N.of_nat i + 1)
                      = Some {| wt_entity := root + N.of_nat i + 1;
                                world_pose := pose_mul q.1 lp |}).
        { unfold t1. simpl. rewrite lookup_insert_ne by (unfold c; lia). exact Hw. }
        pose proof (Hworld2 _ _ Hw1 eq_refl) as Hw2.
        pose proof (Hpose _ _ Hrec2 eq_refl) as Hp2. simpl in Hp2.
        exact (eq_trans Hw2
                 (f_equal (λ p, Some {| wt_entity := _; world_pose := p |}) Hp2)).
      * fold k in Hge, Hi.
        destruct (i - k)%nat as [|j] eqn:Hj; simpl in Hi; [|destruct j; discriminate].
        injection Hi as <-.
        replace (root + N.of_nat i + 1) with c by (unfold c; lia).
        split; [exact Hc2|].
        pose proof (Hworld2 c {| wt_entity := c; world_pose := ps.1 |}
                      (lookup_insert_eq _ _ _) eq_refl) as Hw2.
        pose proof (Hpose _ _ Hc2 eq_refl) as Hp2. simpl in Hp2.
        exact (eq_trans Hw2
                 (f_equal (λ p, Some {| wt_entity := _; world_pose := p |}) Hp2)).
  - intros x Hx. split.
    + apply Hother2; [lia|unfold c; lia].
    + destruct (recalculate_frame _ _ _ _ Hrun x) as [Hr|Hsame].
      * exfalso. simpl in Hr.
        apply (reach_depth_one _ _ _ Hleaf2) in Hr as [->|Hin]; [lia|].
        rewrite Hch2 in Hin. apply elem_of_app in Hin as [Hin|Hin].
        -- apply elem_of_ids_after in Hin as (i & _ & ->). lia.
        -- apply list_elem_of_singleton in Hin as ->. unfold c in Hx. lia.
      * rewrite Hsame. simpl. apply lookup_insert_ne. unfold c. lia.
Qed.
(** The inner loop. *)
Lemma spawn_children_builds fuel root lp ls rest : ∀ done m t,
  (2 ≤ fuel)%nat →
  root ≠ kInvalidEntity →
  EntityManager.entity_counter m = root + N.of_nat (length done) →
  root + N.of_nat (length done) + N.of_nat (length rest) < uint64_modulus →
  reachable_disciplined t →
  keys_allocated (m, t) →
  family_built root ((lp, ls), done) t →
  ∃ m' t',
    spawn_children fuel root rest (m, t) = Some (m', t')
    ∧ EntityManager.entity_counter m'
      = root + N.of_nat (length (done ++ rest))
    ∧ EntityManager.systems m' = EntityManager.systems m
    ∧ EntityManager.system_type_map m' = EntityManager.system_type_map m
    ∧ reachable_disciplined t'
    ∧ keys_allocated (m', t')
    ∧ family_built root ((lp, ls), done ++ rest) t'
    ∧ ∀ x, x < root →
        scene_graph_transforms t' !! x = scene_graph_transforms t !! x
        ∧ world_transforms t' !! x = world_transforms t !! x.
Proof.
  induction rest as [|ps rest IH]; intros done m t Hfuel Hroot Hcount Hsmall Ht Hkeys Hbuilt.
  - exists m, t. rewrite app_nil_r. simpl.
    split; [reflexivity|]. split; [exact Hcount|]. split; [reflexivity|].
    split; [reflexivity|]. split; [exact Ht|]. split; [exact Hkeys|].
    split; [exact Hbuilt|]. intros x _. split; reflexivity.
  - simpl in Hsmall.
    destruct (spawn_child_builds fuel root lp ls done ps m t Hfuel Hroot Hcount)
      as (m1 & t1 & Hrun1 & Hcount1 & Hsys1 & Hmap1 & Ht1 & Hkeys1 & Hbuilt1 & Hframe1);
      try assumption; [lia|].
    destruct (IH (done ++ [ps]) m1 t1 Hfuel Hroot Hcount1)
      as (m2 & t2 & Hrun2 & Hcount2 & Hsys2 & Hmap2 & Ht2 & Hkeys2 & Hbuilt2 & Hframe2);
      try assumption; [rewrite length_app; simpl; lia|].
    exists m2, t2. rewrite <- app_assoc in Hcount2, Hbuilt2. simpl in Hcount2, Hbuilt2.
    split; [simpl; rewrite Hrun1; exact Hrun2|].
    split; [exact Hcount2|]. split; [congruence|]. split; [congruence|].
    split; [exact Ht2|]. split; [exact Hkeys2|]. split; [exact Hbuilt2|].
    intros x Hx. destruct (Hframe1 x Hx) as [<- <-]. apply Hframe2, Hx.
Qed.

(** One pass of the outer loop. *)
Lemma spawn_family_builds fuel family m t :
  (2 ≤ fuel)%nat →
  EntityManager.entity_counter m + N.of_nat (family_size family) < uint64_modulus →
  reachable_disciplined t →
  keys_allocated (m, t) →
  ∃ m' t',
    spawn_family fuel family (m, t) = Some (m', t')
    ∧ EntityManager.entity_counter m'
      = EntityManager.entity_counter m + N.of_nat (family_size family)
    ∧ EntityManager.systems m' = EntityManager.systems m
    ∧ EntityManager.system_type_map m' = EntityManager.system_type_map m
    ∧ reachable_disciplined t'
    ∧ keys_allocated (m', t')
    ∧ family_built (EntityManager.entity_counter m + 1) family t'
    ∧ unchanged_up_to (EntityManager.entity_counter m) t t'.
Proof.
  intros Hfuel Hsmall Ht Hkeys. destruct family as [[lp ls] kids].
  unfold family_size in *. simpl in Hsmall.
  destruct fuel as [|f]; [lia|].
  set (root := EntityManager.entity_counter m + 1).
  assert (Hroot : root ≠ kInvalidEntity) by (unfold root, kInvalidEntity; lia).
  assert (Hincr : uint64_incr (EntityManager.entity_counter m) = root)
    by (apply uint64_incr_small; lia).
  assert (Hfresh : scene_graph_transforms t !! root = None).
  { destruct (scene_graph_transforms t !! root) as [v|] eqn:E; [|reflexivity].
    exfalso. assert (root ≤ EntityManager.entity_counter m) as Hle
      by (apply (Hkeys root); left; simpl; rewrite E; eauto).
    unfold root in Hle. lia. }
  set (t1 := {| scene_graph_transforms :=
                  <[root := {| sg_entity := root; local_pose := lp;
                               local_scale := ls; parent := kInvalidEntity;
                               children := [] |}]> (scene_graph_transforms t);
                world_transforms :=
                  <[root := {| wt_entity := root; world_pose := lp |}]>
                    (world_transforms t) |}).
  assert (Hcreate : create (S f) root lp ls t = Returns true t1)
    by apply create_returns.
  assert (Ht1 : reachable_disciplined t1).
  { apply (disciplined_call t (S f) (Create root lp ls) t1 Ht).
    - simpl. apply negb_true_iff, has_transform_false. exact Hfresh.
    - simpl. rewrite Hcreate. reflexivity. }
  set (m1 := {| EntityManager.system_type_map := EntityManager.system_type_map m;
                EntityManager.entity_counter := root;
                EntityManager.systems := EntityManager.systems m |}).
  destruct (spawn_children_builds (S f) root lp ls kids [] m1 t1 Hfuel Hroot)
    as (m2 & t2 & Hrun2 & Hcount2 & Hsys2 & Hmap2 & Ht2 & Hkeys2 & Hbuilt2 & Hframe2).
  - simpl. lia.
  - simpl. unfold root. lia.
  - exact Ht1.
  - intros x Hx. simpl in *.
    assert (Hsgx : is_Some (scene_graph_transforms t1 !! x)).
    { destruct Hx as [Hx|Hx]; [exact Hx|].
      apply (reachable_within t1 (reachable_disciplined_reachable t1 Ht1) x Hx). }
    unfold t1 in Hsgx. simpl in Hsgx.
    destruct (decide (x = root)) as [->|Hne]; [lia|].
    rewrite lookup_insert_ne in Hsgx by congruence.
    assert (x ≤ EntityManager.entity_counter m) by (apply Hkeys; left; exact Hsgx).
    unfold root. lia.
  - split; [|split]; simpl.
    + apply lookup_insert_eq.
    + apply lookup_insert_eq.
    + intros i ps Hi. rewrite lookup_nil in Hi. discriminate.
  - exists m2, t2. simpl in Hcount2, Hbuilt2.
    split; [|split; [|split; [|split; [|split; [|split; [|split]]]]]].
    + unfold spawn_family, EntityManager.create. simpl. rewrite Hincr, Hcreate.
      exact Hrun2.
    + rewrite Hcount2. unfold root. simpl. lia.
    + rewrite Hsys2. reflexivity.
    + rewrite Hmap2. reflexivity.
    + exact Ht2.
    + exact Hkeys2.
    + exact Hbuilt2.
    + intros x Hx. destruct (Hframe2 x) as [-> ->]; [unfold root; lia|].
      unfold t1. simpl. rewrite !lookup_insert_ne by (unfold root; lia).
      split; reflexivity.
Qed.

Lemma families_size_cons (family : (Pose * float3) * list (Pose * float3)) rest :
  families_size (family :: rest)
  = (family_size family + families_size rest)%nat.
Proof. reflexivity. Qed.

(** X17. The loop of the sample program, for any list of families (a
    root with its children, with their poses and scales): when the
    transform system is in a state reached within the discipline, holds
    no key above the counter of the entity manager, and the counter is
    far enough from its largest value for the identifiers the loop
    takes, the loop returns with fuel for two nested calls (no call
    throws and no recomputation goes deeper than a root and its
    children). The counter has advanced by the number of entities
    created; every family is in the tables, its root under the next
    identifier after those of the families before it, the children under
    the following ones in order, with the world poses of the rule; the
    entries that were there before are untouched, and the state is
    again one reached within the discipline with no key above the
    counter. *)
Theorem spawn_families_builds fuel families : ∀ m t,
  (2 ≤ fuel)%nat →
  EntityManager.entity_counter m + N.of_nat (families_size families)
    < uint64_modulus →
  reachable_disciplined t →
  keys_allocated (m, t) →
  ∃ m' t',
    spawn_families fuel families (m, t) = Some (m', t')
    ∧ EntityManager.entity_counter m'
      = EntityManager.entity_counter m + N.of_nat (families_size families)
    ∧ EntityManager.systems m' = EntityManager.systems m
    ∧ EntityManager.system_type_map m' = EntityManager.system_type_map m
    ∧ reachable_disciplined t'
    ∧ keys_allocated (m', t')
    ∧ unchanged_up_to (EntityManager.entity_counter m) t t'
    ∧ ∀ j family, families !! j = Some family →
        family_built
          (EntityManager.entity_counter m
           + N.of_nat (families_size (take j families)) + 1)
          family t'.
Proof.
  induction families as [|family rest IH]; intros m t Hfuel Hsmall Ht Hkeys.
  - exists m, t. simpl.
    split; [reflexivity|]. split; [unfold families_size; simpl; lia|].
    split; [reflexivity|]. split; [reflexivity|]. split; [exact Ht|].
    split; [exact Hkeys|]. split; [intros x _; split; reflexivity|].
    intros j family Hj. rewrite lookup_nil in Hj. discriminate.
  - rewrite families_size_cons in Hsmall.
    destruct (spawn_family_builds fuel family m t Hfuel)
      as (m1 & t1 & Hrun1 & Hcount1 & Hsys1 & Hmap1 & Ht1 & Hkeys1 & Hbuilt1 & Hsame1);
      try assumption; [lia|].
    destruct (IH m1 t1 Hfuel)
      as (m2 & t2 & Hrun2 & Hcount2 & Hsys2 & Hmap2 & Ht2 & Hkeys2 & Hsame2 & Hbuilt2);
      try assumption; [rewrite Hcount1; lia|].
    exists m2, t2.
    split; [simpl; rewrite Hrun1; exact Hrun2|].
    split; [rewrite Hcount2, Hcount1, families_size_cons; lia|].
    split; [congruence|]. split; [congruence|].
    split; [exact Ht2|]. split; [exact Hkeys2|]. split.
    + intros x Hx. destruct (Hsame1 x Hx) as [<- <-]. apply Hsame2.
      rewrite Hcount1. lia.
    + intros [|j] fam Hj; simpl in Hj.
      * injection Hj as <-. simpl.
        replace (EntityManager.entity_counter m + N.of_nat (families_size []) + 1)
          with (EntityManager.entity_counter m + 1)
          by (unfold families_size; simpl; lia).
        apply (family_built_unchanged _ _ (EntityManager.entity_counter m1) t1 t2);
          [|exact Hsame2|exact Hbuilt1].
        rewrite Hcount1. unfold family_size. lia.
      * specialize (Hbuilt2 j fam Hj). simpl.
        rewrite families_size_cons.
        replace (EntityManager.entity_counter m
                 + N.of_nat (family_size family + families_size (take j rest)) + 1)
          with (EntityManager.entity_counter m1
                + N.of_nat (families_size (take j rest)) + 1)
          by (rewrite Hcount1; lia).
        exact Hbuilt2.
Qed.
End sample_program_extras.

Section material_use.
Context `{MaterialTypes}.
Import Material.
Implicit Types (m : MetallicRoughnessMaterial) (v : variant).

Lemma texture_if_enabled_true define name handle bp v :
  enabled v define = true →
  texture_if_enabled define name handle (bp, v)
  = ((bp + 1)%Z, call (Texture name bp handle GL_TEXTURE_2D) v).
Proof. intros Hd. unfold texture_if_enabled. simpl. rewrite Hd. reflexivity. Qed.

Lemma texture_if_enabled_false define name handle bp v :
  enabled v define = false →
  texture_if_enabled define name handle (bp, v) = (bp, v).
Proof. intros Hd. unfold texture_if_enabled. simpl. rewrite Hd. reflexivity. Qed.

(** X18. A material that has no compiled variant yet: the three
    [update_uniforms] functions dereference the null [compiled_variant].
    After [use], which asks the shader for the variant of its nine
    defines (and keeps a variant the material already has), they return
    when called in the order [update_uniforms], [update_uniforms_ibl],
    [update_uniforms_shadow]; with a variant that enables the defines it
    was asked for, the samplers are bound to the units 0 to 7 in the
    order albedo, normal, roughness, metallic, occlusion, irradiance,
    radiance, shadow map array, and neither the emissive nor the height
    map is bound. *)
Theorem use_then_update_uniforms get_variant irradiance radiance handle m :
  compiled_variant m = None →
  (∀ d, enabled (get_variant use_defines) d = bool_decide (d ∈ use_defines)) →
  (update_uniforms m = Null_dereference
   ∧ update_uniforms_ibl irradiance radiance m = Null_dereference
   ∧ update_uniforms_shadow handle m = Null_dereference)
  ∧ (∀ m0 v0, compiled_variant m0 = Some v0 →
       compiled_variant (use get_variant m0) = Some (call Bind v0))
  ∧ ∃ m1 m2 m3 v3 calls,
      update_uniforms (use get_variant m) = Done m1
      ∧ update_uniforms_ibl irradiance radiance m1 = Done m2
      ∧ update_uniforms_shadow handle m2 = Done m3
      ∧ compiled_variant m3 = Some v3
      ∧ shader_calls v3 = shader_calls (get_variant use_defines) ++ calls
      ∧ texture_bindings calls
        = [("s_albedo", 0); ("s_normal", 1); ("s_roughness", 2);
           ("s_metallic", 3); ("s_occlusion", 4); ("sc_irradiance", 5);
           ("sc_radiance", 6); ("s_csmArray", 7)]%Z
      ∧ bindpoint m3 = 8%Z.
Proof.
  intros Hnone Hen.
  split; [|split].
  - unfold update_uniforms, update_uniforms_ibl, update_uniforms_shadow.
    rewrite Hnone. split; [reflexivity|]. split; reflexivity.
  - intros m0 v0 Hv0. unfold use. rewrite Hv0. reflexivity.
  - assert (E : ∀ d b, bool_decide (d ∈ use_defines) = b →
                       enabled (get_variant use_defines) d = b)
      by (intros d b <-; apply Hen).
    pose proof (E "HAS_ALBEDO_MAP" true eq_refl) as E1.
    pose proof (E "HAS_NORMAL_MAP" true eq_refl) as E2.
    pose proof (E "HAS_ROUGHNESS_MAP" true eq_refl) as E3.
    pose proof (E "HAS_METALNESS_MAP" true eq_refl) as E4.
    pose proof (E "HAS_EMISSIVE_MAP" false eq_refl) as E5.
    pose proof (E "HAS_HEIGHT_MAP" false eq_refl) as E6.
    pose proof (E "HAS_OCCLUSION_MAP" true eq_refl) as E7.
    pose proof (E "USE_IMAGE_BASED_LIGHTING" true eq_refl) as E8.
    pose proof (E "ENABLE_SHADOWS" true eq_refl) as E9.
    clear E Hen. unfold use. rewrite Hnone.
    generalize dependent (get_variant use_defines). intros gv E1 E2 E3 E4 E5 E6 E7 E8 E9.
    unfold update_uniforms.
    cbn [compiled_variant with_variant]. cbv zeta.
    rewrite (texture_if_enabled_true "HAS_ALBEDO_MAP") by exact E1.
    rewrite (texture_if_enabled_true "HAS_NORMAL_MAP") by exact E2.
    rewrite (texture_if_enabled_true "HAS_ROUGHNESS_MAP") by exact E3.
    rewrite (texture_if_enabled_true "HAS_METALNESS_MAP") by exact E4.
    rewrite (texture_if_enabled_false "HAS_EMISSIVE_MAP") by exact E5.
    rewrite (texture_if_enabled_false "HAS_HEIGHT_MAP") by exact E6.
    rewrite (texture_if_enabled_true "HAS_OCCLUSION_MAP") by exact E7.
    cbn [fst snd].
    eexists _, _, _, _, _. split; [reflexivity|].
    unfold update_uniforms_ibl.
    cbn [compiled_variant with_variant bindpoint enabled call].
    rewrite E8. cbn [negb]. cbv zeta.
    split; [reflexivity|].
    unfold update_uniforms_shadow.
    cbn [compiled_variant with_variant bindpoint enabled call].
    rewrite E9. cbn [negb]. cbv zeta.
    split; [reflexivity|]. split; [reflexivity|].
    split; [|split; [|reflexivity]].
    + cbn [shader_calls call]. rewrite <- !app_assoc. reflexivity.
    + reflexivity.
Qed.
End material_use.

(** * The properties above on concrete states *)

Section extra_instances.
#[local] Existing Instance example_math.
#[local] Existing Instance example_typeids.
#[local] Existing Instance example_system_typeids.
#[local] Existing Instance example_material_types.
Import TransformSystem.

Lemma scene_is_reachable : reachable scene.
Proof.
  apply (reachable_run_calls 2 scene_calls initial);
    [apply reachable_initial|reflexivity].
Qed.

Lemma scene_is_disciplined : reachable_disciplined scene.
Proof.
  apply (reachable_disciplined_run_calls 2 scene_calls initial);
    [apply disciplined_initial|reflexivity].
Qed.

Lemma three_roots_is_disciplined : reachable_disciplined three_roots.
Proof.
  apply (reachable_disciplined_run_calls 1 three_roots_calls initial);
    [apply disciplined_initial|reflexivity].
Qed.

(** X2 on the state in which the reserved identifier was created. *)
Lemma reserved_entity_record_witness :
  reachable invalid_created
  ∧ has_transform kInvalidEntity invalid_created = true
  ∧ run_call 1 (Remove_parent 0) invalid_created = Some invalid_created
  ∧ no_invalid_child invalid_created
  ∧ has_transform kInvalidEntity invalid_created = true.
Proof.
  assert (Hreach : reachable invalid_created).
  { apply (reachable_run_calls 1 invalid_created_calls initial);
      [apply reachable_initial|reflexivity]. }
  destruct reserved_entity_record as (_ & Hchild & Hkept).
  split; [exact Hreach|]. split; [reflexivity|]. split; [reflexivity|].
  split; [exact (Hchild invalid_created Hreach)|].
  exact (Hkept invalid_created 1%nat (Remove_parent 0) invalid_created
           Hreach eq_refl eq_refl).
Defined.

(** X3 on the scene: giving the root 1 to its child 2 does not return. *)
Lemma add_child_returns_iff_witness :
  reachable scene ∧ 2 ≠ kInvalidEntity ∧ 1 ≠ kInvalidEntity
  ∧ has_transform 2 scene = true ∧ has_transform 1 scene = true
  ∧ ((∃ n b s', add_child n 2 1 scene = Returns b s')
     ↔ ¬ reach (scene_graph_transforms scene) 1 2)
  ∧ (reach (scene_graph_transforms scene) 1 2 →
     ∀ n, add_child n 2 1 scene = Out_of_fuel).
Proof.
  split; [exact scene_is_reachable|]. split; [discriminate|].
  split; [discriminate|]. split; [reflexivity|]. split; [reflexivity|].
  apply (add_child_returns_iff 2 1 scene);
    first [exact scene_is_reachable|discriminate|reflexivity].
Defined.

(** X4 on the scene. *)
Lemma reachable_acyclic_witness :
  reachable scene ∧ 2 ∈ children_of (scene_graph_transforms scene) 1
  ∧ ¬ reach (scene_graph_transforms scene) 2 1 ∧ 2 ≠ 1.
Proof.
  assert (Hin : 2 ∈ children_of (scene_graph_transforms scene) 1)
    by (change (2 ∈ [2; 3]); apply list_elem_of_here).
  split; [exact scene_is_reachable|]. split; [exact Hin|].
  apply (reachable_acyclic scene 1 2 scene_is_reachable Hin).
Defined.

(** X5 on the scene. *)
Lemma world_transform_has_record_witness :
  reachable scene
  ∧ get_world_transform 2 scene = Some (example_world 2 [20; 10])
  ∧ has_transform 2 scene = true ∧ is_Some (get_local_transform 2 scene).
Proof.
  split; [exact scene_is_reachable|]. split; [reflexivity|].
  apply (world_transform_has_record scene 2 (example_world 2 [20; 10])
           scene_is_reachable eq_refl).
Defined.

(** X6 on the scene: after [destroy 2] the record of 1 still lists 2. *)
Lemma destroy_leaves_parent_entry_witness :
  reachable scene ∧ 2 ≠ kInvalidEntity ∧ has_transform 2 scene = true
  ∧ scene_graph_transforms scene !! 1 = Some (example_node 1 [10] 0 [2; 3])
  ∧ 2 ∈ children (example_node 1 [10] 0 [2; 3])
  ∧ ∃ s',
      (∃ n, ∀ m, (n ≤ m)%nat → destroy m 2 scene = Returns () s')
      ∧ has_transform 2 s' = false
      ∧ scene_graph_transforms s' !! 1 = Some (example_node 1 [10] 0 [2; 3]).
Proof.
  assert (Hin : 2 ∈ children (example_node 1 [10] 0 [2; 3]))
    by apply list_elem_of_here.
  split; [exact scene_is_reachable|]. split; [discriminate|].
  split; [reflexivity|]. split; [reflexivity|]. split; [exact Hin|].
  apply (destroy_leaves_parent_entry 2 1 scene (example_node 1 [10] 0 [2; 3])
           scene_is_reachable);
    first [discriminate|reflexivity|exact Hin].
Defined.

(** X7 on the scene. *)
Lemma remove_parent_idempotent_witness :
  remove_parent 1 2 scene = Returns () scene_detached
  ∧ ∀ m, remove_parent m 2 scene_detached = Returns () scene_detached.
Proof.
  split; [reflexivity|].
  apply (remove_parent_idempotent 1 2 scene () scene_detached). reflexivity.
Defined.

(** X8 on the three roots. *)
Lemma add_child_remove_parent_restores_witness :
  reachable_disciplined three_roots
  ∧ get_parent 2 three_roots = kInvalidEntity
  ∧ add_child 2 1 2 three_roots = Returns true one_child
  ∧ ∃ s2,
      (∃ k, ∀ m, (k ≤ m)%nat → remove_parent m 2 one_child = Returns () s2)
      ∧ scene_graph_transforms s2 = scene_graph_transforms three_roots
      ∧ (∀ x w, world_transforms three_roots !! x = Some w →
                world_transforms s2 !! x = Some w).
Proof.
  split; [exact three_roots_is_disciplined|]. split; [reflexivity|].
  split; [reflexivity|].
  apply (add_child_remove_parent_restores 2 1 2 three_roots true one_child
           three_roots_is_disciplined);
    reflexivity.
Defined.

(** X9 on the scene. *)
Lemma disciplined_world_poses_witness :
  reachable_disciplined scene
  ∧ world_transforms scene !! 2 = Some (example_world 2 [20; 10])
  ∧ ∃ node,
      scene_graph_transforms scene !! 2 = Some node
      ∧ ((parent node = kInvalidEntity
          ∧ world_pose (example_world 2 [20; 10]) = local_pose node)
         ∨ (parent node ≠ kInvalidEntity
            ∧ ∃ pn, scene_graph_transforms scene !! parent node = Some pn
                    ∧ world_pose (example_world 2 [20; 10])
                      = pose_mul (local_pose node) (local_pose pn))).
Proof.
  split; [exact scene_is_disciplined|]. split; [reflexivity|].
  apply (disciplined_world_poses scene 2 (example_world 2 [20; 10])
           scene_is_disciplined eq_refl).
Defined.

(** X10 on the three roots: entity 3 is left alone by [add_child 1 2]. *)
Lemma add_child_frame_witness :
  add_child 2 1 2 three_roots = Returns true one_child
  ∧ scene_graph_transforms one_child !! 3 = Some (example_node 3 [30] 0 [])
  ∧ world_transforms one_child !! 3 = world_transforms three_roots !! 3.
Proof.
  destruct (add_child_frame 2 1 2 three_roots true one_child eq_refl)
    as (_ & _ & _ & Hrecords & Hworld).
  split; [reflexivity|]. split.
  - apply (Hrecords 3); first [discriminate|reflexivity].
  - reflexivity.
Defined.

(** X11 on the scene: entities 1 and 3 are left alone by
    [remove_parent 2]. *)
Lemma remove_parent_frame_witness :
  remove_parent 1 2 scene = Returns () scene_detached
  ∧ scene_graph_transforms scene_detached !! 3 = Some (example_node 3 [30] 1 [])
  ∧ parent_of (scene_graph_transforms scene_detached) 3
    = parent_of (scene_graph_transforms scene) 3.
Proof.
  destruct (remove_parent_frame 1 2 scene () scene_detached eq_refl)
    as (_ & Hparent & _ & Hrecords & _).
  split; [reflexivity|]. split.
  - apply (Hrecords 3); first [discriminate|reflexivity].
  - apply (Hparent 3). discriminate.
Defined.
End extra_instances.

Section extra_instances_systems.
#[local] Existing Instance example_math.
#[local] Existing Instance example_typeids.
#[local] Existing Instance example_system_typeids.
#[local] Existing Instance example_material_types.
Import EntityManager Systems.

(** X12 on three calls of [create] on a new entity manager. *)
Lemma create_identifiers_window_witness :
  N.of_nat 3 ≤ uint64_modulus
  ∧ entity_counter new < uint64_modulus
  ∧ NoDup (create_many 3 new).1
  ∧ entity_counter (create_many 3 new).2
    = (entity_counter new + N.of_nat 3) mod uint64_modulus.
Proof.
  assert (Hk : N.of_nat 3 ≤ uint64_modulus) by discriminate.
  assert (Hc : entity_counter new < uint64_modulus) by reflexivity.
  destruct (create_identifiers_window 3 new) as (_ & Hnodup & _ & _ & _ & Hcount).
  split; [exact Hk|]. split; [exact Hc|].
  split; [exact (Hnodup Hk)|exact (Hcount Hc)].
Defined.

(** X13 on a new entity manager and a system at address 100. *)
Lemma create_system_registers_witness :
  100 ≠ nullptr
  ∧ (let r := create_system typeid_transform_system construct_transform_system
                100 new in
     r.1 = 100
     ∧ registered_first typeid_transform_system 100 new r.2
     ∧ system_type_map r.2 !! typeid_scene_graph_component
       = Some typeid_transform_system
     ∧ system_type_map r.2 !! typeid_world_transform_component
       = Some typeid_transform_system)
  ∧ (let r := create_system typeid_ex_system_one construct_ex_system_one 100 new in
     r.1 = 100
     ∧ registered_first typeid_ex_system_one 100 new r.2
     ∧ system_type_map r.2 !! typeid_physics_component = Some typeid_ex_system_one)
  ∧ (let r := create_system typeid_ex_system_two construct_ex_system_two 100 new in
     r.1 = 100
     ∧ registered_first typeid_ex_system_two 100 new r.2
     ∧ system_type_map r.2 !! typeid_render_component = Some typeid_ex_system_two).
Proof.
  assert (Hptr : 100 ≠ nullptr) by discriminate.
  split; [exact Hptr|].
  apply (create_system_registers 100 new Hptr).
Defined.

Lemma scene_keys_allocated :
  SampleProgram.keys_allocated (example_factory, scene).
Proof.
  assert (Hkeys : ∀ x : entity, x ≠ 1 → x ≠ 2 → x ≠ 3 →
            ¬ (is_Some (TransformSystem.scene_graph_transforms scene !! x)
               ∨ is_Some (TransformSystem.world_transforms scene !! x))).
  { intros x H1 H2 H3 [[v Hx]|[v Hx]]; unfold scene in Hx; simpl in Hx;
      rewrite !lookup_insert_ne, lookup_empty in Hx by congruence;
      discriminate. }
  intros x Hx. change (x ≤ 3).
  destruct (decide (x = 1)) as [->|H1]; [lia|].
  destruct (decide (x = 2)) as [->|H2]; [lia|].
  destruct (decide (x = 3)) as [->|H3]; [lia|].
  exfalso. exact (Hkeys x H1 H2 H3 Hx).
Qed.

(** X17 on the scene: two more families, a root with two children and a
    root with one, take the identifiers 4 to 8. *)
Lemma spawn_families_builds_witness :
  (2 ≤ 2)%nat
  ∧ entity_counter example_factory
    + N.of_nat (SampleProgram.families_size example_families) < uint64_modulus
  ∧ reachable_disciplined scene
  ∧ SampleProgram.keys_allocated (example_factory, scene)
  ∧ ∃ m' t',
      SampleProgram.spawn_families 2 example_families (example_factory, scene)
      = Some (m', t')
      ∧ entity_counter m'
        = entity_counter example_factory
          + N.of_nat (SampleProgram.families_size example_families)
      ∧ systems m' = systems example_factory
      ∧ system_type_map m' = system_type_map example_factory
      ∧ reachable_disciplined t'
      ∧ SampleProgram.keys_allocated (m', t')
      ∧ unchanged_up_to (entity_counter example_factory) scene t'
      ∧ ∀ j family, example_families !! j = Some family →
          family_built
            (entity_counter example_factory
             + N.of_nat (SampleProgram.families_size (take j example_families))
             + 1)
            family t'.
Proof.
  assert (Hfuel : (2 ≤ 2)%nat) by lia.
  assert (Hsmall : entity_counter example_factory
                   + N.of_nat (SampleProgram.families_size example_families)
                   < uint64_modulus) by reflexivity.
  split; [exact Hfuel|]. split; [exact Hsmall|].
  split; [exact scene_is_disciplined|]. split; [exact scene_keys_allocated|].
  apply (spawn_families_builds 2 example_families example_factory scene
           Hfuel Hsmall scene_is_disciplined scene_keys_allocated).
Defined.

Example spawn_example_families :
  ∃ m' t',
    SampleProgram.spawn_families 2 example_families (example_factory, scene)
    = Some (m', t')
    ∧ entity_counter m' = 8
    ∧ TransformSystem.scene_graph_transforms t' !! 4
      = Some (example_node 4 [40] 0 [5; 6])
    ∧ TransformSystem.world_transforms t' !! 6 = Some (example_world 6 [42; 40])
    ∧ TransformSystem.scene_graph_transforms t' !! 8
      = Some (example_node 8 [51] 7 []).
Proof.
  eexists _, _. split; [vm_compute; reflexivity|].
  split; [reflexivity|]. split; [reflexivity|]. split; reflexivity.
Qed.
End extra_instances_systems.

Section extra_instances_material.
#[local] Existing Instance example_math.
#[local] Existing Instance example_material_types.
Import Material.


Example enabled_maps_after_use :
  enabled_maps (call Bind (example_get_variant use_defines)) = 5%nat.
Proof. reflexivity. Qed.


(** X16: the guards on a variant with the albedo map only, and two calls
    of [update_uniforms_ibl] in a row on the material after [use]. *)
Lemma update_uniforms_ibl_guard_and_units_witness :
  (compiled_variant example_plain_material
   = Some (example_get_variant ["HAS_ALBEDO_MAP"])
   ∧ (∃ what, update_uniforms_ibl 8 9 example_plain_material
              = Throws_runtime_error what example_plain_material)
   ∧ (∃ what, update_uniforms_shadow 10 example_plain_material
              = Throws_runtime_error what example_plain_material))
  ∧ (compiled_variant example_used_material
     = Some (call Bind (example_get_variant use_defines))
     ∧ ∃ m' v' calls,
         repeat_update_uniforms_ibl 2 8 9 example_used_material = Done m'
         ∧ compiled_variant m' = Some v'
         ∧ shader_calls v'
           = shader_calls (call Bind (example_get_variant use_defines)) ++ calls
         ∧ texture_units calls = units_from (bindpoint example_used_material) (2 * 2)
         ∧ NoDup (texture_units calls)
         ∧ bindpoint m' = (bindpoint example_used_material + 2 * Z.of_nat 2)%Z).
Proof.
  destruct (update_uniforms_ibl_guard_and_units example_plain_material
              (example_get_variant ["HAS_ALBEDO_MAP"]) eq_refl)
    as (Hibl & Hshadow & _).
  destruct (update_uniforms_ibl_guard_and_units example_used_material
              (call Bind (example_get_variant use_defines)) eq_refl)
    as (_ & _ & Hrepeat).
  split.
  - split; [reflexivity|]. split.
    + apply (Hibl eq_refl 8 9).
    + apply (Hshadow eq_refl 10).
  - split; [reflexivity|].
    apply (Hrepeat eq_refl 2%nat 8 9); [discriminate|reflexivity].
Defined.

(** X18 on the example material and a renderer whose variants enable
    the defines they are asked for. *)
Lemma use_then_update_uniforms_witness :
  compiled_variant example_material = None
  ∧ (∀ d, enabled (example_get_variant use_defines) d
          = bool_decide (d ∈ use_defines))
  ∧ update_uniforms example_material = Null_dereference
  ∧ ∃ m1 m2 m3 v3 calls,
      update_uniforms (use example_get_variant example_material) = Done m1
      ∧ update_uniforms_ibl 8 9 m1 = Done m2
      ∧ update_uniforms_shadow 10 m2 = Done m3
      ∧ compiled_variant m3 = Some v3
      ∧ shader_calls v3 = shader_calls (example_get_variant use_defines) ++ calls
      ∧ texture_bindings calls
        = [("s_albedo", 0); ("s_normal", 1); ("s_roughness", 2);
           ("s_metallic", 3); ("s_occlusion", 4); ("sc_irradiance", 5);
           ("sc_radiance", 6); ("s_csmArray", 7)]%Z
      ∧ bindpoint m3 = 8%Z.
Proof.
  assert (Hen : ∀ d, enabled (example_get_variant use_defines) d
                     = bool_decide (d ∈ use_defines))
    by (intros d; reflexivity).
  destruct (use_then_update_uniforms example_get_variant 8 9 10 example_material
              eq_refl Hen) as ((Hnull & _) & _ & Hrun).
  split; [reflexivity|]. split; [exact Hen|]. split; [exact Hnull|]. exact Hrun.
Defined.
End extra_instances_material.
